(** * AutomationZ Log Cleanup Scheduler: pattern matching, tree cleanup and
      due-job detection of [app/main.py], embedded in Rocq.

    The development follows the layout of the Python module:
    - helpers ([norm_remote], [matches_any], with the part of the standard
      [fnmatch] module that [matches_any] calls);
    - the storage acted upon (a directory tree, shared by the local file
      system and the FTP server), the log and the calls issued on it;
    - [local_cleanup_folder] and [ftp_cleanup_folder];
    - [App._run_due_jobs] and [App._tick].

    Definitions come first, theorems after. *)

From Stdlib Require Import List Bool Arith ZArith Lia Ascii String.
Import ListNotations.

Local Open Scope string_scope.
Local Open Scope list_scope.

(* ===================================================================== *)
(** * Part I: definitions                                                 *)
(* ===================================================================== *)

(* --------------------------------------------------------------------- *)
(** ** Characters and strings                                              *)
(* --------------------------------------------------------------------- *)

(** Python strings are sequences of code points; the model keeps the code
    points below 256, which is what [Stdlib.Strings.String] offers. *)

Definition chars (s : string) : list ascii := list_ascii_of_string s.
Definition str (l : list ascii) : string := string_of_list_ascii l.

Definition code (c : ascii) : N := N_of_ascii c.

(** [str.isspace] restricted to the code points below 256. *)
Definition isspace (c : ascii) : bool :=
  let n := code c in
  ((9 <=? n) && (n <=? 13) || (28 <=? n) && (n <=? 32)
   || (n =? 133) || (n =? 160))%N.

Fixpoint dropwhile {A : Type} (f : A -> bool) (l : list A) : list A :=
  match l with
  | [] => []
  | x :: r => if f x then dropwhile f r else l
  end.

Definition lstrip_by (f : ascii -> bool) (l : list ascii) : list ascii :=
  dropwhile f l.
Definition rstrip_by (f : ascii -> bool) (l : list ascii) : list ascii :=
  rev (dropwhile f (rev l)).

(** [s.strip()] *)
Definition strip (s : string) : string :=
  str (rstrip_by isspace (lstrip_by isspace (chars s))).

Definition is_slash (c : ascii) : bool := Ascii.eqb c "/".

(** [s.rstrip("/")] *)
Definition rstrip_slash (s : string) : string :=
  str (rstrip_by is_slash (chars s)).

(** [s.startswith("/")] *)
Definition starts_with_slash (s : string) : bool :=
  match s with
  | String c _ => is_slash c
  | EmptyString => false
  end.

(** [s.replace(a, b)] for single characters. *)
Definition replace_char (a b : ascii) (l : list ascii) : list ascii :=
  map (fun c => if Ascii.eqb c a then b else c) l.

(** [norm_remote]: [(path or "").replace("\\", "/")]. *)
Definition norm_remote (path : string) : string :=
  str (replace_char "\" "/" (chars path)).

(* --------------------------------------------------------------------- *)
(** ** The standard [fnmatch] module                                       *)
(* --------------------------------------------------------------------- *)

(** [fnmatch.fnmatch] normalises both arguments with [os.path.normcase],
    which depends on the platform the program runs on.  The program
    supports both ([open_path] tests [sys.platform]). *)
Inductive platform := Posix | Windows.

(** [str.lower] on the code points below 256. *)
Definition lower (c : ascii) : ascii :=
  let n := code c in
  if ((65 <=? n) && (n <=? 90)
      || (192 <=? n) && (n <=? 222) && negb (n =? 215))%N
  then ascii_of_N (n + 32) else c.

(** [os.path.normcase]: the identity in [posixpath]; in [ntpath],
    [s.replace('/', '\\').lower()]. *)
Definition normcase (os : platform) (l : list ascii) : list ascii :=
  match os with
  | Posix => l
  | Windows => map lower (replace_char "/" "\" l)
  end.

(** What [fnmatch.translate] turns a pattern into, read as the regular
    expression it builds: [.*] for a run of stars, [.] for a question
    mark, a character class, or the escaped character itself. *)
Inductive class_item :=
| CChar (c : ascii)
| CRange (lo hi : ascii).

Inductive glob_token :=
| GStar
| GAny
| GClass (negated : bool) (items : list class_item)
| GLit (c : ascii).

Definition is_star (t : glob_token) : bool :=
  match t with GStar => true | _ => false end.

(** Search of the closing bracket, the text after ['['] being [rest]:
<<
    j = i
    if j < n and pat[j] == '!': j = j+1
    if j < n and pat[j] == ']': j = j+1
    while j < n and pat[j] != ']': j = j+1
>>
    [None] when [j >= n]; otherwise [pat[i:j]] and [pat[j+1:]]. *)
Fixpoint until_rbracket (l : list ascii) : option (list ascii * list ascii) :=
  match l with
  | [] => None
  | c :: r =>
      if Ascii.eqb c "]" then Some ([], r)
      else match until_rbracket r with
           | Some (a, b) => Some (c :: a, b)
           | None => None
           end
  end.

Definition bracket_body (rest : list ascii)
  : option (list ascii * list ascii) :=
  let '(p1, r1) :=
    match rest with
    | c :: r => if Ascii.eqb c "!" then ([c], r) else ([], rest)
    | [] => ([], rest)
    end in
  let '(p2, r2) :=
    match r1 with
    | c :: r => if Ascii.eqb c "]" then ([c], r) else ([], r1)
    | [] => ([], r1)
    end in
  match until_rbracket r2 with
  | Some (mid, after) => Some (p1 ++ p2 ++ mid, after)
  | None => None
  end.

(** The chunks of a bracket body that contains a hyphen:
<<
    k = i+2 if pat[i] == '!' else i+1
    while True:
        k = pat.find('-', k, j)
        if k < 0: break
        chunks.append(pat[i:k]); i = k+1; k = k+3
    chunk = pat[i:j]
    if chunk: chunks.append(chunk)
    else: chunks[-1] += '-'
>>
    [skip] counts the positions left before the search of a hyphen
    resumes, [cur] is [pat[i:...]] read so far. *)
Fixpoint split_chunks (skip : nat) (cur : list ascii) (l : list ascii)
  : list (list ascii) :=
  match l with
  | [] => [cur]
  | c :: r =>
      match skip with
      | O => if Ascii.eqb c "-" then cur :: split_chunks 2 [] r
             else split_chunks 0 (cur ++ [c]) r
      | S k => split_chunks k (cur ++ [c]) r
      end
  end.

Fixpoint close_chunks (cs : list (list ascii)) : list (list ascii) :=
  match cs with
  | [] => []
  | [c] => [c]
  | c :: r =>
      match r with
      | [[]] => [c ++ ["-"%char]]
      | _ => c :: close_chunks r
      end
  end.

Definition chunks_of (stuff : list ascii) : list (list ascii) :=
  let k := match stuff with
           | c :: _ => if Ascii.eqb c "!" then 2 else 1
           | [] => 1
           end in
  close_chunks (split_chunks k [] stuff).

Definition gtb_char (a b : ascii) : bool := (code b <? code a)%N.

(** Removal of the empty ranges, from the right:
<<
    for k in range(len(chunks)-1, 0, -1):
        if chunks[k-1][-1] > chunks[k][0]:
            chunks[k-1] = chunks[k-1][:-1] + chunks[k][1:]
            del chunks[k]
>> *)
Fixpoint merge_chunks (cs : list (list ascii)) : list (list ascii) :=
  match cs with
  | [] => []
  | c :: r =>
      match merge_chunks r with
      | [] => [c]
      | d :: ds =>
          match rev c, d with
          | x :: _, y :: d' =>
              if gtb_char x y then (removelast c ++ d') :: ds
              else c :: d :: ds
          | _, _ => c :: d :: ds
          end
      end
  end.

(** The class denoted by ['-'.join(chunks)]: the last character of a
    chunk and the first of the next one bound a range, every other
    character stands for itself (hyphens and backslashes inside a chunk
    are escaped by [translate]). *)
Fixpoint class_from (cur : list ascii) (rest : list (list ascii))
  : list class_item :=
  match rest with
  | [] => map CChar cur
  | d :: r' =>
      match rev cur, d with
      | x :: _, y :: d' =>
          map CChar (removelast cur) ++ CRange x y :: class_from d' r'
      | _, _ => map CChar cur ++ class_from d r'
      end
  end.

Definition class_of_chunks (cs : list (list ascii)) : list class_item :=
  match cs with
  | [] => []
  | c :: r => class_from c r
  end.

Definition has_hyphen (l : list ascii) : bool :=
  existsb (fun c => Ascii.eqb c "-") l.

(** The token of a bracket expression with body [stuff]. A leading ['!']
    of the processed body negates the class; an empty body never matches
    and ["!"] alone matches any character, as the classes [GClass false []]
    and [GClass true []] do. *)
Definition class_token (stuff : list ascii) : glob_token :=
  let cs := if has_hyphen stuff then merge_chunks (chunks_of stuff)
            else [stuff] in
  match cs with
  | (c :: c0) :: r =>
      if Ascii.eqb c "!" then GClass true (class_of_chunks (c0 :: r))
      else GClass false (class_of_chunks cs)
  | _ => GClass false (class_of_chunks cs)
  end.

(** [fnmatch.translate], one step per character read; [prev_star] tells
    whether the last token added is a star (consecutive stars are
    compressed into one). The fuel bounds the number of steps: a step
    consumes at least one character. *)
Fixpoint translate_from (fuel : nat) (prev_star : bool) (pat : list ascii)
  : list glob_token :=
  match fuel with
  | O => []
  | S fuel' =>
      match pat with
      | [] => []
      | c :: rest =>
          if Ascii.eqb c "*" then
            if prev_star then translate_from fuel' true rest
            else GStar :: translate_from fuel' true rest
          else if Ascii.eqb c "?" then
            GAny :: translate_from fuel' false rest
          else if Ascii.eqb c "[" then
            match bracket_body rest with
            | None => GLit c :: translate_from fuel' false rest
            | Some (stuff, after) =>
                class_token stuff :: translate_from fuel' false after
            end
          else GLit c :: translate_from fuel' false rest
      end
  end.

Definition translate (pat : list ascii) : list glob_token :=
  translate_from (List.length pat) false pat.

Definition in_item (c : ascii) (it : class_item) : bool :=
  match it with
  | CChar d => Ascii.eqb c d
  | CRange lo hi => ((code lo <=? code c) && (code c <=? code hi))%N
  end.

(** One character against one token other than a star. *)
Definition token_accepts (t : glob_token) (c : ascii) : bool :=
  match t with
  | GStar => false
  | GAny => true
  | GClass neg items => xorb neg (existsb (in_item c) items)
  | GLit d => Ascii.eqb c d
  end.

(** [re.compile(translate(pat)).match(name) is not None]: the expression
    is anchored at both ends ([match] and [\Z]) and [.] accepts every
    character ([(?s:...)]). *)
Fixpoint regex_match (ts : list glob_token) (name : list ascii) : bool :=
  match ts with
  | [] => match name with [] => true | _ => false end
  | t :: ts' =>
      if is_star t then
        (fix star (s : list ascii) : bool :=
           regex_match ts' s
           || match s with [] => false | _ :: s' => star s' end) name
      else
        match name with
        | [] => false
        | c :: s' => token_accepts t c && regex_match ts' s'
        end
  end.

Definition fnmatchcase (name pat : list ascii) : bool :=
  regex_match (translate pat) name.

Definition fnmatch (os : platform) (name pat : string) : bool :=
  fnmatchcase (normcase os (chars name)) (normcase os (chars pat)).

(** [matches_any(name, patterns)] *)
Fixpoint matches_any (os : platform) (name : string) (patterns : list string)
  : bool :=
  match patterns with
  | [] => false
  | pat :: rest =>
      let pat := strip pat in
      if String.eqb pat "" then matches_any os name rest
      else if fnmatch os name pat then true
      else matches_any os name rest
  end.

(** Shell-glob matching as the specification words it: a star stands for
    any run of characters, every other token for exactly one character it
    accepts, and the tokens cover the whole name. *)
Inductive glob_matches : list glob_token -> list ascii -> Prop :=
| gm_end : glob_matches [] []
| gm_star ts s1 s2 :
    glob_matches ts s2 -> glob_matches (GStar :: ts) (s1 ++ s2)
| gm_char t ts c s :
    token_accepts t c = true ->
    glob_matches ts s -> glob_matches (t :: ts) (c :: s).

(* --------------------------------------------------------------------- *)
(** ** The storage, the log and the calls issued                           *)
(* --------------------------------------------------------------------- *)

(** A directory tree, as the local file system or the FTP server holds
    it under a job's folder. Entries are regular files and directories,
    in the order the directory is enumerated in. A locked file refuses
    deletion, a locked directory refuses removal, and a directory that is
    not readable refuses enumeration: the three ways a call on an entry
    can raise. *)
#[local] Unset Elimination Schemes.
Inductive node :=
| File (locked : bool)
| Dir (readable : bool) (locked : bool) (entries : list (string * node)).
#[local] Set Elimination Schemes.

Definition entries := list (string * node).

Definition is_dir (n : node) : bool :=
  match n with Dir _ _ _ => true | File _ => false end.

Fixpoint find_entry (name : string) (es : entries) : option node :=
  match es with
  | [] => None
  | (nm, n) :: r => if String.eqb nm name then Some n else find_entry name r
  end.

Fixpoint remove_entry (name : string) (es : entries) : entries :=
  match es with
  | [] => []
  | (nm, n) :: r =>
      if String.eqb nm name then r else (nm, n) :: remove_entry name r
  end.

Inductive exn :=
| PermissionError
| IsADirectoryError
| error_perm.

Definition exn_text (e : exn) : string :=
  match e with
  | PermissionError => "[Errno 13] Permission denied"
  | IsADirectoryError => "[Errno 21] Is a directory"
  | error_perm => "550 Requested action not taken"
  end.

(** [pathlib.Path] as its parts; [rootp / fn] is [rootp ++ [fn]]. *)
Definition path := list string.

Definition path_str (p : path) : string := String.concat "/" p.

Inductive level := INFO | WARN | ERROR.

(** What a run does, in the order it does it: the lines handed to
    [Logger.log], the calls on the local file system ([Path.unlink],
    [any(Path.iterdir())], [Path.rmdir]) and the calls on the FTP client
    ([list_dir], [delete_file], [remove_dir]), each with its outcome. *)
Inductive event :=
| Log (lv : level) (msg : string)
| Unlink (p : path) (r : option exn)
| Iterdir (p : path) (r : exn + bool)
| Rmdir (p : path) (r : option exn)
| LIST (p : string) (r : exn + list (string * bool))
| DELE (p : string) (r : option exn)
| RMD (p : string) (r : option exn).

(** The two counters of a run and what it has done so far. *)
Record run_state := mk_state {
  deleted_files : nat;
  deleted_dirs : nat;
  trace : list event
}.

Definition start : run_state := mk_state 0 0 [].

Definition emit (e : event) (st : run_state) : run_state :=
  mk_state (deleted_files st) (deleted_dirs st) (trace st ++ [e]).

Definition info (msg : string) (st : run_state) : run_state :=
  emit (Log INFO msg) st.
Definition warn (msg : string) (st : run_state) : run_state :=
  emit (Log WARN msg) st.

(** [deleted_files += 1], [deleted_dirs += 1] *)
Definition count_file (st : run_state) : run_state :=
  mk_state (S (deleted_files st)) (deleted_dirs st) (trace st).
Definition count_dir (st : run_state) : run_state :=
  mk_state (deleted_files st) (S (deleted_dirs st)) (trace st).

(** What [os.scandir] reports of a directory. *)
Definition dir_names (es : entries) : list string :=
  map fst (filter (fun e => is_dir (snd e)) es).
Definition file_names (es : entries) : list string :=
  map fst (filter (fun e => negb (is_dir (snd e))) es).

(** [fp.unlink(missing_ok=True)] in the directory holding [es]. *)
Definition unlink (fn : string) (es : entries) : exn + entries :=
  match find_entry fn es with
  | None => inr es
  | Some (File false) => inr (remove_entry fn es)
  | Some (File true) => inl PermissionError
  | Some (Dir _ _ _) => inl IsADirectoryError
  end.

(** [dp.rmdir()] in the directory holding [es], for an entry found to be
    an empty directory. *)
Definition rmdir (dn : string) (es : entries) : exn + entries :=
  match find_entry dn es with
  | Some (Dir _ false []) => inr (remove_entry dn es)
  | _ => inl PermissionError
  end.

(** [os.walk(top, topdown=False)] over the directory [n] found at [top],
    with the body of the [for] loop run at each triple it yields: a
    directory is scanned, its sub-directories are walked in the order of
    the scan, and only then is [(top, dirs, files)] yielded, with the
    names of the scan.  A directory that cannot be scanned yields
    nothing ([onerror] is [None]).  The body acts on the entries of the
    directory yielded. *)
Section OsWalk.
Variable body :
  path -> list string -> list string -> entries * run_state ->
  entries * run_state.

Fixpoint os_walk (top : path) (n : node) (st : run_state) {struct n}
  : node * run_state :=
  match n with
  | File _ => (n, st)
  | Dir false _ _ => (n, st)
  | Dir true l es =>
      let '(es1, st1) :=
        (fix walk_dirs (es : entries) (st : run_state) {struct es}
           : entries * run_state :=
           match es with
           | [] => ([], st)
           | (nm, c) :: rest =>
               let '(c', st') :=
                 if is_dir c then os_walk (top ++ [nm]) c st else (c, st) in
               let '(rest', st'') := walk_dirs rest st' in
               ((nm, c') :: rest', st'')
           end) es st in
      let '(es2, st2) := body top (dir_names es) (file_names es) (es1, st1) in
      (Dir true l es2, st2)
  end.
End OsWalk.

(** The inner loop of [os_walk], on its own. *)
Fixpoint walk_dirs
  (body : path -> list string -> list string -> entries * run_state ->
          entries * run_state)
  (top : path) (es : entries) (st : run_state) : entries * run_state :=
  match es with
  | [] => ([], st)
  | (nm, c) :: rest =>
      let '(c', st') :=
        if is_dir c then os_walk body (top ++ [nm]) c st else (c, st) in
      let '(rest', st'') := walk_dirs body top rest st' in
      ((nm, c') :: rest', st'')
  end.

(* --------------------------------------------------------------------- *)
(** ** [local_cleanup_folder]                                              *)
(* --------------------------------------------------------------------- *)

Section LocalCleanup.
Variable os : platform.
Variables exclude_files exclude_folders : list string.
Variable dry_run : bool.

(** One turn of [for fn in files]. *)
Definition local_file_step (rootp : path) (s : entries * run_state)
  (fn : string) : entries * run_state :=
  let '(es, st) := s in
  if matches_any os fn exclude_files then s
  else
    let fp := rootp ++ [fn] in
    if dry_run then
      (es, count_file (info ("[DRY] delete file: " ++ path_str fp) st))
    else
      match unlink fn es with
      | inr es' =>
          (es', count_file (info ("Deleted file: " ++ path_str fp)
                              (emit (Unlink fp None) st)))
      | inl e =>
          (es, warn ("Failed delete file: " ++ path_str fp ++ " :: "
                     ++ exn_text e)
                 (emit (Unlink fp (Some e)) st))
      end.

(** One turn of [for dn in dirs]; an exception raised inside the [try]
    is dropped ([except Exception: pass]). *)
Definition local_dir_step (rootp : path) (s : entries * run_state)
  (dn : string) : entries * run_state :=
  let '(es, st) := s in
  if matches_any os dn exclude_folders then s
  else
    let dp := rootp ++ [dn] in
    match find_entry dn es with
    | Some (Dir false _ _) => (es, emit (Iterdir dp (inl PermissionError)) st)
    | Some (Dir true _ (_ :: _)) => (es, emit (Iterdir dp (inr true)) st)
    | Some (Dir true _ []) =>
        let st := emit (Iterdir dp (inr false)) st in
        if dry_run then
          (es, count_dir (info ("[DRY] remove empty dir: " ++ path_str dp) st))
        else
          match rmdir dn es with
          | inr es' =>
              (es', count_dir (info ("Removed empty dir: " ++ path_str dp)
                                 (emit (Rmdir dp None) st)))
          | inl e => (es, emit (Rmdir dp (Some e)) st)
          end
    | _ => s
    end.

(** The body of [for root, dirs, files in os.walk(...)]. *)
Definition local_visit (rootp : path) (dirs files : list string)
  (s : entries * run_state) : entries * run_state :=
  fold_left (local_dir_step rootp) dirs
    (fold_left (local_file_step rootp) files s).

(** [local_cleanup_folder], [target] being what [folder] names on the
    file system, if anything.  Returns what is there afterwards, and
    the state holding the two counters returned and the trace. *)
Definition local_cleanup_folder (folder : path) (target : option node)
  : option node * run_state :=
  match target with
  | None => (None, warn ("Local folder missing: " ++ path_str folder) start)
  | Some (File l) =>
      (Some (File l), warn ("Not a directory: " ++ path_str folder) start)
  | Some n =>
      let '(n', st) := os_walk local_visit folder n start in
      (Some n', st)
  end.
End LocalCleanup.

(* --------------------------------------------------------------------- *)
(** ** [FTPClient] and [ftp_cleanup_folder]                                *)
(* --------------------------------------------------------------------- *)

(** [FTPClient.list_dir] on a directory of the server: the names and
    kinds of its entries, as MLSD or, failing that, NLST with a [cwd]
    probe per name report them; it raises when the server refuses to
    enter what the path names. *)
Definition listing (es : entries) : list (string * bool) :=
  map (fun e => (fst e, is_dir (snd e))) es.

Definition list_dir (n : node) : exn + list (string * bool) :=
  match n with
  | Dir true _ es => inr (listing es)
  | _ => inl error_perm
  end.

(** [FTPClient.delete_file] on [name] in the directory holding [es]. *)
Definition delete_file (name : string) (es : entries) : exn + entries :=
  match find_entry name es with
  | Some (File false) => inr (remove_entry name es)
  | _ => inl error_perm
  end.

(** [FTPClient.remove_dir] on the directory [n]: the server removes an
    empty directory that is not locked. *)
Definition remove_dir (n : node) : option exn :=
  match n with
  | Dir _ false [] => None
  | _ => Some error_perm
  end.

(** [rdir.rstrip("/") + "/" + name] *)
Definition child_path (rdir name : string) : string :=
  rstrip_slash rdir ++ "/" ++ name.

Section FtpCleanup.
Variable os : platform.
Variables exclude_files exclude_folders : list string.
Variable dry_run : bool.

(** One turn of the second loop of [walk_dir], which deletes files. *)
Definition ftp_file_step (rdir : string) (s : entries * run_state)
  (item : string * bool) : entries * run_state :=
  let '(es, st) := s in
  let '(name, isdir) := item in
  if isdir then s
  else if matches_any os name exclude_files then s
  else
    let p := child_path rdir name in
    if dry_run then
      (es, count_file (info ("[DRY] delete remote file: " ++ p) st))
    else
      match delete_file name es with
      | inr es' =>
          (es', count_file (info ("Deleted remote file: " ++ p)
                              (emit (DELE p None) st)))
      | inl e =>
          (es, warn ("Failed delete remote file: " ++ p ++ " :: "
                     ++ exn_text e)
                 (emit (DELE p (Some e)) st))
      end.

(** The end of [walk_dir]: the directory is listed again and removed
    when the listing is empty; an exception is dropped.  Returns
    [None] when the directory is gone. *)
Definition ftp_remove_if_empty (rdir : string) (n : node) (st : run_state)
  : option node * run_state :=
  match list_dir n with
  | inl e => (Some n, emit (LIST rdir (inl e)) st)
  | inr items2 =>
      let st := emit (LIST rdir (inr items2)) st in
      match items2 with
      | _ :: _ => (Some n, st)
      | [] =>
          if dry_run then
            (Some n,
             count_dir (info ("[DRY] remove remote empty dir: " ++ rdir) st))
          else
            match remove_dir n with
            | None =>
                (None, count_dir (info ("Removed remote empty dir: " ++ rdir)
                                    (emit (RMD rdir None) st)))
            | Some e => (Some n, emit (RMD rdir (Some e)) st)
            end
      end
  end.

(** [walk_dir(rdir)], [n] being what the server holds at [rdir] and
    [remote_folder] the normalised folder of the job.  The first loop
    runs over the entries listed, and walks the directories whose name
    matches no exclude-folder pattern. *)
Fixpoint walk_dir (remote_folder rdir : string) (n : node)
  (st : run_state) {struct n} : option node * run_state :=
  match n with
  | Dir true l es =>
      let st := emit (LIST rdir (inr (listing es))) st in
      let '(es1, st1) :=
        (fix recurse (es : entries) (st : run_state) {struct es}
           : entries * run_state :=
           match es with
           | [] => ([], st)
           | (name, c) :: rest =>
               let '(c', st') :=
                 if is_dir c then
                   if matches_any os name exclude_folders then (Some c, st)
                   else walk_dir remote_folder (child_path rdir name) c st
                 else (Some c, st) in
               let '(rest', st'') := recurse rest st' in
               (match c' with
                | Some c'' => (name, c'') :: rest'
                | None => rest'
                end, st'')
           end) es st in
      let '(es2, st2) :=
        fold_left (ftp_file_step rdir) (listing es) (es1, st1) in
      if String.eqb rdir remote_folder then (Some (Dir true l es2), st2)
      else ftp_remove_if_empty rdir (Dir true l es2) st2
  | _ =>
      (Some n, warn ("FTP list failed: " ++ rdir ++ " :: "
                     ++ exn_text error_perm)
                 (emit (LIST rdir (inl error_perm)) st))
  end.

(** The normalisation at the head of [ftp_cleanup_folder]. *)
Definition normal_folder (remote_folder : string) : string :=
  let remote_folder := rstrip_slash (norm_remote remote_folder) in
  if starts_with_slash remote_folder then remote_folder
  else "/" ++ remote_folder.

(** [ftp_cleanup_folder], [target] being what the server holds at the
    folder, if anything. *)
Definition ftp_cleanup_folder (remote_folder : string)
  (target : option node) : option node * run_state :=
  let remote_folder := normal_folder remote_folder in
  match target with
  | Some n => walk_dir remote_folder remote_folder n start
  | None =>
      (None, warn ("FTP list failed: " ++ remote_folder ++ " :: "
                   ++ exn_text error_perm)
               (emit (LIST remote_folder (inl error_perm)) start))
  end.
End FtpCleanup.

(** The first loop of [walk_dir], on its own. *)
Fixpoint walk_children (os : platform)
  (exclude_files exclude_folders : list string) (dry_run : bool)
  (remote_folder rdir : string) (es : entries) (st : run_state)
  : entries * run_state :=
  match es with
  | [] => ([], st)
  | (name, c) :: rest =>
      let '(c', st') :=
        if is_dir c then
          if matches_any os name exclude_folders then (Some c, st)
          else walk_dir os exclude_files exclude_folders dry_run
                 remote_folder (child_path rdir name) c st
        else (Some c, st) in
      let '(rest', st'') :=
        walk_children os exclude_files exclude_folders dry_run
          remote_folder rdir rest st' in
      (match c' with
       | Some c'' => (name, c'') :: rest'
       | None => rest'
       end, st'')
  end.

(** The two counters a run returns. *)
Definition counters (r : option node * run_state) : nat * nat :=
  (deleted_files (snd r), deleted_dirs (snd r)).

(* --------------------------------------------------------------------- *)
(** ** The clock                                                           *)
(* --------------------------------------------------------------------- *)

(** [datetime.datetime], with the two methods [_run_due_jobs] calls. *)
Module datetime.
Record t := make {
  year : Z; month : Z; day : Z; hour : Z; minute : Z; second : Z
}.

Definition is_leap (y : Z) : bool :=
  ((y mod 4 =? 0) && (negb (y mod 100 =? 0) || (y mod 400 =? 0)))%Z.

Definition days_before_year (y : Z) : Z :=
  let y := (y - 1)%Z in (y * 365 + y / 4 - y / 100 + y / 400)%Z.

Definition days_before_month (y m : Z) : Z :=
  (nth (Z.to_nat (m - 1)) [0; 31; 59; 90; 120; 151; 181; 212; 243; 273; 304; 334] 0
   + if (2 <? m) && is_leap y then 1 else 0)%Z.

Definition toordinal (d : t) : Z :=
  (days_before_year (year d) + days_before_month (year d) (month d)
   + day d)%Z.

(** [weekday()]: Monday is 0. *)
Definition weekday (d : t) : Z := ((toordinal d + 6) mod 7)%Z.

Definition digit (n : Z) : ascii :=
  ascii_of_nat (48 + Z.to_nat (n mod 10)).

Definition pad2 (n : Z) : string :=
  String (digit (n / 10)) (String (digit n) "").

Definition pad4 (n : Z) : string :=
  String (digit (n / 1000)) (String (digit (n / 100)) (pad2 n)).

(** [strftime("%Y%m%d_%H%M")] *)
Definition minute_stamp (d : t) : string :=
  pad4 (year d) ++ pad2 (month d) ++ pad2 (day d) ++ "_"
  ++ pad2 (hour d) ++ pad2 (minute d).
End datetime.

(* --------------------------------------------------------------------- *)
(** ** Jobs and the scheduler                                              *)
(* --------------------------------------------------------------------- *)

Module Job.
Record t := make {
  name : string;
  enabled : bool;
  mode : string;
  local_folders : list string;
  ftp_target : string;
  ftp_folders : list string;
  exclude_files : list string;
  exclude_folders : list string;
  schedule_enabled : bool;
  days : list Z;
  hour : Z;
  minute : Z;
  last_run_key : string;
  dry_run : bool
}.

(** [j.last_run_key = key] *)
Definition set_last_run_key (key : string) (j : t) : t :=
  make (name j) (enabled j) (mode j) (local_folders j) (ftp_target j)
    (ftp_folders j) (exclude_files j) (exclude_folders j)
    (schedule_enabled j) (days j) (hour j) (minute j) key (dry_run j).
End Job.

(** [x in days] *)
Definition mem_day (x : Z) (days : list Z) : bool := existsb (Z.eqb x) days.

(** The scheduler of [App].  What a job run does is left open: [run_job]
    acts on the world outside the job list (folders, servers, log file)
    and either returns or raises the exception whose text it gives.
    [log] and [save_state] write to that world as well. *)
Section Scheduler.
Variable World : Type.
Variable run_job : Job.t -> World -> World * option string.
Variable log : level -> string -> World -> World.
Variable save_state : list Job.t -> World -> World.

Record App := mk_app {
  jobs : list Job.t;
  running : bool;
  world : World
}.

(** The state of the loop of [_run_due_jobs] once it is left: the jobs,
    the world, the positions in [self.jobs] of the jobs handed to
    [run_job], the flag [changed], and the exception that left the
    loop, if one did. *)
Record due_result := mk_due {
  jobs_after : list Job.t;
  world_after : World;
  fired : list nat;
  changed : bool;
  raised : option string
}.

Definition keep (j : Job.t) (r : due_result) : due_result :=
  mk_due (j :: jobs_after r) (world_after r) (fired r) (changed r)
    (raised r).

(** [for j in self.jobs: ...], [i] being the position of the head of
    [js] in [self.jobs]. *)
Fixpoint due_loop (now : datetime.t) (i : nat) (js : list Job.t)
  (w : World) (chg : bool) : due_result :=
  let key := datetime.minute_stamp now in
  let dow := datetime.weekday now in
  match js with
  | [] => mk_due [] w [] chg None
  | j :: rest =>
      if negb (Job.enabled j) || negb (Job.schedule_enabled j) then
        keep j (due_loop now (S i) rest w chg)
      else if negb (mem_day dow (Job.days j)) then
        keep j (due_loop now (S i) rest w chg)
      else if negb (datetime.hour now =? Job.hour j)%Z
              || negb (datetime.minute now =? Job.minute j)%Z then
        keep j (due_loop now (S i) rest w chg)
      else if String.eqb (Job.last_run_key j) key then
        keep j (due_loop now (S i) rest w chg)
      else
        let w := log INFO ("Due job: " ++ Job.name j ++ " at " ++ key) w in
        (* try: self.run_job(j)  finally: j.last_run_key = key *)
        let '(w, r) := run_job j w in
        let j := Job.set_last_run_key key j in
        match r with
        | Some e => mk_due (j :: rest) w [i] true (Some e)
        | None =>
            let res := due_loop now (S i) rest w true in
            mk_due (j :: jobs_after res) (world_after res)
              (i :: fired res) (changed res) (raised res)
        end
  end.

(** [_run_due_jobs] at clock reading [now]; [save_state] is reached
    only when the loop ends without an exception. *)
Definition run_due_jobs (now : datetime.t) (app : App) : due_result :=
  let res := due_loop now 0 (jobs app) (world app) false in
  match raised res with
  | Some _ => res
  | None =>
      if changed res then
        mk_due (jobs_after res)
          (save_state (jobs_after res) (world_after res))
          (fired res) (changed res) None
      else res
  end.

(** [_tick] at clock reading [now]: the application afterwards and the
    positions of the jobs fired. *)
Definition tick (now : datetime.t) (app : App) : App * list nat :=
  if running app then
    let res := run_due_jobs now app in
    let w := match raised res with
             | Some e => log ERROR ("Scheduler tick error: " ++ e)
                           (world_after res)
             | None => world_after res
             end in
    (mk_app (jobs_after res) true w, fired res)
  else (app, []).

(** A sequence of ticks, with the positions fired at each. *)
Fixpoint ticks (nows : list datetime.t) (app : App)
  : App * list (list nat) :=
  match nows with
  | [] => (app, [])
  | now :: later =>
      let '(app1, f) := tick now app in
      let '(app2, fs) := ticks later app1 in
      (app2, f :: fs)
  end.
End Scheduler.

Arguments mk_app {World} jobs running world.
Arguments jobs {World} a.
Arguments running {World} a.
Arguments world {World} a.
Arguments mk_due {World} jobs_after world_after fired changed raised.
Arguments jobs_after {World} d.
Arguments world_after {World} d.
Arguments fired {World} d.
Arguments changed {World} d.
Arguments raised {World} d.
Arguments keep {World} j r.
Arguments due_loop {World} run_job log now i js w chg.
Arguments run_due_jobs {World} run_job log save_state now app.
Arguments tick {World} run_job log save_state now app.
Arguments ticks {World} run_job log save_state nows app.

(** The four tests of the loop of [_run_due_jobs] that end in
    [continue], taken together: true when none of them skips the job. *)
Definition passes_tests (now : datetime.t) (j : Job.t) : bool :=
  Job.enabled j && Job.schedule_enabled j
  && mem_day (datetime.weekday now) (Job.days j)
  && (datetime.hour now =? Job.hour j)%Z
  && (datetime.minute now =? Job.minute j)%Z
  && negb (String.eqb (Job.last_run_key j) (datetime.minute_stamp now)).

(** The condition under which the loop of [_run_due_jobs] hands a job it
    reaches to [run_job]. *)
Definition is_due (now : datetime.t) (j : Job.t) : Prop :=
  Job.enabled j = true /\ Job.schedule_enabled j = true
  /\ In (datetime.weekday now) (Job.days j)
  /\ datetime.hour now = Job.hour j
  /\ datetime.minute now = Job.minute j
  /\ Job.last_run_key j <> datetime.minute_stamp now.

(** The condition as the specification words it, an empty list of days
    standing for the seven days. *)
Definition all_days : list Z := [0; 1; 2; 3; 4; 5; 6]%Z.

Definition normalized_days (days : list Z) : list Z :=
  match days with
  | [] => all_days
  | _ => days
  end.

Definition spec_due (now : datetime.t) (j : Job.t) : Prop :=
  Job.enabled j = true /\ Job.schedule_enabled j = true
  /\ In (datetime.weekday now) (normalized_days (Job.days j))
  /\ datetime.hour now = Job.hour j
  /\ datetime.minute now = Job.minute j
  /\ Job.last_run_key j <> datetime.minute_stamp now.

(** Two clock readings of one calendar minute. *)
Definition same_minute (a b : datetime.t) : Prop :=
  datetime.year a = datetime.year b /\ datetime.month a = datetime.month b
  /\ datetime.day a = datetime.day b /\ datetime.hour a = datetime.hour b
  /\ datetime.minute a = datetime.minute b.

(* --------------------------------------------------------------------- *)
(** ** Vocabulary of the statements                                        *)
(* --------------------------------------------------------------------- *)

(** The calls that change the tree. *)
Definition is_mutation (e : event) : bool :=
  match e with
  | Unlink _ _ | Rmdir _ _ | DELE _ _ | RMD _ _ => true
  | _ => false
  end.

(** A trace without any such call. *)
Definition quiet (tr : list event) : Prop :=
  Forall (fun e => is_mutation e = false) tr.




(** A removal of a directory that raised, and one that went through. *)
Definition failed_removal (e : event) : bool :=
  match e with
  | Rmdir _ (Some _) | RMD _ (Some _) => true
  | _ => false
  end.




(** [chained R None tr]: every event of [tr] stands in [R] with the event
    just before it ([None] before the first). *)
Fixpoint chained (R : option event -> event -> Prop) (prev : option event)
  (tr : list event) : Prop :=
  match tr with
  | [] => True
  | e :: r => R prev e /\ chained R (Some e) r
  end.

Definition last_event (tr : list event) : option event :=
  last (map Some tr) None.

(** A removal call comes right after the check that found the directory
    empty: [any(dp.iterdir())] false, or an empty listing. *)
Definition after_empty_check (prev : option event) (e : event) : Prop :=
  match e with
  | Rmdir p _ => prev = Some (Iterdir p (inr false))
  | RMD p _ => prev = Some (LIST p (inr []))
  | _ => True
  end.


(** The paths handed to [Path.rmdir] are longer than the folder of the
    job, and those handed to [remove_dir] differ from it. *)
Definition rmdir_below (folder : path) (e : event) : Prop :=
  match e with
  | Rmdir p _ => List.length folder < List.length p
  | _ => True
  end.

Definition rmd_not (root : string) (e : event) : Prop :=
  match e with
  | RMD p _ => p <> root
  | _ => True
  end.



(** The path [walk_dir] builds for the names [rel] below [rdir]. *)
Definition remote_path (rdir : string) (rel : list string) : string :=
  fold_left child_path rel rdir.








(** A name as a listing of a directory gives it: not empty and without a
    slash. *)
Definition clean_name (name : string) : bool :=
  negb (String.eqb name "")
  && forallb (fun c => negb (is_slash c)) (chars name).

Fixpoint clean_names (n : node) : bool :=
  match n with
  | File _ => true
  | Dir _ _ es =>
      (fix all (es : entries) : bool :=
         match es with
         | [] => true
         | (nm, c) :: rest => clean_name nm && clean_names c && all rest
         end) es
  end.

(** [strictly_under d q]: the path [q] lies below the directory [d]. *)
Definition strictly_under (d q : string) : Prop :=
  exists rest, q = (d ++ "/" ++ rest)%string.

(** The path a call on the FTP client is issued on. *)
Definition call_path (e : event) : option string :=
  match e with
  | LIST p _ | DELE p _ | RMD p _ => Some p
  | _ => None
  end.

(** The directories [walk_dir] enters from [root]: those reached through
    names that match no exclude-folder pattern. *)
Definition walked (os : platform) (exclude_folders : list string)
  (root q : string) : Prop :=
  exists names,
    Forall (fun nm => clean_name nm = true
                      /\ matches_any os nm exclude_folders = false) names
    /\ q = remote_path root names.

(** Where the calls of a remote run are issued: listings and removals on
    directories entered, deletions on their entries. *)
Definition remote_event_ok (os : platform) (exclude_folders : list string)
  (root : string) (e : event) : Prop :=
  match e with
  | LIST q r =>
      walked os exclude_folders root q
      /\ match r with
         | inr items => Forall (fun it => clean_name (fst it) = true) items
         | inl _ => True
         end
  | RMD q _ => walked os exclude_folders root q
  | DELE q _ =>
      exists d f, walked os exclude_folders root d /\ clean_name f = true
                  /\ q = child_path d f
  | _ => True
  end.

(** The text [/n1/n2/.../nk] of a list of names. *)
Fixpoint flat (names : list string) : list ascii :=
  match names with
  | [] => []
  | n :: rest => "/"%char :: chars n ++ flat rest
  end.
Definition slash_free (l : list ascii) : Prop :=
  Forall (fun c => is_slash c = false) l.

(** Empty, or beginning with a slash. *)
Definition head_slash (l : list ascii) : Prop :=
  l = [] \/ exists t, l = "/"%char :: t.

Fixpoint nodupb (l : list string) : bool :=
  match l with
  | [] => true
  | x :: r => negb (existsb (String.eqb x) r) && nodupb r
  end.

(** A tree in which no call can fail for want of permission and a name
    stands for one entry: nothing is locked, and the names of a directory
    are distinct. *)
Fixpoint tidy (n : node) : bool :=
  match n with
  | File lk => negb lk
  | Dir _ lk es =>
      negb lk && nodupb (map fst es)
      && (fix all (es : entries) : bool :=
            match es with
            | [] => true
            | (_, c) :: rest => tidy c && all rest
            end) es
  end.

(** [kept c c']: [c'] is what a walk leaves of [c], a file as it was, a
    directory with its flags, and empty if it was empty. *)
Definition kept (c c' : node) : Prop :=
  match c with
  | File lk => c' = File lk
  | Dir r l es => exists es', c' = Dir r l es' /\ (es = [] -> es' = [])
  end.


(* --------------------------------------------------------------------- *)
(** ** Vocabulary of the further statements                                *)
(* --------------------------------------------------------------------- *)

(** The characters [fnmatch.translate] reads as more than themselves. *)
Definition is_meta (c : ascii) : bool :=
  Ascii.eqb c "*" || Ascii.eqb c "?" || Ascii.eqb c "[".

(** A text without any of them. *)
Definition plain (l : list ascii) : Prop :=
  Forall (fun c => is_meta c = false) l.

(** [s.split(sep)] for a separator of one character. *)
Fixpoint split_on (sep : ascii) (l : list ascii) : list (list ascii) :=
  match l with
  | [] => [[]]
  | c :: r =>
      if Ascii.eqb c sep then [] :: split_on sep r
      else match split_on sep r with
           | h :: t => (c :: h) :: t
           | [] => [[c]]
           end
  end.

(** [parse_csv]: [[x.strip() for x in (s or "").split(",") if x.strip()]] *)
Definition parse_csv (s : string) : list string :=
  filter (fun x => negb (String.eqb x ""))
    (map (fun x => strip (str x)) (split_on "," (chars s))).

(** [",".join(items)], as [on_job_select] fills the two exclusion fields. *)
Definition join_csv (items : list string) : string :=
  String.concat "," items.

(** An item as [parse_csv] yields them: not empty, without white space at
    either end, without a comma. *)
Definition csv_item (x : string) : Prop :=
  x <> "" /\ strip x = x /\ ~ In ","%char (chars x).


(** [entry_at n rel fn c]: the directory reached from [n] through the
    names [rel] holds the entry [c] under the name [fn]. *)
Inductive entry_at : node -> list string -> string -> node -> Prop :=
| ea_here r l es fn c :
    In (fn, c) es -> entry_at (Dir r l es) [] fn c
| ea_below r l es nm d rel fn c :
    In (nm, d) es -> entry_at d rel fn c ->
    entry_at (Dir r l es) (nm :: rel) fn c.

(** An entry the deletion of files leaves alone: a directory, a file
    whose name matches an exclude-file pattern, or a locked file. *)
Definition spared (os : platform) (exclude_files : list string)
  (e : string * node) : Prop :=
  is_dir (snd e) = true \/ matches_any os (fst e) exclude_files = true
  \/ snd e = File true.

(** A directory that holds something. *)
Definition occupied (n : node) : Prop :=
  match n with
  | Dir _ _ (_ :: _) => True
  | _ => False
  end.

(** The ranges in which Python keeps the fields of a [datetime]. *)
Definition in_range (d : datetime.t) : Prop :=
  (1 <= datetime.year d <= 9999 /\ 1 <= datetime.month d <= 12
   /\ 1 <= datetime.day d <= 31 /\ 0 <= datetime.hour d <= 23
   /\ 0 <= datetime.minute d <= 59)%Z.

(** The jobs [js], the first of them at position [i], with [key] as the
    [last_run_key] of those whose position is in [fired_at]. *)
Fixpoint stamp_at (key : string) (fired_at : list nat) (i : nat)
  (js : list Job.t) : list Job.t :=
  match js with
  | [] => []
  | j :: rest =>
      (if existsb (Nat.eqb i) fired_at then Job.set_last_run_key key j
       else j) :: stamp_at key fired_at (S i) rest
  end.

(** The fallback of [FTPClient.list_dir] on the lines NLST answers with:
    [bn = n.rstrip("/").split("/")[-1]], the lines whose base name is
    [.], [..] or empty being skipped. *)
Definition nlst_base (n : string) : string :=
  str (last (split_on "/" (rstrip_by is_slash (chars n))) []).

Definition nlst_skipped (bn : string) : bool :=
  existsb (String.eqb bn) ["."; ".."; ""].

Definition nlst_names (names : list string) : list string :=
  filter (fun bn => negb (nlst_skipped bn)) (map nlst_base names).

(** [on_job_select]: [for i in range(7): self.vj_days[i].set(i in j.days)] *)
Definition day_boxes (days : list Z) (i : Z) : bool := mem_day i days.

(** [job_save]:
    [[i for i in range(7) if bool(self.vj_days[i].get())] or [0,1,2,3,4,5,6]] *)
Definition days_from_boxes (boxes : Z -> bool) : list Z :=
  match filter boxes all_days with
  | [] => all_days
  | picked => picked
  end.

(** A directory that can be listed and holds nothing. *)
Definition empty_dir (n : node) : bool :=
  match n with
  | Dir true _ [] => true
  | _ => false
  end.

(** Nothing is left in [n] for [local_cleanup_folder] to delete or
    remove: in the directories the walk enters, every file has a name
    matching an exclude-file pattern and every empty directory a name
    matching an exclude-folder pattern. *)
Fixpoint settled (os : platform) (exclude_files exclude_folders : list string)
  (n : node) : bool :=
  match n with
  | Dir true _ es =>
      (fix all (es : entries) : bool :=
         match es with
         | [] => true
         | (nm, c) :: rest =>
             (if is_dir c then
                settled os exclude_files exclude_folders c
                && (negb (empty_dir c) || matches_any os nm exclude_folders)
              else matches_any os nm exclude_files)
             && all rest
         end) es
  | _ => true
  end.

Definition settled_entry (os : platform)
  (exclude_files exclude_folders : list string) (e : string * node) : bool :=
  if is_dir (snd e) then
    settled os exclude_files exclude_folders (snd e)
    && (negb (empty_dir (snd e)) || matches_any os (fst e) exclude_folders)
  else matches_any os (fst e) exclude_files.



(* --------------------------------------------------------------------- *)
(** ** Sample data                                                         *)
(* --------------------------------------------------------------------- *)

(** Tuesday 3 November 2026, 03:00:12 and 03:00:27. *)
Definition tuesday_3am : datetime.t := datetime.make 2026 11 3 3 0 12.
Definition tuesday_3am_later : datetime.t := datetime.make 2026 11 3 3 0 27.

(** A job scheduled on Tuesdays at 03:00, and the same job with the
    empty list of days a hand-edited configuration file can hold
    ([load_state] keeps the list it reads). *)
Definition tuesday_job : Job.t :=
  Job.make "Logs" true "local" ["C:/logs"] "" [] ["*.json"] ["config"]
    true [1%Z] 3 0 "" true.
Definition no_day_job : Job.t :=
  Job.make "Logs" true "local" ["C:/logs"] "" [] ["*.json"] ["config"]
    true [] 3 0 "" true.

(** A world that only records the names of the jobs run; every run
    returns. *)
Definition names_run_job (j : Job.t) (w : list string)
  : list string * option string := (w ++ [Job.name j], None).
Definition names_log (lv : level) (msg : string) (w : list string)
  : list string := w.
Definition names_save_state (js : list Job.t) (w : list string)
  : list string := w.

Definition tuesday_app : App (list string) := mk_app [tuesday_job] true [].
Definition no_day_app : App (list string) := mk_app [no_day_job] true [].

(** A job on an FTP target that is not configured any more, whose run
    [run_job] ends by raising; it stands before the Tuesday job. *)
Definition dangling_job : Job.t :=
  Job.make "Remote" true "ftp" [] "gone" ["/logs"] ["*.json"] ["config"]
    true [1%Z] 3 0 "" true.

Definition raising_run_job (j : Job.t) (w : list string)
  : list string * option string :=
  (w ++ [Job.name j],
   if String.eqb (Job.mode j) "ftp"
   then Some ("FTP target not found: " ++ Job.ftp_target j)%string
   else None).

Definition dangling_app : App (list string) :=
  mk_app [dangling_job; tuesday_job] true [].



(** A folder whose directory [config] matches an exclude-folder pattern
    and holds a log file. *)
Definition config_tree : node :=
  Dir true false
    [("config", Dir true false [("x.log", File false); ("k.json", File false)]);
     ("b.log", File false)].


(** The Tuesday after, 03:00:05, and the Wednesday between, 03:00:00. *)
Definition next_tuesday_3am : datetime.t := datetime.make 2026 11 10 3 0 5.
Definition wednesday_3am : datetime.t := datetime.make 2026 11 4 3 0 0.

(* ===================================================================== *)
(** * Part II: theorems                                                   *)
(* ===================================================================== *)

(* --------------------------------------------------------------------- *)
(** ** Trees                                                               *)
(* --------------------------------------------------------------------- *)

(** Induction on a tree, with the hypothesis on every entry of a
    directory. *)
Lemma node_induction (P : node -> Prop) :
  (forall l, P (File l)) ->
  (forall r l es, Forall (fun e => P (snd e)) es -> P (Dir r l es)) ->
  forall n, P n.
Proof.
  intros HF HD. fix IH 1. intros [l|r l es].
  - apply HF.
  - apply HD. induction es as [|[nm c] rest IHes].
    + constructor.
    + constructor; [apply IH | apply IHes].
Qed.

Lemma os_walk_dir body top l es st :
  os_walk body top (Dir true l es) st
  = let '(es1, st1) := walk_dirs body top es st in
    let '(es2, st2) := body top (dir_names es) (file_names es) (es1, st1) in
    (Dir true l es2, st2).
Proof.
  cbn [os_walk].
  set (F := fix walk_dirs (es0 : entries) (st0 : run_state) {struct es0}
              : entries * run_state := _).
  assert (E : forall es st, F es st = walk_dirs body top es st).
  { clear. intros es. induction es as [|[nm c] rest IH]; intros st;
      [reflexivity|].
    simpl. destruct (is_dir c).
    - destruct (os_walk body (top ++ [nm]) c st) as [c' st'].
      rewrite IH. reflexivity.
    - rewrite IH. reflexivity. }
  rewrite E. reflexivity.
Qed.

Lemma walk_dir_dir os xf xd dry root rdir l es st :
  walk_dir os xf xd dry root rdir (Dir true l es) st
  = let st0 := emit (LIST rdir (inr (listing es))) st in
    let '(es1, st1) := walk_children os xf xd dry root rdir es st0 in
    let '(es2, st2) :=
      fold_left (ftp_file_step os xf dry rdir) (listing es) (es1, st1) in
    if String.eqb rdir root then (Some (Dir true l es2), st2)
    else ftp_remove_if_empty dry rdir (Dir true l es2) st2.
Proof.
  cbn [walk_dir].
  set (F := fix recurse (es0 : entries) (st0 : run_state) {struct es0}
              : entries * run_state := _).
  assert (E : forall es st,
             F es st = walk_children os xf xd dry root rdir es st).
  { clear. intros es. induction es as [|[nm c] rest IH]; intros st;
      [reflexivity|].
    simpl. destruct (is_dir c); [destruct (matches_any os nm xd)|].
    - rewrite IH. reflexivity.
    - destruct (walk_dir os xf xd dry root (child_path rdir nm) c st)
        as [c' st'].
      rewrite IH. reflexivity.
    - rewrite IH. reflexivity. }
  rewrite E. reflexivity.
Qed.

(* --------------------------------------------------------------------- *)
(** ** Pattern matching                                                    *)
(* --------------------------------------------------------------------- *)

Example matches_any_json :
  matches_any Posix "a.json" ["*.json"; "*.cfg"] = true
  /\ matches_any Posix "b.log" ["*.json"; "*.cfg"] = false
  /\ matches_any Posix "b.log" ["  "; " b.l?g "] = true
  /\ matches_any Posix "b.log" ["[a-c].log"] = true
  /\ matches_any Posix "d.log" ["[!a-c].log"] = true
  /\ matches_any Posix "b.log" ["[z-a].log"] = false
  /\ matches_any Posix "xb.log" ["b.log"] = false
  /\ matches_any Posix "B.LOG" ["*.log"] = false
  /\ matches_any Windows "B.LOG" ["*.log"] = true.
Proof. repeat split; reflexivity. Qed.

Lemma regex_match_star ts s :
  regex_match (GStar :: ts) s
  = regex_match ts s
    || match s with [] => false | _ :: s' => regex_match (GStar :: ts) s' end.
Proof. destruct s; reflexivity. Qed.

Lemma regex_match_token t ts s :
  is_star t = false ->
  regex_match (t :: ts) s
  = match s with
    | [] => false
    | c :: s' => token_accepts t c && regex_match ts s'
    end.
Proof. intros H. simpl. rewrite H. reflexivity. Qed.

Lemma token_accepts_not_star t c : token_accepts t c = true -> is_star t = false.
Proof. destruct t; simpl; congruence. Qed.

Lemma regex_match_skip ts s1 s2 :
  regex_match ts s2 = true -> regex_match (GStar :: ts) (s1 ++ s2) = true.
Proof.
  intros H. induction s1 as [|c s1 IH].
  - change ([] ++ s2) with s2. rewrite regex_match_star, H. reflexivity.
  - change ((c :: s1) ++ s2) with (c :: (s1 ++ s2)).
    rewrite regex_match_star, IH. apply orb_true_r.
Qed.

Lemma glob_matches_regex ts s : glob_matches ts s -> regex_match ts s = true.
Proof.
  induction 1 as [|ts s1 s2 _ IH|t ts c s Hc _ IH].
  - reflexivity.
  - now apply regex_match_skip.
  - rewrite regex_match_token by (eapply token_accepts_not_star; eauto).
    now rewrite Hc, IH.
Qed.

Lemma regex_glob_matches ts : forall s, regex_match ts s = true -> glob_matches ts s.
Proof.
  induction ts as [|t ts IH]; intros s H.
  - destruct s; [constructor | discriminate].
  - destruct (is_star t) eqn:Ht.
    + destruct t; try discriminate. clear Ht.
      induction s as [|c s IHs].
      * rewrite regex_match_star, orb_false_r in H.
        apply (gm_star ts [] []). now apply IH.
      * rewrite regex_match_star in H. apply orb_true_iff in H as [H|H].
        -- apply (gm_star ts [] (c :: s)). now apply IH.
        -- specialize (IHs H). inversion IHs as [|ts' s1 s2 H2 E1 E2|t' ts' c' s' Hc]; subst.
           ++ apply (gm_star ts (c :: s1) s2). assumption.
           ++ discriminate.
    + rewrite regex_match_token in H by assumption.
      destruct s as [|c s]; [discriminate|].
      apply andb_true_iff in H as [Hc H]. constructor; auto.
Qed.

Lemma regex_match_iff ts s : regex_match ts s = true <-> glob_matches ts s.
Proof. split; [apply regex_glob_matches | apply glob_matches_regex]. Qed.

Lemma str_empty_iff s : String.eqb s "" = false <-> s <> "".
Proof. apply String.eqb_neq. Qed.

(** What [matches_any] computes, whatever the platform: some pattern that
    is not empty once stripped matches the name, both being normalised
    first. *)
Lemma matches_any_spec os name patterns :
  matches_any os name patterns = true
  <-> exists pat, In pat patterns /\ strip pat <> ""
       /\ glob_matches (translate (normcase os (chars (strip pat))))
            (normcase os (chars name)).
Proof.
  induction patterns as [|p ps IH]; simpl.
  - split; [discriminate | intros (pat & [] & _)].
  - destruct (String.eqb (strip p) "") eqn:He.
    + rewrite IH. apply String.eqb_eq in He. split.
      * intros (pat & Hin & Hr). exists pat. auto.
      * intros (pat & [<-|Hin] & Hne & Hm); [congruence|]. exists pat. auto.
    + apply str_empty_iff in He.
      destruct (fnmatch os name (strip p)) eqn:Hf.
      * split; [intros _ | reflexivity]. exists p. split; [now left|].
        split; [assumption|]. apply regex_match_iff. exact Hf.
      * rewrite IH. split.
        -- intros (pat & Hin & Hr). exists pat. auto.
        -- intros (pat & [<-|Hin] & Hne & Hm).
           ++ apply regex_match_iff in Hm. unfold fnmatch, fnmatchcase in Hf.
              congruence.
           ++ exists pat. auto.
Qed.

(** C9 (as amended). [matches_any] returns true if and only if some
    pattern that is not empty after stripping matches the whole name under
    the glob semantics, the comparison being exact (case-sensitive) on a
    POSIX platform; on Windows both the name and the pattern are first
    normalised by [os.path.normcase], which lower-cases them and replaces
    slashes by backslashes, so the match ignores case there. *)
Theorem matches_any_glob :
  (forall name patterns,
      matches_any Posix name patterns = true
      <-> exists pat, In pat patterns /\ strip pat <> ""
           /\ glob_matches (translate (chars (strip pat))) (chars name))
  /\ (forall name patterns,
      matches_any Windows name patterns = true
      <-> exists pat, In pat patterns /\ strip pat <> ""
           /\ glob_matches
                (translate
                   (map lower (replace_char "/" "\" (chars (strip pat)))))
                (map lower (replace_char "/" "\" (chars name)))).
Proof.
  split; intros name patterns.
  - apply (matches_any_spec Posix name patterns).
  - apply (matches_any_spec Windows name patterns).
Qed.

(** C9 (as stated) fails on Windows: ["B.LOG"] is matched by ["*.log"],
    which no case-sensitive reading of the pattern allows. *)
Lemma matches_any_case_insensitive_on_windows :
  matches_any Windows "B.LOG" ["*.log"] = true
  /\ ~ (exists pat, In pat ["*.log"] /\ strip pat <> ""
         /\ glob_matches (translate (chars (strip pat))) (chars "B.LOG")).
Proof.
  split; [reflexivity|].
  intros (pat & [<-|[]] & _ & Hm).
  apply regex_match_iff in Hm. vm_compute in Hm. discriminate.
Qed.

(* --------------------------------------------------------------------- *)
(** ** The scheduler                                                       *)
(* --------------------------------------------------------------------- *)

Lemma mem_day_In x days : mem_day x days = true <-> In x days.
Proof.
  unfold mem_day. rewrite existsb_exists. split.
  - intros (y & Hy & E). apply Z.eqb_eq in E. now subst.
  - intros H. exists x. split; [assumption | apply Z.eqb_refl].
Qed.

Lemma passes_tests_is_due now j : passes_tests now j = true <-> is_due now j.
Proof.
  unfold passes_tests, is_due.
  rewrite !andb_true_iff, mem_day_In, !Z.eqb_eq, negb_true_iff, String.eqb_neq.
  tauto.
Qed.

Lemma same_minute_stamp a b :
  same_minute a b -> datetime.minute_stamp a = datetime.minute_stamp b.
Proof.
  intros (Hy & Hm & Hd & Hh & Hmi). unfold datetime.minute_stamp.
  now rewrite Hy, Hm, Hd, Hh, Hmi.
Qed.

Lemma same_minute_weekday a b :
  same_minute a b -> datetime.weekday a = datetime.weekday b.
Proof.
  intros (Hy & Hm & Hd & _). unfold datetime.weekday, datetime.toordinal.
  now rewrite Hy, Hm, Hd.
Qed.

Lemma same_minute_tests a b j :
  same_minute a b -> passes_tests a j = passes_tests b j.
Proof.
  intros H. unfold passes_tests.
  rewrite (same_minute_stamp a b H), (same_minute_weekday a b H).
  destruct H as (_ & _ & _ & Hh & Hmi). now rewrite Hh, Hmi.
Qed.

Section SchedulerFacts.
Variable World : Type.
Variable run_job : Job.t -> World -> World * option string.
Variable log : level -> string -> World -> World.
Variable save_state : list Job.t -> World -> World.

Let loop := due_loop run_job log.
Let run := run_due_jobs run_job log save_state.

(** The loop, one job at a time. *)
Lemma due_loop_skip now i j rest w chg :
  passes_tests now j = false ->
  loop now i (j :: rest) w chg
  = keep j (loop now (S i) rest w chg).
Proof.
  unfold passes_tests. intros H. simpl.
  destruct (Job.enabled j), (Job.schedule_enabled j); simpl in *;
    try reflexivity.
  destruct (mem_day _ _); simpl in *; try reflexivity.
  destruct (_ =? Job.hour j)%Z; simpl in *; try reflexivity.
  destruct (_ =? Job.minute j)%Z; simpl in *; try reflexivity.
  destruct (String.eqb _ _); simpl in *; [reflexivity | discriminate].
Qed.

Lemma due_loop_fire now i j rest w chg :
  passes_tests now j = true ->
  loop now i (j :: rest) w chg
  = let key := datetime.minute_stamp now in
    let w1 := log INFO ("Due job: " ++ Job.name j ++ " at " ++ key) w in
    let j' := Job.set_last_run_key key j in
    match snd (run_job j w1) with
    | Some e => mk_due (j' :: rest) (fst (run_job j w1)) [i] true (Some e)
    | None =>
        let res := loop now (S i) rest (fst (run_job j w1)) true in
        mk_due (j' :: jobs_after res) (world_after res) (i :: fired res)
          (changed res) (raised res)
    end.
Proof.
  unfold passes_tests. intros H. simpl.
  destruct (Job.enabled j), (Job.schedule_enabled j); simpl in *;
    try discriminate.
  destruct (mem_day _ _); simpl in *; try discriminate.
  destruct (_ =? Job.hour j)%Z; simpl in *; try discriminate.
  destruct (_ =? Job.minute j)%Z; simpl in *; try discriminate.
  destruct (String.eqb _ _); simpl in *; try discriminate.
  destruct (run_job j _) as [w1 [e|]]; reflexivity.
Qed.

(** Positions fired are positions of the list walked, at or after the
    one the loop starts from. *)
Lemma due_loop_fired_ge now js : forall i w chg n,
  In n (fired (loop now i js w chg)) -> i <= n.
Proof.
  induction js as [|j rest IH]; intros i w chg n Hn; [destruct Hn|].
  destruct (passes_tests now j) eqn:Hd.
  - rewrite due_loop_fire in Hn by assumption. cbv zeta in Hn.
    destruct (snd (run_job j _)); simpl in Hn.
    + destruct Hn as [<-|[]]. lia.
    + destruct Hn as [<-|Hn]; [lia|]. apply IH in Hn. lia.
  - rewrite due_loop_skip in Hn by assumption. simpl in Hn.
    apply IH in Hn. lia.
Qed.

(** A position fired holds a job that passes the tests, and holds it
    afterwards with the minute-stamp as [last_run_key]. *)
Lemma due_loop_fired_due now js : forall i w chg k,
  In (i + k) (fired (loop now i js w chg)) ->
  exists j, nth_error js k = Some j /\ passes_tests now j = true
    /\ nth_error (jobs_after (loop now i js w chg)) k
       = Some (Job.set_last_run_key (datetime.minute_stamp now) j).
Proof.
  induction js as [|j rest IH]; intros i w chg k Hn; [destruct Hn|].
  destruct (passes_tests now j) eqn:Hd.
  - rewrite due_loop_fire in * by assumption. cbv zeta in *.
    destruct (snd (run_job j _)); simpl in *.
    + destruct Hn as [E|[]]. assert (k = 0) by lia. subst k.
      exists j. auto.
    + destruct Hn as [E|Hn].
      * assert (k = 0) by lia. subst k. exists j. auto.
      * destruct k as [|k].
        -- apply due_loop_fired_ge in Hn. lia.
        -- replace (i + S k) with (S i + k) in Hn by lia.
           apply IH in Hn. exact Hn.
  - rewrite due_loop_skip in * by assumption. simpl in *.
    destruct k as [|k].
    + apply due_loop_fired_ge in Hn. lia.
    + replace (i + S k) with (S i + k) in Hn by lia.
      apply IH in Hn. exact Hn.
Qed.

(** When no run raises, every job that passes the tests is fired. *)
Lemma due_loop_due_fired now js : forall i w chg k j,
  nth_error js k = Some j -> passes_tests now j = true ->
  raised (loop now i js w chg) = None ->
  In (i + k) (fired (loop now i js w chg)).
Proof.
  induction js as [|j0 rest IH]; intros i w chg k j Hk Hj Hr;
    [destruct k; discriminate|].
  destruct (passes_tests now j0) eqn:Hd.
  - rewrite due_loop_fire in * by assumption. cbv zeta in *.
    destruct (snd (run_job j0 _)); simpl in *; [discriminate|].
    destruct k as [|k]; [left; lia|]. right.
    replace (i + S k) with (S i + k) by lia. eapply IH; eauto.
  - destruct k as [|k]; [injection Hk as ->; congruence|].
    rewrite due_loop_skip in * by assumption. simpl in Hr |- *.
    replace (i + S k) with (S i + k) by lia. eapply IH; eauto.
Qed.

(** A position is fired at most once in a tick. *)
Lemma due_loop_fired_NoDup now js : forall i w chg,
  NoDup (fired (loop now i js w chg)).
Proof.
  induction js as [|j rest IH]; intros i w chg; [constructor|].
  destruct (passes_tests now j) eqn:Hd.
  - rewrite due_loop_fire by assumption. cbv zeta.
    destruct (snd (run_job j _)); simpl.
    + constructor; [intros [] | constructor].
    + constructor; [|apply IH]. intros H. apply due_loop_fired_ge in H. lia.
  - rewrite due_loop_skip by assumption. simpl. apply IH.
Qed.

(** The loop writes [last_run_key] only, and only to the minute-stamp:
    a job that holds the stamp already is left as it is. *)
Lemma due_loop_stamped now js : forall i w chg k j,
  nth_error js k = Some j ->
  Job.last_run_key j = datetime.minute_stamp now ->
  nth_error (jobs_after (loop now i js w chg)) k = Some j.
Proof.
  induction js as [|j0 rest IH]; intros i w chg k j Hk Hj;
    [destruct k; discriminate|].
  destruct (passes_tests now j0) eqn:Hd.
  - rewrite due_loop_fire by assumption. cbv zeta.
    destruct k as [|k].
    + simpl in Hk. injection Hk as ->. unfold passes_tests in Hd.
      rewrite Hj, String.eqb_refl, andb_false_r in Hd. discriminate.
    + destruct (snd (run_job j0 _)); simpl in *; [assumption|].
      eapply IH; eauto.
  - rewrite due_loop_skip by assumption. simpl.
    destruct k as [|k]; [assumption|]. simpl in Hk. eapply IH; eauto.
Qed.

Lemma run_due_jobs_fired now app :
  fired (run now app)
  = fired (loop now 0 (jobs app) (world app) false).
Proof.
  unfold run, run_due_jobs. fold loop.
  destruct (raised _); [reflexivity|]. destruct (changed _); reflexivity.
Qed.

Lemma run_due_jobs_jobs now app :
  jobs_after (run now app)
  = jobs_after (loop now 0 (jobs app) (world app) false).
Proof.
  unfold run, run_due_jobs. fold loop.
  destruct (raised _); [reflexivity|]. destruct (changed _); reflexivity.
Qed.

Lemma run_due_jobs_raised now app :
  raised (run now app)
  = raised (loop now 0 (jobs app) (world app) false).
Proof.
  unfold run, run_due_jobs. fold loop.
  destruct (raised (loop _ _ _ _ _)) eqn:E; [assumption|].
  destruct (changed _); simpl; auto.
Qed.
End SchedulerFacts.

(** C2 (as amended). On a tick of the scheduler, a job that fires is
    enabled, has its schedule enabled, has the current weekday among its
    days as they are stored (an empty list holds no weekday), has the
    current hour and minute as its own, and does not hold the current
    minute-stamp as [last_run_key]; and when no job run of the tick raises,
    every job that meets these conditions fires. *)
Theorem run_due_jobs_fires_iff_due
  (World : Type) (run_job : Job.t -> World -> World * option string)
  (log : level -> string -> World -> World)
  (save_state : list Job.t -> World -> World)
  (now : datetime.t) (app : App World) (i : nat) (j : Job.t) :
  nth_error (jobs app) i = Some j ->
  (In i (fired (run_due_jobs run_job log save_state now app)) -> is_due now j)
  /\ (raised (run_due_jobs run_job log save_state now app) = None ->
      is_due now j ->
      In i (fired (run_due_jobs run_job log save_state now app))).
Proof.
  intros Hi. rewrite run_due_jobs_fired, run_due_jobs_raised. split.
  - intros H. change i with (0 + i) in H.
    apply due_loop_fired_due in H as (j' & Hj' & Hd & _).
    apply passes_tests_is_due. congruence.
  - intros Hr Hd. apply passes_tests_is_due in Hd.
    change i with (0 + i). eapply due_loop_due_fired; eauto.
Qed.

Lemma run_due_jobs_fires_iff_due_witness :
  nth_error (jobs tuesday_app) 0 = Some tuesday_job
  /\ In 0 (fired (run_due_jobs names_run_job names_log names_save_state
                    tuesday_3am tuesday_app)).
Proof.
  split; [reflexivity|].
  apply (run_due_jobs_fires_iff_due _ names_run_job names_log names_save_state
           tuesday_3am tuesday_app 0 tuesday_job).
  - reflexivity.
  - reflexivity.
  - apply passes_tests_is_due. reflexivity.
Defined.

(** C2 (as stated) fails: a job whose stored list of days is empty meets
    the condition of the specification, with the empty list read as the
    seven days, and does not fire; and a job that meets the condition
    does not fire on a tick in which the run of a job before it raises,
    the exception leaving the loop. *)
Lemma empty_days_never_fires :
  (spec_due tuesday_3am no_day_job
   /\ nth_error (jobs no_day_app) 0 = Some no_day_job
   /\ ~ In 0 (fired (run_due_jobs names_run_job names_log names_save_state
                       tuesday_3am no_day_app)))
  /\ (spec_due tuesday_3am tuesday_job
      /\ nth_error (jobs dangling_app) 1 = Some tuesday_job
      /\ ~ In 1 (fired (run_due_jobs raising_run_job names_log
                          names_save_state tuesday_3am dangling_app))).
Proof.
  split; (split; [|split]).
  - unfold spec_due. simpl. repeat split; try reflexivity.
    + vm_compute. tauto.
    + discriminate.
  - reflexivity.
  - vm_compute. tauto.
  - unfold spec_due. simpl. repeat split; try reflexivity.
    + vm_compute. tauto.
    + discriminate.
  - reflexivity.
  - vm_compute. intros [H|[]]. discriminate.
Qed.

Section TicksFacts.
Variable World : Type.
Variable run_job : Job.t -> World -> World * option string.
Variable log : level -> string -> World -> World.
Variable save_state : list Job.t -> World -> World.

Let tk := tick run_job log save_state.
Let tks := ticks run_job log save_state.

Lemma tick_fired now app i :
  In i (snd (tk now app)) ->
  exists j, nth_error (jobs app) i = Some j /\ passes_tests now j = true
    /\ nth_error (jobs (fst (tk now app))) i
       = Some (Job.set_last_run_key (datetime.minute_stamp now) j).
Proof.
  unfold tk, tick. destruct (running app); simpl; [|tauto].
  rewrite run_due_jobs_fired, run_due_jobs_jobs. intros H.
  change i with (0 + i) in H. apply due_loop_fired_due in H. exact H.
Qed.

Lemma tick_stamped now app i j :
  nth_error (jobs app) i = Some j ->
  Job.last_run_key j = datetime.minute_stamp now ->
  nth_error (jobs (fst (tk now app))) i = Some j.
Proof.
  unfold tk, tick. destruct (running app); simpl; [|tauto].
  rewrite run_due_jobs_jobs. apply due_loop_stamped.
Qed.

Lemma tick_NoDup now app : NoDup (snd (tk now app)).
Proof.
  unfold tk, tick. destruct (running app); simpl.
  - rewrite run_due_jobs_fired. apply due_loop_fired_NoDup.
  - constructor.
Qed.

Lemma ticks_cons now later app :
  tks (now :: later) app
  = (fst (tks later (fst (tk now app))),
     snd (tk now app) :: snd (tks later (fst (tk now app)))).
Proof.
  unfold tks, tk. simpl.
  destruct (tick _ _ _ now app) as [app1 f]. simpl.
  destruct (ticks _ _ _ later app1) as [app2 fs]. reflexivity.
Qed.

(** A job that holds the stamp of the minute does not fire again in
    that minute. *)
Lemma ticks_stamped_quiet now nows : forall app i j,
  Forall (same_minute now) nows ->
  nth_error (jobs app) i = Some j ->
  Job.last_run_key j = datetime.minute_stamp now ->
  count_occ Nat.eq_dec (List.concat (snd (tks nows app))) i = 0.
Proof.
  induction nows as [|n later IH]; intros app i j Hall Hi Hk; [reflexivity|].
  inversion Hall as [|? ? Hn Hlater]; subst.
  rewrite ticks_cons. simpl. rewrite count_occ_app.
  assert (Hkn : Job.last_run_key j = datetime.minute_stamp n)
    by (rewrite Hk; now apply same_minute_stamp).
  rewrite (IH (fst (tk n app)) i j Hlater (tick_stamped n app i j Hi Hkn) Hk).
  rewrite Nat.add_0_r. apply count_occ_not_In. intros Hf.
  apply tick_fired in Hf as (j' & Hj' & Hd & _).
  assert (j' = j) by congruence. subst j'. unfold passes_tests in Hd.
  rewrite Hkn, String.eqb_refl, andb_false_r in Hd. discriminate.
Qed.

Lemma ticks_fire_once now nows : forall app i,
  Forall (same_minute now) nows ->
  count_occ Nat.eq_dec (List.concat (snd (tks nows app))) i <= 1.
Proof.
  induction nows as [|n later IH]; intros app i Hall; [simpl; lia|].
  inversion Hall as [|? ? Hn Hlater]; subst.
  rewrite ticks_cons. simpl. rewrite count_occ_app.
  destruct (in_dec Nat.eq_dec i (snd (tk n app))) as [Hf|Hf].
  - pose proof (tick_NoDup n app) as Hnd.
    rewrite (NoDup_count_occ' Nat.eq_dec) in Hnd. rewrite (Hnd i Hf).
    apply tick_fired in Hf as (j & _ & _ & Hj).
    rewrite (ticks_stamped_quiet now later _ i _ Hlater Hj); [lia|].
    simpl. symmetry. now apply same_minute_stamp.
  - apply (count_occ_not_In Nat.eq_dec) in Hf. rewrite Hf.
    apply IH. assumption.
Qed.
End TicksFacts.

(** C3. A job that fires on a tick holds the current minute-stamp as
    [last_run_key] afterwards, whether its run returned or raised; and
    over any sequence of ticks that fall in one calendar minute, a job
    fires at most once. *)
Theorem fires_at_most_once_per_minute
  (World : Type) (run_job : Job.t -> World -> World * option string)
  (log : level -> string -> World -> World)
  (save_state : list Job.t -> World -> World)
  (now : datetime.t) (nows : list datetime.t) (app : App World) :
  Forall (same_minute now) nows ->
  (forall i,
      In i (fired (run_due_jobs run_job log save_state now app)) ->
      exists j,
        nth_error (jobs_after (run_due_jobs run_job log save_state now app)) i
        = Some j
        /\ Job.last_run_key j = datetime.minute_stamp now)
  /\ (forall i,
      count_occ Nat.eq_dec
        (List.concat (snd (ticks run_job log save_state nows app))) i <= 1).
Proof.
  intros Hall. split.
  - intros i H. rewrite run_due_jobs_fired in H. rewrite run_due_jobs_jobs.
    change i with (0 + i) in H.
    apply due_loop_fired_due in H as (j & _ & _ & Hj).
    eexists. split; [exact Hj | reflexivity].
  - intros i. eapply ticks_fire_once; eauto.
Qed.

Lemma fires_at_most_once_per_minute_witness :
  Forall (same_minute tuesday_3am) [tuesday_3am; tuesday_3am_later]
  /\ count_occ Nat.eq_dec
       (List.concat (snd (ticks names_run_job names_log names_save_state
                       [tuesday_3am; tuesday_3am_later]
                       tuesday_app))) 0 <= 1.
Proof.
  assert (H : Forall (same_minute tuesday_3am) [tuesday_3am; tuesday_3am_later])
    by (repeat constructor).
  split; [exact H|].
  apply (fires_at_most_once_per_minute _ names_run_job names_log
           names_save_state tuesday_3am _ tuesday_app H).
Defined.

(* --------------------------------------------------------------------- *)
(** ** Invariants of a run                                                 *)
(* --------------------------------------------------------------------- *)

Lemma fold_left_inv {A B : Type} (f : A -> B -> A) (I : A -> Prop) (l : list B) :
  (forall a b, In b l -> I a -> I (f a b)) -> forall a, I a -> I (fold_left f l a).
Proof.
  induction l as [|b l IH]; intros Hf a Ha; simpl; [assumption|].
  apply IH.
  - intros a' b' Hb. apply Hf. now right.
  - apply Hf; [now left | assumption].
Qed.

(** An invariant of the state that the body of the loop keeps, at the
    directories [Q] holds of, is kept by the whole walk. *)
Lemma os_walk_inv body (Q : path -> Prop) (I : run_state -> Prop) :
  (forall top nm, Q top -> Q (top ++ [nm])) ->
  (forall top dirs files es st,
      Q top -> I st -> I (snd (body top dirs files (es, st)))) ->
  forall n top st, Q top -> I st -> I (snd (os_walk body top n st)).
Proof.
  intros HQ Hbody n. induction n as [l|r l es IH] using node_induction;
    intros top st Ht Hst; [exact Hst|].
  destruct r; [|exact Hst]. rewrite os_walk_dir.
  assert (Hw : forall st, I st -> I (snd (walk_dirs body top es st))).
  { clear Hst st. induction IH as [|[nm c] rest Hc _ IHrest]; intros st Hst;
      [exact Hst|].
    simpl. destruct (is_dir c).
    - specialize (Hc (top ++ [nm]) st (HQ _ _ Ht) Hst). simpl in Hc.
      revert Hc.
      destruct (os_walk body (top ++ [nm]) c st) as [c' st']. simpl.
      intros Hc. specialize (IHrest st' Hc). revert IHrest.
      destruct (walk_dirs body top rest st') as [rest' st'']. trivial.
    - specialize (IHrest st Hst). revert IHrest.
      destruct (walk_dirs body top rest st) as [rest' st'']. trivial. }
  specialize (Hw st Hst). revert Hw.
  destruct (walk_dirs body top es st) as [es1 st1]. simpl. intros Hw.
  specialize (Hbody top (dir_names es) (file_names es) es1 st1 Ht Hw).
  revert Hbody.
  destruct (body top (dir_names es) (file_names es) (es1, st1)) as [es2 st2].
  trivial.
Qed.

(** The body of the local loop keeps what its two steps keep. *)
Lemma local_visit_inv os xf xd dry (I : run_state -> Prop) top :
  (forall es st fn, I st -> I (snd (local_file_step os xf dry top (es, st) fn))) ->
  (forall es st dn, I st -> I (snd (local_dir_step os xd dry top (es, st) dn))) ->
  forall dirs files es st,
    I st -> I (snd (local_visit os xf xd dry top dirs files (es, st))).
Proof.
  intros Hf Hd dirs files es st Hst. unfold local_visit.
  apply (fold_left_inv _ (fun s => I (snd s))).
  - intros [es' st'] dn _ H. now apply Hd.
  - apply (fold_left_inv _ (fun s => I (snd s))); [|exact Hst].
    intros [es' st'] fn _ H. now apply Hf.
Qed.

(** The same for the walk of the FTP client: an invariant kept by the
    listing, the deletion step and the final removal is kept by
    [walk_dir]. *)
Lemma walk_dir_inv os xf xd dry root (Q : string -> Prop)
  (I : run_state -> Prop) :
  (forall rdir name,
      Q rdir -> matches_any os name xd = false -> Q (child_path rdir name)) ->
  (forall rdir r st, Q rdir -> I st ->
      I (emit (LIST rdir (inr r)) st)) ->
  (forall rdir msg st, Q rdir -> I st ->
      I (warn msg (emit (LIST rdir (inl error_perm)) st))) ->
  (forall rdir es st item, Q rdir -> I st ->
      I (snd (ftp_file_step os xf dry rdir (es, st) item))) ->
  (forall rdir n st, Q rdir -> rdir <> root -> I st ->
      I (snd (ftp_remove_if_empty dry rdir n st))) ->
  forall n rdir st, Q rdir -> I st ->
    I (snd (walk_dir os xf xd dry root rdir n st)).
Proof.
  intros HQ Hlist Hfail Hfile Hrm n.
  induction n as [l|r l es IH] using node_induction; intros rdir st Ht Hst.
  - simpl. now apply Hfail.
  - destruct r; [|simpl; now apply Hfail]. rewrite walk_dir_dir. cbv zeta.
    assert (Hw : forall st, I st ->
                 I (snd (walk_children os xf xd dry root rdir es st))).
    { clear Hst st. induction IH as [|[nm c] rest Hc _ IHrest]; intros st Hst;
        [exact Hst|].
      simpl. destruct (is_dir c); [destruct (matches_any os nm xd) eqn:Hx|].
      - specialize (IHrest st Hst). revert IHrest.
        destruct (walk_children os xf xd dry root rdir rest st) as [rest' st''].
        trivial.
      - specialize (Hc (child_path rdir nm) st (HQ _ _ Ht Hx) Hst).
        simpl in Hc. revert Hc.
        destruct (walk_dir os xf xd dry root (child_path rdir nm) c st)
          as [c' st'].
        simpl. intros Hc. specialize (IHrest st' Hc). revert IHrest.
        destruct (walk_children os xf xd dry root rdir rest st')
          as [rest' st''].
        trivial.
      - specialize (IHrest st Hst). revert IHrest.
        destruct (walk_children os xf xd dry root rdir rest st) as [rest' st''].
        trivial. }
    specialize (Hw _ (Hlist rdir (listing es) st Ht Hst)). revert Hw.
    destruct (walk_children os xf xd dry root rdir es _) as [es1 st1].
    simpl. intros Hw.
    assert (Hf : I (snd (fold_left (ftp_file_step os xf dry rdir) (listing es)
                           (es1, st1)))).
    { apply (fold_left_inv _ (fun s => I (snd s))); [|exact Hw].
      intros [es' st'] item _ H. now apply Hfile. }
    revert Hf. destruct (fold_left _ _ _) as [es2 st2]. simpl. intros Hf.
    destruct (String.eqb rdir root) eqn:E; [exact Hf|].
    apply Hrm; auto. now apply String.eqb_neq.
Qed.

(* --------------------------------------------------------------------- *)
(** ** Dry runs                                                            *)
(* --------------------------------------------------------------------- *)

#[local] Arguments String.append : simpl never.
#[local] Arguments os_walk : simpl never.
#[local] Arguments walk_dir : simpl never.

Lemma local_cleanup_folder_dir os xf xd dry folder r l es :
  local_cleanup_folder os xf xd dry folder (Some (Dir r l es))
  = (Some (fst (os_walk (local_visit os xf xd dry) folder (Dir r l es) start)),
     snd (os_walk (local_visit os xf xd dry) folder (Dir r l es) start)).
Proof.
  unfold local_cleanup_folder.
  destruct (os_walk _ folder (Dir r l es) start). reflexivity.
Qed.

Ltac break_match :=
  match goal with
  | |- context [match ?x with _ => _ end] => destruct x eqn:?
  end.

Lemma trace_emit e st : trace (emit e st) = trace st ++ [e].
Proof. reflexivity. Qed.

Lemma quiet_emit e st :
  is_mutation e = false -> quiet (trace st) -> quiet (trace (emit e st)).
Proof.
  intros He H. unfold quiet. rewrite trace_emit. apply Forall_app. split; auto.
Qed.

Ltac quiet_solve :=
  unfold quiet in *; simpl; rewrite ?Forall_app; repeat split; auto;
  repeat constructor.

Lemma local_file_step_dry os xf top es st fn :
  fst (local_file_step os xf true top (es, st) fn) = es
  /\ (quiet (trace st) ->
      quiet (trace (snd (local_file_step os xf true top (es, st) fn)))).
Proof.
  unfold local_file_step. destruct (matches_any os fn xf); simpl; auto.
  split; [reflexivity|]. intros H. quiet_solve.
Qed.

Lemma local_dir_step_dry os xd top es st dn :
  fst (local_dir_step os xd true top (es, st) dn) = es
  /\ (quiet (trace st) ->
      quiet (trace (snd (local_dir_step os xd true top (es, st) dn)))).
Proof.
  unfold local_dir_step. repeat break_match; simpl; auto; split; auto;
    intros H; quiet_solve.
Qed.

Lemma local_visit_dry_tree os xf xd top dirs files es st :
  fst (local_visit os xf xd true top dirs files (es, st)) = es.
Proof.
  unfold local_visit.
  apply (fold_left_inv _ (fun s => fst s = es)).
  - intros [es' st'] dn _ H. simpl in H. subst es'.
    apply local_dir_step_dry.
  - apply (fold_left_inv _ (fun s => fst s = es)); [|reflexivity].
    intros [es' st'] fn _ H. simpl in H. subst es'.
    apply local_file_step_dry.
Qed.

Lemma os_walk_dry_tree os xf xd n : forall top st,
  fst (os_walk (local_visit os xf xd true) top n st) = n.
Proof.
  induction n as [l|r l es IH] using node_induction; intros top st;
    [reflexivity|].
  destruct r; [|reflexivity]. rewrite os_walk_dir.
  assert (Hw : forall st,
             fst (walk_dirs (local_visit os xf xd true) top es st) = es).
  { clear st. induction IH as [|[nm c] rest Hc _ IHrest]; intros st;
      [reflexivity|].
    simpl. destruct (is_dir c).
    - specialize (Hc (top ++ [nm]) st). simpl in Hc. revert Hc.
      destruct (os_walk _ (top ++ [nm]) c st) as [c' st']. simpl.
      intros ->. specialize (IHrest st'). revert IHrest.
      destruct (walk_dirs _ top rest st') as [rest' st'']. simpl.
      now intros ->.
    - specialize (IHrest st). revert IHrest.
      destruct (walk_dirs _ top rest st) as [rest' st'']. simpl.
      now intros ->. }
  specialize (Hw st). revert Hw.
  destruct (walk_dirs _ top es st) as [es1 st1]. simpl. intros ->.
  pose proof (local_visit_dry_tree os xf xd top (dir_names es) (file_names es)
                es st1) as Hv.
  revert Hv. destruct (local_visit _ _ _ _ _ _ _ _) as [es2 st2]. simpl.
  now intros ->.
Qed.

Lemma os_walk_dry_quiet os xf xd n top st :
  quiet (trace st) ->
  quiet (trace (snd (os_walk (local_visit os xf xd true) top n st))).
Proof.
  apply (os_walk_inv _ (fun _ => True) (fun st => quiet (trace st)));
    [trivial| |trivial].
  intros top' dirs files es st' _.
  apply (local_visit_inv os xf xd true (fun st => quiet (trace st))).
  - intros ? ? ? H. now apply (proj2 (local_file_step_dry _ _ _ _ _ _)).
  - intros ? ? ? H. now apply (proj2 (local_dir_step_dry _ _ _ _ _ _)).
Qed.

Lemma ftp_file_step_dry os xf rdir es st item :
  fst (ftp_file_step os xf true rdir (es, st) item) = es
  /\ (quiet (trace st) ->
      quiet (trace (snd (ftp_file_step os xf true rdir (es, st) item)))).
Proof.
  unfold ftp_file_step. destruct item as [name isdir].
  destruct isdir; simpl; auto. destruct (matches_any os name xf); simpl; auto.
  split; [reflexivity|]. intros H. quiet_solve.
Qed.

Lemma ftp_remove_if_empty_dry rdir n st :
  fst (ftp_remove_if_empty true rdir n st) = Some n
  /\ (quiet (trace st) ->
      quiet (trace (snd (ftp_remove_if_empty true rdir n st)))).
Proof.
  unfold ftp_remove_if_empty. repeat break_match; simpl; split; auto;
    intros H; quiet_solve.
Qed.

Lemma walk_dir_dry_tree os xf xd root n : forall rdir st,
  fst (walk_dir os xf xd true root rdir n st) = Some n.
Proof.
  induction n as [l|r l es IH] using node_induction; intros rdir st;
    [reflexivity|].
  destruct r; [|reflexivity]. rewrite walk_dir_dir. cbv zeta.
  assert (Hw : forall st,
             fst (walk_children os xf xd true root rdir es st) = es).
  { clear st. induction IH as [|[nm c] rest Hc _ IHrest]; intros st;
      [reflexivity|].
    simpl. destruct (is_dir c); [destruct (matches_any os nm xd)|].
    - specialize (IHrest st). revert IHrest.
      destruct (walk_children _ _ _ _ _ _ rest st) as [rest' st'']. simpl.
      now intros ->.
    - specialize (Hc (child_path rdir nm) st). simpl in Hc. revert Hc.
      destruct (walk_dir _ _ _ _ _ (child_path rdir nm) c st) as [c' st'].
      simpl. intros ->. specialize (IHrest st'). revert IHrest.
      destruct (walk_children _ _ _ _ _ _ rest st') as [rest' st'']. simpl.
      now intros ->.
    - specialize (IHrest st). revert IHrest.
      destruct (walk_children _ _ _ _ _ _ rest st) as [rest' st'']. simpl.
      now intros ->. }
  specialize (Hw (emit (LIST rdir (inr (listing es))) st)). revert Hw.
  destruct (walk_children _ _ _ _ _ _ es _) as [es1 st1]. simpl. intros ->.
  assert (Hf : fst (fold_left (ftp_file_step os xf true rdir) (listing es)
                      (es, st1)) = es).
  { apply (fold_left_inv _ (fun s => fst s = es)); [|reflexivity].
    intros [es' st'] item _ H. simpl in H. subst es'.
    apply ftp_file_step_dry. }
  revert Hf. destruct (fold_left _ _ _) as [es2 st2]. simpl. intros ->.
  destruct (String.eqb rdir root); [reflexivity|].
  apply ftp_remove_if_empty_dry.
Qed.

Lemma walk_dir_dry_quiet os xf xd root n rdir st :
  quiet (trace st) ->
  quiet (trace (snd (walk_dir os xf xd true root rdir n st))).
Proof.
  apply (walk_dir_inv os xf xd true root (fun _ => True)
           (fun st => quiet (trace st))); trivial.
  - intros ? ? ? _ H. quiet_solve.
  - intros ? ? ? _ H. quiet_solve.
  - intros ? ? ? ? _ H. now apply (proj2 (ftp_file_step_dry _ _ _ _ _ _)).
  - intros ? ? ? _ _ H. now apply (proj2 (ftp_remove_if_empty_dry _ _ _)).
Qed.

(** C1. A run with [dry_run] true, local or remote, issues no deletion
    of a file and no removal of a directory, and leaves the tree as it
    found it. *)
Theorem dry_run_no_mutation os exclude_files exclude_folders folder
  remote_folder target :
  (fst (local_cleanup_folder os exclude_files exclude_folders true folder
          target) = target
   /\ Forall (fun e => is_mutation e = false)
        (trace (snd (local_cleanup_folder os exclude_files exclude_folders
                       true folder target))))
  /\ (fst (ftp_cleanup_folder os exclude_files exclude_folders true
             remote_folder target) = target
      /\ Forall (fun e => is_mutation e = false)
           (trace (snd (ftp_cleanup_folder os exclude_files exclude_folders
                          true remote_folder target)))).
Proof.
  split.
  - destruct target as [[l|r l es]|].
    + split; [reflexivity | repeat constructor].
    + rewrite local_cleanup_folder_dir. simpl. split.
      * now rewrite os_walk_dry_tree.
      * apply os_walk_dry_quiet. constructor.
    + split; [reflexivity | repeat constructor].
  - unfold ftp_cleanup_folder. destruct target as [n|].
    + split; [apply walk_dir_dry_tree|].
      apply walk_dir_dry_quiet. constructor.
    + split; [reflexivity | repeat constructor].
Qed.

(* --------------------------------------------------------------------- *)
(** ** Removal of directories                                              *)
(* --------------------------------------------------------------------- *)

Lemma last_cons_default {A : Type} (x : A) l d d' :
  last (x :: l) d = last (x :: l) d'.
Proof.
  revert x. induction l as [|y l IH]; intros x; [reflexivity|].
  change (last (y :: l) d = last (y :: l) d'). apply IH.
Qed.

Lemma chained_app R tr2 : forall tr1 prev,
  chained R prev (tr1 ++ tr2)
  <-> chained R prev tr1 /\ chained R (last (map Some tr1) prev) tr2.
Proof.
  intros tr1. induction tr1 as [|e tr1 IH]; intros prev.
  - simpl. tauto.
  - change (chained R prev ((e :: tr1) ++ tr2))
      with (R prev e /\ chained R (Some e) (tr1 ++ tr2)).
    change (chained R prev (e :: tr1))
      with (R prev e /\ chained R (Some e) tr1).
    rewrite IH.
    assert (E : last (map Some (e :: tr1)) prev
                = last (map Some tr1) (Some e)).
    { destruct tr1 as [|e' tr1]; [reflexivity|].
      change (last (map Some (e' :: tr1)) prev
              = last (map Some (e' :: tr1)) (Some e)).
      apply last_cons_default. }
    rewrite E. tauto.
Qed.

Lemma last_event_snoc tr e : last_event (tr ++ [e]) = Some e.
Proof. unfold last_event. rewrite map_app. apply last_last. Qed.

Lemma chained_emit R e st :
  chained R None (trace st) -> R (last_event (trace st)) e ->
  chained R None (trace (emit e st)).
Proof.
  intros H He. rewrite trace_emit, chained_app. simpl. auto.
Qed.

Ltac chain_solve :=
  simpl; rewrite ?chained_app; simpl; rewrite ?map_app; simpl;
  rewrite ?last_last; repeat split; auto.

Lemma local_file_step_checked os xf dry top es st fn :
  chained after_empty_check None (trace st) ->
  chained after_empty_check None
    (trace (snd (local_file_step os xf dry top (es, st) fn))).
Proof.
  intros H. unfold local_file_step. repeat break_match; simpl; auto;
    unfold info, warn; chain_solve.
Qed.

Lemma local_dir_step_checked os xd dry top es st dn :
  chained after_empty_check None (trace st) ->
  chained after_empty_check None
    (trace (snd (local_dir_step os xd dry top (es, st) dn))).
Proof.
  intros H. unfold local_dir_step. repeat break_match; simpl; auto;
    unfold info, warn; chain_solve.
Qed.

Lemma os_walk_checked os xf xd dry n top st :
  chained after_empty_check None (trace st) ->
  chained after_empty_check None
    (trace (snd (os_walk (local_visit os xf xd dry) top n st))).
Proof.
  apply (os_walk_inv _ (fun _ => True)
           (fun st => chained after_empty_check None (trace st)));
    [trivial| |trivial].
  intros top' dirs files es st' _.
  apply (local_visit_inv os xf xd dry
           (fun st => chained after_empty_check None (trace st))).
  - intros. now apply local_file_step_checked.
  - intros. now apply local_dir_step_checked.
Qed.

Lemma ftp_file_step_checked os xf dry rdir es st item :
  chained after_empty_check None (trace st) ->
  chained after_empty_check None
    (trace (snd (ftp_file_step os xf dry rdir (es, st) item))).
Proof.
  intros H. unfold ftp_file_step. repeat break_match; simpl; auto;
    unfold info, warn; chain_solve.
Qed.

Lemma ftp_remove_if_empty_checked dry rdir n st :
  chained after_empty_check None (trace st) ->
  chained after_empty_check None
    (trace (snd (ftp_remove_if_empty dry rdir n st))).
Proof.
  intros H. unfold ftp_remove_if_empty. repeat break_match; simpl; auto;
    unfold info, warn; chain_solve.
Qed.

Lemma walk_dir_checked os xf xd dry root n rdir st :
  chained after_empty_check None (trace st) ->
  chained after_empty_check None
    (trace (snd (walk_dir os xf xd dry root rdir n st))).
Proof.
  apply (walk_dir_inv os xf xd dry root (fun _ => True)
           (fun st => chained after_empty_check None (trace st))); trivial.
  - intros ? ? ? _ H. chain_solve.
  - intros ? ? ? _ H. unfold warn. chain_solve.
  - intros ? ? ? ? _ H. now apply ftp_file_step_checked.
  - intros ? ? ? _ _ H. now apply ftp_remove_if_empty_checked.
Qed.

Lemma Forall_emit (P : event -> Prop) e st :
  Forall P (trace st) -> P e -> Forall P (trace (emit e st)).
Proof. intros H He. rewrite trace_emit. apply Forall_app. auto. Qed.

Ltac all_solve :=
  simpl; rewrite ?Forall_app; repeat split; auto; repeat constructor;
  simpl; auto.

Lemma os_walk_rmdir_below os xf xd dry folder n top st :
  List.length folder <= List.length top ->
  Forall (rmdir_below folder) (trace st) ->
  Forall (rmdir_below folder)
    (trace (snd (os_walk (local_visit os xf xd dry) top n st))).
Proof.
  apply (os_walk_inv _ (fun top => List.length folder <= List.length top)
           (fun st => Forall (rmdir_below folder) (trace st))).
  - intros. rewrite length_app. simpl. lia.
  - intros top' dirs files es st' Ht.
    apply (local_visit_inv os xf xd dry
             (fun st => Forall (rmdir_below folder) (trace st))).
    + intros es0 st0 fn H. unfold local_file_step.
      repeat break_match; simpl; auto; unfold info, warn; all_solve.
    + intros es0 st0 dn H. unfold local_dir_step.
      repeat break_match; simpl; auto; unfold info, warn; all_solve;
        rewrite length_app; simpl; lia.
Qed.

Lemma walk_dir_rmd_not os xf xd dry root n rdir st :
  Forall (rmd_not root) (trace st) ->
  Forall (rmd_not root) (trace (snd (walk_dir os xf xd dry root rdir n st))).
Proof.
  apply (walk_dir_inv os xf xd dry root (fun _ => True)
           (fun st => Forall (rmd_not root) (trace st))); trivial.
  - intros ? ? ? _ H. all_solve.
  - intros ? ? ? _ H. unfold warn. all_solve.
  - intros ? ? ? ? _ H. unfold ftp_file_step.
    repeat break_match; simpl; auto; unfold info, warn; all_solve.
  - intros ? ? ? _ Hne H. unfold ftp_remove_if_empty.
    repeat break_match; simpl; auto; unfold info, warn; all_solve.
Qed.

Lemma walk_dir_root_stays os xf xd dry root n st :
  fst (walk_dir os xf xd dry root root n st) <> None.
Proof.
  destruct n as [l|[] l es]; try discriminate.
  rewrite walk_dir_dir. cbv zeta.
  destruct (walk_children _ _ _ _ _ _ _ _) as [es1 st1].
  destruct (fold_left _ _ _) as [es2 st2].
  rewrite String.eqb_refl. discriminate.
Qed.

(** C6. In both backends a removal of a directory is issued only right
    after a check that found the directory without children, and never on
    the folder of the job, which is still there after the run. *)
Theorem removal_only_when_empty_never_root os exclude_files exclude_folders
  dry_run folder remote_folder target :
  (chained after_empty_check None
     (trace (snd (local_cleanup_folder os exclude_files exclude_folders
                    dry_run folder target)))
   /\ (forall r,
        ~ In (Rmdir folder r)
            (trace (snd (local_cleanup_folder os exclude_files
                           exclude_folders dry_run folder target))))
   /\ (target <> None ->
       fst (local_cleanup_folder os exclude_files exclude_folders dry_run
              folder target) <> None))
  /\ (chained after_empty_check None
        (trace (snd (ftp_cleanup_folder os exclude_files exclude_folders
                       dry_run remote_folder target)))
      /\ (forall r,
           ~ In (RMD (normal_folder remote_folder) r)
               (trace (snd (ftp_cleanup_folder os exclude_files
                              exclude_folders dry_run remote_folder target))))
      /\ (target <> None ->
          fst (ftp_cleanup_folder os exclude_files exclude_folders dry_run
                 remote_folder target) <> None)).
Proof.
  split.
  - destruct target as [[l|r l es]|].
    + simpl. repeat split; try discriminate; auto.
      intros r [H|[]]. discriminate.
    + rewrite local_cleanup_folder_dir. simpl. repeat split.
      * apply os_walk_checked. exact I.
      * intros r0 H.
        pose proof (os_walk_rmdir_below os exclude_files exclude_folders
                      dry_run folder (Dir r l es) folder start (le_n _)
                      (Forall_nil _)) as Hall.
        rewrite Forall_forall in Hall. apply Hall in H. simpl in H. lia.
      * discriminate.
    + simpl. repeat split; auto. intros r [H|[]]. discriminate.
  - unfold ftp_cleanup_folder. destruct target as [n|].
    + repeat split.
      * apply walk_dir_checked. exact I.
      * intros r H.
        pose proof (walk_dir_rmd_not os exclude_files exclude_folders dry_run
                      (normal_folder remote_folder) n
                      (normal_folder remote_folder) start (Forall_nil _))
          as Hall.
        rewrite Forall_forall in Hall. apply Hall in H. simpl in H. auto.
      * intros _. apply walk_dir_root_stays.
    + simpl. repeat split; auto.
      intros r [H|[H|[]]]; discriminate.
Qed.

(* --------------------------------------------------------------------- *)
(** ** Steps only add to the trace                                         *)
(* --------------------------------------------------------------------- *)




















(* --------------------------------------------------------------------- *)
(** ** Every file reached is attempted                                     *)
(* --------------------------------------------------------------------- *)







Lemma os_walk_visit os xf xd dry top l es st :
  snd (os_walk (local_visit os xf xd dry) top (Dir true l es) st)
  = snd (fold_left (local_dir_step os xd dry top) (dir_names es)
           (fold_left (local_file_step os xf dry top) (file_names es)
              (walk_dirs (local_visit os xf xd dry) top es st))).
Proof.
  rewrite os_walk_dir. destruct (walk_dirs _ top es st) as [es1 st1].
  unfold local_visit. destruct (fold_left _ (dir_names es) _). reflexivity.
Qed.







(* --------------------------------------------------------------------- *)
(** ** Failures of single calls                                            *)
(* --------------------------------------------------------------------- *)



























(* --------------------------------------------------------------------- *)
(** ** The local walk and the exclude-folder patterns                      *)
(* --------------------------------------------------------------------- *)

(** C10. In the local backend, when the file named is no longer in the
    directory at the time of the call, [unlink(missing_ok=True)] does not
    raise: the step records the call as a deletion like any other, logs
    no warning, and counts the file. *)
Theorem unlink_of_missing_file_is_counted os exclude_files rootp fn es st :
  matches_any os fn exclude_files = false ->
  find_entry fn es = None ->
  fst (local_file_step os exclude_files false rootp (es, st) fn) = es
  /\ trace (snd (local_file_step os exclude_files false rootp (es, st) fn))
     = trace st
       ++ [Unlink (rootp ++ [fn]) None;
           Log INFO ("Deleted file: " ++ path_str (rootp ++ [fn]))]
  /\ deleted_files
       (snd (local_file_step os exclude_files false rootp (es, st) fn))
     = S (deleted_files st)
  /\ deleted_dirs
       (snd (local_file_step os exclude_files false rootp (es, st) fn))
     = deleted_dirs st.
Proof.
  intros Hx Hf. unfold local_file_step, unlink. rewrite Hx, Hf. simpl.
  rewrite <- app_assoc. auto.
Qed.

Lemma unlink_of_missing_file_is_counted_witness :
  matches_any Posix "a.log" ["*.json"] = false
  /\ find_entry "a.log" [("k.json", File false)] = None
  /\ deleted_files
       (snd (local_file_step Posix ["*.json"] false ["srv"; "logs"]
               ([("k.json", File false)], start) "a.log")) = 1.
Proof.
  split; [reflexivity|]. split; [reflexivity|].
  apply (unlink_of_missing_file_is_counted Posix ["*.json"] ["srv"; "logs"]
           "a.log" [("k.json", File false)] start); reflexivity.
Defined.

Lemma find_entry_In fn c es : find_entry fn es = Some c -> In (fn, c) es.
Proof.
  induction es as [|[nm c'] rest IH]; simpl; [discriminate|].
  destruct (String.eqb nm fn) eqn:E.
  - apply String.eqb_eq in E. intros [= ->]. left. now subst.
  - intros H. right. now apply IH.
Qed.









Lemma local_dirs_keep_files os xd dry top dirs : forall s,
  deleted_files (snd (fold_left (local_dir_step os xd dry top) dirs s))
  = deleted_files (snd s).
Proof.
  intros s. apply (fold_left_inv _ (fun s' => deleted_files (snd s')
                                               = deleted_files (snd s)));
    [|reflexivity].
  intros [es st] dn _ H. rewrite <- H. unfold local_dir_step.
  repeat break_match; reflexivity.
Qed.





(* --------------------------------------------------------------------- *)
(** ** The remote walk and the exclude-folder patterns                     *)
(* --------------------------------------------------------------------- *)

Lemma clean_names_dir r l es :
  clean_names (Dir r l es) = true ->
  Forall (fun e => clean_name (fst e) = true /\ clean_names (snd e) = true) es.
Proof.
  simpl. induction es as [|[nm c] rest IH]; intros H; [constructor|].
  apply andb_true_iff in H as [H Hr]. apply andb_true_iff in H as [Hn Hc].
  constructor; auto.
Qed.

Lemma remove_entry_incl f es :
  incl (map fst (remove_entry f es)) (map fst es).
Proof.
  induction es as [|[nm c] rest IH]; simpl; [apply incl_refl|].
  destruct (String.eqb nm f).
  - apply incl_tl, incl_refl.
  - simpl. apply incl_cons; [now left|]. now apply incl_tl.
Qed.

Lemma ftp_file_step_names os xf dry rdir es st item :
  incl (map fst (fst (ftp_file_step os xf dry rdir (es, st) item)))
    (map fst es).
Proof.
  unfold ftp_file_step, delete_file. destruct item as [name isdir].
  destruct isdir; [apply incl_refl|].
  destruct (matches_any os name xf); [apply incl_refl|].
  destruct dry; [apply incl_refl|].
  destruct (find_entry name es) as [[[]|]|]; simpl; try apply incl_refl.
  apply remove_entry_incl.
Qed.

Lemma ftp_files_names os xf dry rdir items : forall es st,
  incl (map fst (fst (fold_left (ftp_file_step os xf dry rdir) items (es, st))))
    (map fst es).
Proof.
  intros es st.
  apply (fold_left_inv _ (fun s => incl (map fst (fst s)) (map fst es)));
    [|apply incl_refl].
  intros [es' st'] item _ H. simpl in H.
  eapply incl_tran; [apply ftp_file_step_names | exact H].
Qed.

Lemma walk_children_names os xf xd dry root rdir es : forall st,
  incl (map fst (fst (walk_children os xf xd dry root rdir es st)))
    (map fst es).
Proof.
  induction es as [|[nm c] rest IH]; intros st; [apply incl_refl|].
  simpl. destruct (if is_dir c then _ else _) as [c' st'].
  specialize (IH st'). revert IH.
  destruct (walk_children _ _ _ _ _ _ rest st') as [rest' st'']. simpl.
  intros IH. destruct c' as [c''|]; simpl.
  - apply incl_cons; [now left|]. now apply incl_tl.
  - now apply incl_tl.
Qed.

Lemma listing_names es : map fst (listing es) = map fst es.
Proof. unfold listing. rewrite map_map. reflexivity. Qed.

Lemma listing_clean es es0 :
  incl (map fst es) (map fst es0) ->
  Forall (fun e => clean_name (fst e) = true /\ clean_names (snd e) = true) es0 ->
  Forall (fun it => clean_name (fst it) = true) (listing es).
Proof.
  intros Hi Hc. apply Forall_forall. intros it Hit.
  apply (in_map fst) in Hit. rewrite listing_names in Hit. apply Hi in Hit.
  apply in_map_iff in Hit as ([nm c] & E & Hin). simpl in E. subst nm.
  rewrite Forall_forall in Hc. apply (Hc _ Hin).
Qed.

Lemma remote_path_snoc root names name :
  remote_path root (names ++ [name]) = child_path (remote_path root names) name.
Proof. unfold remote_path. now rewrite fold_left_app. Qed.

Lemma walked_child os xd root rdir name :
  walked os xd root rdir -> clean_name name = true ->
  matches_any os name xd = false -> walked os xd root (child_path rdir name).
Proof.
  intros (names & Hn & ->) Hc Hx. exists (names ++ [name]). split.
  - apply Forall_app. split; [assumption|]. constructor; auto.
  - symmetry. apply remote_path_snoc.
Qed.

(** Every call of the remote walk is issued on a directory entered or on
    one of its entries. *)
Lemma walk_dir_events os xf xd dry root n :
  clean_names n = true ->
  forall rdir st,
    walked os xd root rdir ->
    Forall (remote_event_ok os xd root) (trace st) ->
    Forall (remote_event_ok os xd root)
      (trace (snd (walk_dir os xf xd dry root rdir n st))).
Proof.
  induction n as [l|r l es IH] using node_induction; intros Hcl rdir st Hw Hst.
  - unfold walk_dir. all_solve.
  - destruct r; [|unfold walk_dir; all_solve].
    apply clean_names_dir in Hcl. rewrite walk_dir_dir. cbv zeta.
    assert (Hl : Forall (remote_event_ok os xd root)
                   (trace (emit (LIST rdir (inr (listing es))) st))).
    { all_solve. apply (listing_clean es es); auto using incl_refl. }
    assert (Hch : forall st,
               Forall (remote_event_ok os xd root) (trace st) ->
               Forall (remote_event_ok os xd root)
                 (trace (snd (walk_children os xf xd dry root rdir es st)))).
    { clear Hst Hl st. revert Hcl.
      induction IH as [|[nm c] rest Hc _ IHrest]; intros Hcl st Hst;
        [exact Hst|].
      inversion Hcl as [|? ? [Hn Hcc] Hcr]; subst. simpl in Hn, Hcc.
      simpl. destruct (is_dir c); [destruct (matches_any os nm xd) eqn:Hx|].
      - specialize (IHrest Hcr st Hst). revert IHrest.
        destruct (walk_children _ _ _ _ _ _ rest st) as [rest' st''].
        trivial.
      - specialize (Hc Hcc (child_path rdir nm) st
                      (walked_child os xd root rdir nm Hw Hn Hx) Hst).
        simpl in Hc. revert Hc.
        destruct (walk_dir _ _ _ _ _ (child_path rdir nm) c st) as [c' st'].
        simpl. intros Hc. specialize (IHrest Hcr st' Hc). revert IHrest.
        destruct (walk_children _ _ _ _ _ _ rest st') as [rest' st''].
        trivial.
      - specialize (IHrest Hcr st Hst). revert IHrest.
        destruct (walk_children _ _ _ _ _ _ rest st) as [rest' st''].
        trivial. }
    specialize (Hch _ Hl).
    pose proof (walk_children_names os xf xd dry root rdir es
                  (emit (LIST rdir (inr (listing es))) st)) as Hn1.
    revert Hch Hn1. destruct (walk_children _ _ _ _ _ _ es _) as [es1 st1].
    simpl. intros Hch Hn1.
    assert (Hf : Forall (remote_event_ok os xd root)
                   (trace (snd (fold_left (ftp_file_step os xf dry rdir)
                                  (listing es) (es1, st1))))).
    { apply (fold_left_inv _
               (fun s => Forall (remote_event_ok os xd root) (trace (snd s))));
        [|exact Hch].
      intros [es' st'] [name isdir] Hin H. simpl in H.
      assert (Hcn : clean_name name = true).
      { pose proof (listing_clean es es (incl_refl _) Hcl) as Hlc.
        rewrite Forall_forall in Hlc. apply (Hlc _ Hin). }
      unfold ftp_file_step. repeat break_match; simpl; auto; all_solve;
        exists rdir, name; auto. }
    pose proof (ftp_files_names os xf dry rdir (listing es) es1 st1) as Hn2.
    revert Hf Hn2. destruct (fold_left _ _ _) as [es2 st2]. simpl.
    intros Hf Hn2.
    destruct (String.eqb rdir root); [exact Hf|].
    assert (Hl2 : Forall (fun it => clean_name (fst it) = true) (listing es2)).
    { apply (listing_clean es2 es); auto.
      eapply incl_tran; eauto. }
    unfold ftp_remove_if_empty, list_dir.
    repeat break_match; simpl; auto; all_solve;
      try (injection Heqs as <-; assumption);
      inversion Hl2; assumption.
Qed.

(** *** Paths as texts *)

Lemma chars_str l : chars (str l) = l.
Proof. apply list_ascii_of_string_of_list_ascii. Qed.

Lemma str_chars s : str (chars s) = s.
Proof. apply string_of_list_ascii_of_string. Qed.

Lemma chars_inj a b : chars a = chars b -> a = b.
Proof. intros H. rewrite <- (str_chars a), <- (str_chars b). now rewrite H. Qed.

Lemma chars_append (a b : string) : chars (a ++ b) = chars a ++ chars b.
Proof.
  induction a as [|c a IH]; [reflexivity|].
  simpl. unfold chars in *. simpl. now rewrite IH.
Qed.

Lemma dropwhile_split {A : Type} (f : A -> bool) l :
  exists pre, l = pre ++ dropwhile f l /\ Forall (fun x => f x = true) pre.
Proof.
  induction l as [|x l (pre & E & Hp)]; [exists []; auto|].
  simpl. destruct (f x) eqn:Hx.
  - exists (x :: pre). split; [simpl; congruence | constructor; auto].
  - exists []. auto.
Qed.

Lemma rstrip_by_split f l :
  exists tail, l = rstrip_by f l ++ tail /\ Forall (fun x => f x = true) tail.
Proof.
  unfold rstrip_by. destruct (dropwhile_split f (rev l)) as (pre & E & Hp).
  exists (rev pre). split.
  - rewrite <- rev_app_distr, <- E. symmetry. apply rev_involutive.
  - apply Forall_rev. exact Hp.
Qed.

Lemma rstrip_by_snoc f l x : f x = false -> rstrip_by f (l ++ [x]) = l ++ [x].
Proof.
  intros Hx. unfold rstrip_by. rewrite rev_app_distr. simpl. rewrite Hx.
  simpl. now rewrite rev_involutive.
Qed.

Lemma clean_name_chars name :
  clean_name name = true -> chars name <> [] /\ slash_free (chars name).
Proof.
  unfold clean_name. intros H. apply andb_true_iff in H as [Hne Hf]. split.
  - intros E. apply negb_true_iff, String.eqb_neq in Hne. apply Hne.
    apply chars_inj. exact E.
  - rewrite forallb_forall in Hf. apply Forall_forall. intros c Hc.
    apply Hf in Hc. now apply negb_true_iff.
Qed.

Lemma chars_child_path rdir name :
  chars (child_path rdir name)
  = rstrip_by is_slash (chars rdir) ++ "/"%char :: chars name.
Proof.
  unfold child_path, rstrip_slash. rewrite !chars_append, chars_str.
  reflexivity.
Qed.

Lemma child_path_stable l name :
  clean_name name = true ->
  rstrip_by is_slash (l ++ "/"%char :: chars name) = l ++ "/"%char :: chars name.
Proof.
  intros H. apply clean_name_chars in H as [Hne Hf].
  destruct (exists_last Hne) as (body & x & E). rewrite E in *.
  apply Forall_app in Hf as [_ Hx]. inversion Hx as [|? ? Hx' _]; subst.
  replace (l ++ "/"%char :: body ++ [x]) with ((l ++ "/"%char :: body) ++ [x])
    by (rewrite <- app_assoc; reflexivity).
  now apply rstrip_by_snoc.
Qed.

Lemma remote_path_stable names : forall rdir,
  Forall (fun nm => clean_name nm = true) names ->
  rstrip_by is_slash (chars rdir) = chars rdir ->
  chars (remote_path rdir names) = chars rdir ++ flat names.
Proof.
  induction names as [|n ns IH]; intros rdir Hc Hs.
  - simpl. now rewrite app_nil_r.
  - inversion Hc as [|? ? Hn Hns]; subst.
    change (remote_path rdir (n :: ns))
      with (remote_path (child_path rdir n) ns).
    rewrite IH; auto.
    + rewrite chars_child_path, Hs. simpl. now rewrite <- app_assoc.
    + rewrite chars_child_path. now apply child_path_stable.
Qed.

Lemma remote_path_chars root n ns :
  Forall (fun nm => clean_name nm = true) (n :: ns) ->
  chars (remote_path root (n :: ns))
  = rstrip_by is_slash (chars root) ++ flat (n :: ns).
Proof.
  intros Hc. inversion Hc as [|? ? Hn Hns]; subst.
  change (remote_path root (n :: ns))
    with (remote_path (child_path root n) ns).
  rewrite remote_path_stable; auto.
  - rewrite chars_child_path. simpl. now rewrite <- app_assoc.
  - rewrite chars_child_path. now apply child_path_stable.
Qed.

Lemma is_slash_true c : is_slash c = true -> c = "/"%char.
Proof. unfold is_slash. apply Ascii.eqb_eq. Qed.

Lemma slash_split u : forall v s s',
  slash_free u -> slash_free v -> head_slash s -> head_slash s' ->
  u ++ s = v ++ s' -> u = v /\ s = s'.
Proof.
  induction u as [|c u IH]; intros v s s' Hu Hv Hs Hs' E.
  - destruct v as [|d v]; [auto|]. simpl in E. subst s.
    inversion Hv as [|? ? Hd _]; subst.
    destruct Hs as [Hs|[t Hs]]; [discriminate|]. injection Hs as -> _.
    discriminate.
  - inversion Hu as [|? ? Hc Hu']; subst. destruct v as [|d v].
    + simpl in E. subst s'.
      destruct Hs' as [Hs'|[t Hs']]; [discriminate|]. injection Hs' as -> _.
      discriminate.
    + inversion Hv as [|? ? Hd Hv']; subst. simpl in E.
      injection E as -> E. destruct (IH v s s' Hu' Hv' Hs Hs' E) as [-> ->].
      auto.
Qed.

Lemma flat_head_slash names : head_slash (flat names).
Proof. destruct names; [now left | right; simpl; eauto]. Qed.

Lemma flat_app a b : flat (a ++ b) = flat a ++ flat b.
Proof.
  induction a as [|n a IH]; [reflexivity|].
  simpl. now rewrite IH, <- app_assoc.
Qed.

(** A text [/n1/.../nk] that begins with the text of [b], followed by
    nothing or by a slash, comes from a list that begins with [b]. *)
Lemma flat_prefix b : forall a x,
  Forall (fun nm => clean_name nm = true) a ->
  Forall (fun nm => clean_name nm = true) b ->
  head_slash x -> flat a = flat b ++ x ->
  exists t, a = b ++ t /\ flat t = x.
Proof.
  induction b as [|m b IH]; intros a x Ha Hb Hx E.
  - exists a. auto.
  - inversion Hb as [|? ? Hm Hb']; subst. destruct a as [|n a].
    + simpl in E. discriminate.
    + inversion Ha as [|? ? Hn Ha']; subst. simpl in E. injection E as E.
      rewrite <- app_assoc in E.
      apply clean_name_chars in Hn as [_ Hn]. apply clean_name_chars in Hm as [_ Hm].
      apply slash_split in E as [En E]; auto using flat_head_slash.
      * apply chars_inj in En. subst m.
        destruct (IH a x Ha' Hb' Hx E) as (t & -> & Ht). exists t. auto.
      * destruct b as [|m' b]; [exact Hx|]. right. simpl. eauto.
Qed.

Lemma flat_nil t : flat t = [] -> t = [].
Proof. destruct t; [reflexivity | discriminate]. Qed.

Section UnderExcluded.
Variable os : platform.
Variable xd : list string.
Variable root : string.
Variables (ms : list string) (name : string).
Hypothesis Hms :
  Forall (fun nm => clean_name nm = true /\ matches_any os nm xd = false) ms.
Hypothesis Hname : clean_name name = true.
Hypothesis Hex : matches_any os name xd = true.

Let D : string := child_path (remote_path root ms) name.

Lemma only_clean (l : list string) :
  Forall (fun nm => clean_name nm = true /\ matches_any os nm xd = false) l ->
  Forall (fun nm => clean_name nm = true) l.
Proof. apply Forall_impl. tauto. Qed.

Lemma excluded_chars :
  exists m rest,
    ms ++ [name] = m :: rest
    /\ chars D = rstrip_by is_slash (chars root) ++ flat (ms ++ [name]).
Proof.
  unfold D. rewrite <- remote_path_snoc.
  destruct (ms ++ [name]) as [|m rest] eqn:E;
    [destruct ms; discriminate|].
  exists m, rest. split; [reflexivity|].
  apply remote_path_chars. rewrite <- E. apply Forall_app. split.
  - now apply only_clean.
  - constructor; auto.
Qed.

Lemma not_among (ns : list string) :
  Forall (fun nm => clean_name nm = true /\ matches_any os nm xd = false) ns ->
  ~ In name ns.
Proof.
  intros Hns Hin. rewrite Forall_forall in Hns.
  destruct (Hns _ Hin) as [_ H]. congruence.
Qed.

(** No directory entered has the text of [D] followed by nothing or by
    a slash. *)
Lemma walked_not_under ns x :
  Forall (fun nm => clean_name nm = true /\ matches_any os nm xd = false) ns ->
  head_slash x ->
  chars (remote_path root ns) <> chars D ++ x.
Proof.
  intros Hns Hx E. destruct excluded_chars as (m & rest & Em & ED).
  rewrite ED in E. destruct ns as [|n ns].
  - simpl in E.
    destruct (rstrip_by_split is_slash (chars root)) as (tail & Et & Hs).
    rewrite Et in E at 1. rewrite <- app_assoc in E.
    apply app_inv_head in E. rewrite Em in E. simpl in E.
    assert (Hm : clean_name m = true).
    { destruct ms as [|m0 ms0]; simpl in Em; injection Em as <- _; auto.
      inversion Hms as [|? ? [H _] _]; auto. }
    apply clean_name_chars in Hm as [Hne Hf].
    destruct (chars m) as [|c cs]; [congruence|].
    apply Forall_inv in Hf. rewrite E in Hs. simpl in Hs.
    apply Forall_inv_tail, Forall_inv in Hs. congruence.
  - rewrite remote_path_chars in E by now apply only_clean.
    rewrite <- app_assoc in E. apply app_inv_head in E.
    apply flat_prefix in E as (t & Et & _); auto.
    + apply (not_among (n :: ns) Hns). rewrite Et.
      rewrite !in_app_iff. simpl. auto.
    + now apply only_clean.
    + apply Forall_app. split; [now apply only_clean | constructor; auto].
Qed.

(** No entry of a directory entered lies below [D]. *)
Lemma entry_not_under ns f rest :
  Forall (fun nm => clean_name nm = true /\ matches_any os nm xd = false) ns ->
  clean_name f = true ->
  chars (child_path (remote_path root ns) f)
  <> chars D ++ "/"%char :: rest.
Proof.
  intros Hns Hf E. destruct excluded_chars as (m & rest' & Em & ED).
  rewrite ED in E. rewrite <- remote_path_snoc in E.
  assert (Hc : Forall (fun nm => clean_name nm = true) (ns ++ [f])).
  { apply Forall_app. split; [now apply only_clean | constructor; auto]. }
  destruct (ns ++ [f]) as [|n0 ns0] eqn:En; [destruct ns; discriminate|].
  rewrite remote_path_chars in E by assumption.
  rewrite <- app_assoc in E. apply app_inv_head in E.
  apply flat_prefix in E as (t & Et & Ht); auto.
  - destruct t as [|t0 t1]; [discriminate|].
    assert (Hne : t0 :: t1 <> []) by discriminate.
    destruct (exists_last Hne) as (t' & z & Ez). rewrite Ez in Et.
    rewrite <- En in Et. rewrite !app_assoc in Et.
    apply app_inj_tail in Et as [Ens _].
    apply (not_among ns Hns). rewrite Ens. rewrite !in_app_iff. simpl. auto.
  - apply Forall_app. split; [now apply only_clean | constructor; auto].
  - right. eauto.
Qed.
End UnderExcluded.

Lemma ftp_cleanup_folder_events os xf xd dry remote_folder n :
  clean_names n = true ->
  Forall (remote_event_ok os xd (normal_folder remote_folder))
    (trace (snd (ftp_cleanup_folder os xf xd dry remote_folder (Some n)))).
Proof.
  intros Hc. unfold ftp_cleanup_folder.
  apply walk_dir_events; [assumption| |constructor].
  exists []. split; [constructor | reflexivity].
Qed.

Lemma strictly_under_chars d q :
  strictly_under d q -> exists rest, chars q = chars d ++ "/"%char :: rest.
Proof.
  intros [rest ->]. exists (chars rest). now rewrite !chars_append.
Qed.

(** C4. In a remote run, a directory listed under a name that matches an
    exclude-folder pattern is not entered: no listing, deletion or removal
    is issued on a path below it, and it is neither listed nor removed
    itself.  Names are those a listing gives: not empty, without a
    slash. *)
Theorem excluded_remote_folder_untouched os exclude_files exclude_folders
  dry_run remote_folder n rdir items name :
  clean_names n = true ->
  In (LIST rdir (inr items))
     (trace (snd (ftp_cleanup_folder os exclude_files exclude_folders dry_run
                    remote_folder (Some n)))) ->
  In (name, true) items ->
  matches_any os name exclude_folders = true ->
  (forall e p,
      In e (trace (snd (ftp_cleanup_folder os exclude_files exclude_folders
                          dry_run remote_folder (Some n)))) ->
      call_path e = Some p ->
      ~ strictly_under (child_path rdir name) p)
  /\ (forall r,
        ~ In (LIST (child_path rdir name) r)
            (trace (snd (ftp_cleanup_folder os exclude_files exclude_folders
                           dry_run remote_folder (Some n)))))
  /\ (forall r,
        ~ In (RMD (child_path rdir name) r)
            (trace (snd (ftp_cleanup_folder os exclude_files exclude_folders
                           dry_run remote_folder (Some n))))).
Proof.
  intros Hc Hl Hi Hx.
  pose proof (ftp_cleanup_folder_events os exclude_files exclude_folders
                dry_run remote_folder n Hc) as Hall.
  rewrite Forall_forall in Hall.
  destruct (Hall _ Hl) as [(ms & Hms & ->) Hitems].
  assert (Hn : clean_name name = true).
  { rewrite Forall_forall in Hitems. apply (Hitems _ Hi). }
  repeat split.
  - intros e p He Hp Hu. apply strictly_under_chars in Hu as [rest Hu].
    specialize (Hall _ He). destruct e; try discriminate;
      injection Hp as ->; simpl in Hall.
    + destruct Hall as [(ns & Hns & ->) _]. revert Hu.
      apply (walked_not_under os exclude_folders _ ms name Hms Hn Hx ns);
        [assumption | right; eauto].
    + destruct Hall as (d & f & (ns & Hns & ->) & Hf & ->). revert Hu.
      now apply (entry_not_under os exclude_folders _ ms name Hms Hn Hx ns).
    + destruct Hall as (ns & Hns & ->). revert Hu.
      apply (walked_not_under os exclude_folders _ ms name Hms Hn Hx ns);
        [assumption | right; eauto].
  - intros r He. destruct (Hall _ He) as [(ns & Hns & E) _].
    apply (walked_not_under os exclude_folders (normal_folder remote_folder)
             ms name Hms Hn Hx ns [] Hns (or_introl eq_refl)).
    rewrite app_nil_r. now rewrite E.
  - intros r He. destruct (Hall _ He) as (ns & Hns & E).
    apply (walked_not_under os exclude_folders (normal_folder remote_folder)
             ms name Hms Hn Hx ns [] Hns (or_introl eq_refl)).
    rewrite app_nil_r. now rewrite E.
Qed.

Lemma excluded_remote_folder_untouched_witness :
  clean_names config_tree = true
  /\ In (LIST "/srv/logs" (inr [("config", true); ("b.log", false)]))
        (trace (snd (ftp_cleanup_folder Posix ["*.json"] ["config"] false
                       "/srv/logs" (Some config_tree))))
  /\ matches_any Posix "config" ["config"] = true
  /\ forall r,
       ~ In (LIST (child_path "/srv/logs" "config") r)
           (trace (snd (ftp_cleanup_folder Posix ["*.json"] ["config"] false
                          "/srv/logs" (Some config_tree)))).
Proof.
  assert (Hl : In (LIST "/srv/logs" (inr [("config", true); ("b.log", false)]))
                 (trace (snd (ftp_cleanup_folder Posix ["*.json"] ["config"]
                                false "/srv/logs" (Some config_tree)))))
    by (vm_compute; auto).
  split; [reflexivity|]. split; [exact Hl|]. split; [reflexivity|].
  apply (excluded_remote_folder_untouched Posix ["*.json"] ["config"] false
           "/srv/logs" config_tree "/srv/logs"
           [("config", true); ("b.log", false)] "config" eq_refl Hl).
  - simpl. auto.
  - reflexivity.
Defined.

(* --------------------------------------------------------------------- *)
(** ** Dry runs against runs that delete                                   *)
(* --------------------------------------------------------------------- *)

Lemma nodupb_NoDup l : nodupb l = true -> NoDup l.
Proof.
  induction l as [|x l IH]; simpl; intros H; [constructor|].
  apply andb_true_iff in H as [Hx Hl]. constructor; [|auto].
  intros Hin. apply negb_true_iff in Hx.
  assert (existsb (String.eqb x) l = true); [|congruence].
  apply existsb_exists. exists x. split; [assumption | apply String.eqb_refl].
Qed.

Lemma tidy_dir r l es :
  tidy (Dir r l es) = true ->
  l = false /\ NoDup (map fst es) /\ Forall (fun e => tidy (snd e) = true) es.
Proof.
  simpl. intros H. apply andb_true_iff in H as [H Ha].
  apply andb_true_iff in H as [Hl Hn]. apply negb_true_iff in Hl.
  split; [assumption|]. split; [now apply nodupb_NoDup|].
  clear Hn. induction es as [|[nm c] rest IH]; [constructor|].
  apply andb_true_iff in Ha as [Hc Hr]. constructor; auto.
Qed.

Lemma NoDup_names_unique (es : entries) n a b :
  NoDup (map fst es) -> In (n, a) es -> In (n, b) es -> a = b.
Proof.
  induction es as [|[nm c] rest IH]; simpl; intros Hnd Ha Hb; [destruct Ha|].
  inversion Hnd as [|? ? Hnot Hnd']; subst.
  destruct Ha as [Ea|Ha], Hb as [Eb|Hb].
  - congruence.
  - injection Ea as -> ->. exfalso. apply Hnot.
    apply (in_map fst) in Hb. exact Hb.
  - injection Eb as -> ->. exfalso. apply Hnot.
    apply (in_map fst) in Ha. exact Ha.
  - now apply IH.
Qed.

Lemma In_find_entry n c (es : entries) :
  In (n, c) es -> exists c', find_entry n es = Some c'.
Proof.
  induction es as [|[nm c0] rest IH]; simpl; intros H; [destruct H|].
  destruct (String.eqb nm n) eqn:En; [eauto|].
  destruct H as [E|H]; [|auto].
  injection E as -> ->. rewrite String.eqb_refl in En. discriminate.
Qed.


Lemma remove_entry_In e f es : In e (remove_entry f es) -> In e es.
Proof.
  induction es as [|[nm c] rest IH]; simpl; [tauto|].
  destruct (String.eqb nm f); simpl; [tauto|]. intros [H|H]; auto.
Qed.


Lemma dir_names_In dn es :
  In dn (dir_names es) <-> exists c, In (dn, c) es /\ is_dir c = true.
Proof.
  unfold dir_names. rewrite in_map_iff. split.
  - intros ([nm c] & E & H). apply filter_In in H as [H Hd].
    simpl in *. subst. eauto.
  - intros (c & H & Hd). exists (dn, c). split; [reflexivity|].
    apply filter_In. auto.
Qed.

Lemma file_names_In_iff fn es :
  In fn (file_names es) <-> exists c, In (fn, c) es /\ is_dir c = false.
Proof.
  unfold file_names. rewrite in_map_iff. split.
  - intros ([nm c] & E & H). apply filter_In in H as [H Hd].
    simpl in *. subst. apply negb_true_iff in Hd. eauto.
  - intros (c & H & Hd). exists (fn, c). split; [reflexivity|].
    apply filter_In. split; [assumption|]. simpl. now rewrite Hd.
Qed.

Lemma kept_refl c : kept c c.
Proof. destruct c; simpl; eauto. Qed.

Lemma kept_is_dir c c' : kept c c' -> is_dir c' = is_dir c.
Proof. destruct c; simpl; [intros ->|intros (es' & -> & _)]; reflexivity. Qed.

Lemma os_walk_kept os xf xd dry n top st :
  kept n (fst (os_walk (local_visit os xf xd dry) top n st)).
Proof.
  destruct n as [lk|[] l es]; try apply kept_refl.
  rewrite os_walk_dir. destruct es as [|e es].
  - simpl. exists []. auto.
  - destruct (walk_dirs _ top (e :: es) st) as [es1 st1].
    destruct (local_visit _ _ _ _ _ _ _ _) as [es2 st2]. simpl.
    exists es2. split; [reflexivity | discriminate].
Qed.


Lemma walk_dirs_kept os xf xd dry top es : forall st,
  Forall2 (fun e e1 => fst e1 = fst e /\ kept (snd e) (snd e1)) es
    (fst (walk_dirs (local_visit os xf xd dry) top es st)).
Proof.
  induction es as [|[nm c] rest IH]; intros st; [constructor|].
  simpl. destruct (is_dir c).
  - pose proof (os_walk_kept os xf xd dry c (top ++ [nm]) st) as Hk.
    revert Hk. destruct (os_walk _ (top ++ [nm]) c st) as [c' st']. simpl.
    intros Hk. specialize (IH st'). revert IH.
    destruct (walk_dirs _ top rest st') as [rest' st'']. simpl.
    intros IH. constructor; auto.
  - specialize (IH st). revert IH.
    destruct (walk_dirs _ top rest st) as [rest' st'']. simpl.
    intros IH. constructor; auto using kept_refl.
Qed.


Lemma Forall2_kept_In es es1 n c1 :
  Forall2 (fun e e1 : string * node =>
             fst e1 = fst e /\ kept (snd e) (snd e1)) es es1 ->
  In (n, c1) es1 -> exists c, In (n, c) es /\ kept c c1.
Proof.
  induction 1 as [|[nm c] [nm1 c1'] es es1 [En Hk] _ IH]; simpl;
    [tauto|].
  simpl in En, Hk. subst nm1. intros [E|H].
  - injection E as -> ->. eauto.
  - destruct (IH H) as (c0 & H0 & Hk0). eauto.
Qed.

(** *** The local backend *)










(** *** The remote backend *)













(* --------------------------------------------------------------------- *)
(** ** Patterns without brackets                                           *)
(* --------------------------------------------------------------------- *)

Lemma translate_from_plain l : forall fuel b,
  plain l -> List.length l <= fuel -> translate_from fuel b l = map GLit l.
Proof.
  induction l as [|c l IH]; intros fuel b Hp Hf.
  - destruct fuel; reflexivity.
  - destruct fuel as [|fuel]; [simpl in Hf; lia|].
    inversion Hp as [|? ? Hc Hl]; subst. unfold is_meta in Hc.
    apply orb_false_iff in Hc as [Hc H3]. apply orb_false_iff in Hc as [H1 H2].
    simpl. rewrite H1, H2, H3. f_equal. apply IH; [assumption|].
    simpl in Hf. lia.
Qed.

Lemma translate_plain l : plain l -> translate l = map GLit l.
Proof. intros H. apply translate_from_plain; auto. Qed.

Lemma translate_star_plain l :
  plain l -> translate ("*"%char :: l) = GStar :: map GLit l.
Proof.
  intros H. unfold translate. simpl. f_equal.
  apply translate_from_plain; auto.
Qed.

Lemma glob_matches_lits l s : glob_matches (map GLit l) s <-> s = l.
Proof.
  revert s. induction l as [|c l IH]; intros s; simpl.
  - split; [now inversion 1 | intros ->; constructor].
  - split.
    + inversion 1 as [| |t ts c' s' Hc Hm]; subst. simpl in Hc.
      apply Ascii.eqb_eq in Hc. subst c'. f_equal. now apply IH.
    + intros ->. constructor; [apply Ascii.eqb_refl | now apply IH].
Qed.

Lemma glob_matches_star_lits l s :
  glob_matches (GStar :: map GLit l) s <-> exists s1, s = s1 ++ l.
Proof.
  split.
  - inversion 1 as [|ts s1 s2 Hm|t ts c s' Hc Hm]; subst.
    + exists s1. f_equal. now apply glob_matches_lits.
    + discriminate.
  - intros [s1 ->]. constructor. now apply glob_matches_lits.
Qed.

(** X1. On a POSIX platform a pattern without [*], [?] and [[] excludes
    exactly the name equal to it, once stripped. *)
Theorem plain_pattern_matches_only_itself name pat :
  plain (chars (strip pat)) -> strip pat <> "" ->
  (matches_any Posix name [pat] = true <-> name = strip pat).
Proof.
  intros Hp Hne. rewrite (matches_any_spec Posix name [pat]). simpl. split.
  - intros (p & [<-|[]] & _ & Hm). rewrite translate_plain in Hm by assumption.
    apply glob_matches_lits in Hm. now apply chars_inj.
  - intros ->. exists pat. split; [now left|]. split; [assumption|].
    rewrite translate_plain by assumption. now apply glob_matches_lits.
Qed.

Lemma plain_pattern_matches_only_itself_witness :
  plain (chars (strip " keep_me.txt ")) /\ strip " keep_me.txt " <> ""
  /\ matches_any Posix "keep_me.txt" [" keep_me.txt "] = true.
Proof.
  assert (Hp : plain (chars (strip " keep_me.txt ")))
    by (vm_compute; repeat constructor).
  assert (Hne : strip " keep_me.txt " <> "") by (vm_compute; discriminate).
  split; [exact Hp|]. split; [exact Hne|].
  apply (plain_pattern_matches_only_itself "keep_me.txt" " keep_me.txt " Hp Hne).
  reflexivity.
Defined.

(** X2. On a POSIX platform a pattern made of a star and a text without
    [*], [?] and [[] excludes exactly the names that end with that text;
    a lone star excludes every name. *)
Theorem star_pattern_matches_suffix name pat suf :
  strip pat = String "*" suf -> plain (chars suf) ->
  (matches_any Posix name [pat] = true
   <-> exists pre, name = (pre ++ suf)%string).
Proof.
  intros Hs Hp. rewrite (matches_any_spec Posix name [pat]). simpl. split.
  - intros (p & [<-|[]] & _ & Hm). rewrite Hs in Hm.
    change (chars (String "*" suf)) with ("*"%char :: chars suf) in Hm.
    rewrite translate_star_plain in Hm by assumption.
    apply glob_matches_star_lits in Hm as [s1 Hm]. exists (str s1).
    apply chars_inj. now rewrite chars_append, chars_str.
  - intros [pre ->]. exists pat. split; [now left|].
    split; [rewrite Hs; discriminate|]. rewrite Hs.
    change (chars (String "*" suf)) with ("*"%char :: chars suf).
    rewrite translate_star_plain by assumption.
    apply glob_matches_star_lits. exists (chars pre). apply chars_append.
Qed.

Lemma star_pattern_matches_suffix_witness :
  strip "*.json" = String "*" ".json" /\ plain (chars ".json")
  /\ matches_any Posix "a.json" ["*.json"] = true.
Proof.
  assert (Hp : plain (chars ".json")) by (vm_compute; repeat constructor).
  split; [reflexivity|]. split; [exact Hp|].
  apply (star_pattern_matches_suffix "a.json" "*.json" ".json" eq_refl Hp).
  exists "a". reflexivity.
Defined.

(* --------------------------------------------------------------------- *)
(** ** [parse_csv]                                                         *)
(* --------------------------------------------------------------------- *)

Lemma dropwhile_idem {A : Type} (f : A -> bool) l :
  dropwhile f (dropwhile f l) = dropwhile f l.
Proof.
  induction l as [|x l IH]; [reflexivity|].
  simpl. destruct (f x) eqn:E; [exact IH|]. simpl. now rewrite E.
Qed.

Lemma dropwhile_snoc {A : Type} (f : A -> bool) l c :
  f c = false -> dropwhile f (l ++ [c]) = dropwhile f l ++ [c].
Proof.
  intros Hc. induction l as [|x l IH]; simpl; [now rewrite Hc|].
  destruct (f x); [exact IH | reflexivity].
Qed.

Lemma dropwhile_In {A : Type} (f : A -> bool) l x :
  In x (dropwhile f l) -> In x l.
Proof.
  induction l as [|y l IH]; simpl; [tauto|].
  destruct (f y); simpl; [auto | tauto].
Qed.

Lemma rstrip_by_In f l x : In x (rstrip_by f l) -> In x l.
Proof.
  unfold rstrip_by. rewrite <- in_rev. intros H. apply dropwhile_In in H.
  now apply in_rev.
Qed.

Lemma rstrip_by_idem f l : rstrip_by f (rstrip_by f l) = rstrip_by f l.
Proof. unfold rstrip_by. now rewrite rev_involutive, dropwhile_idem. Qed.

Lemma lstrip_rstrip f l :
  lstrip_by f (rstrip_by f (lstrip_by f l)) = rstrip_by f (lstrip_by f l).
Proof.
  unfold lstrip_by. destruct (dropwhile f l) as [|c t] eqn:E; [reflexivity|].
  assert (Hc : f c = false).
  { clear - E. induction l as [|x l IH]; simpl in E; [discriminate|].
    destruct (f x) eqn:Hx; [auto|]. now injection E as <- _. }
  unfold rstrip_by. simpl. rewrite dropwhile_snoc by assumption.
  rewrite rev_app_distr. simpl. now rewrite Hc.
Qed.

Lemma strip_idem s : strip (strip s) = strip s.
Proof.
  unfold strip. rewrite chars_str. f_equal.
  now rewrite lstrip_rstrip, rstrip_by_idem.
Qed.

Lemma strip_In s c : In c (chars (strip s)) -> In c (chars s).
Proof.
  unfold strip. rewrite chars_str. intros H.
  apply rstrip_by_In in H. unfold lstrip_by in H. now apply dropwhile_In in H.
Qed.

Lemma split_on_not_nil sep l : split_on sep l <> [].
Proof.
  destruct l as [|c r]; simpl; [discriminate|].
  destruct (Ascii.eqb c sep); [discriminate|].
  destruct (split_on sep r); discriminate.
Qed.

Lemma split_on_free sep l :
  Forall (fun piece => ~ In sep piece) (split_on sep l).
Proof.
  induction l as [|c r IH]; simpl; [repeat constructor; auto|].
  destruct (Ascii.eqb c sep) eqn:E.
  - constructor; auto.
  - destruct (split_on sep r) as [|h t]; [repeat constructor|].
    + intros [H|[]]. subst. rewrite Ascii.eqb_refl in E. discriminate.
    + inversion IH as [|? ? Hh Ht]; subst. constructor; [|assumption].
      intros [H|H]; [|contradiction]. subst.
      rewrite Ascii.eqb_refl in E. discriminate.
Qed.

Lemma split_on_one sep a : ~ In sep a -> split_on sep a = [a].
Proof.
  induction a as [|c a IH]; intros H; [reflexivity|].
  simpl. destruct (Ascii.eqb c sep) eqn:E.
  - apply Ascii.eqb_eq in E. subst. exfalso. apply H. now left.
  - rewrite IH; [reflexivity|]. intros Hin. apply H. now right.
Qed.

Lemma split_on_app sep a b :
  ~ In sep a -> split_on sep (a ++ sep :: b) = a :: split_on sep b.
Proof.
  induction a as [|c a IH]; intros H.
  - simpl. now rewrite Ascii.eqb_refl.
  - simpl. destruct (Ascii.eqb c sep) eqn:E.
    + apply Ascii.eqb_eq in E. subst. exfalso. apply H. now left.
    + rewrite IH; [reflexivity|]. intros Hin. apply H. now right.
Qed.

(** X3. Every item [parse_csv] yields is not empty, carries no white
    space at either end and no comma. *)
Theorem parse_csv_items s x : In x (parse_csv s) -> csv_item x.
Proof.
  unfold parse_csv. intros H. apply filter_In in H as [H Hne].
  apply in_map_iff in H as (piece & <- & Hp).
  apply negb_true_iff, String.eqb_neq in Hne. repeat split.
  - exact Hne.
  - apply strip_idem.
  - intros Hc. apply strip_In in Hc. rewrite chars_str in Hc.
    pose proof (split_on_free ","%char (chars s)) as Hf.
    rewrite Forall_forall in Hf. exact (Hf _ Hp Hc).
Qed.

Lemma parse_csv_items_witness :
  In "*.cfg" (parse_csv "*.json, *.cfg ,,keep_me.txt") /\ csv_item "*.cfg".
Proof.
  assert (H : In "*.cfg" (parse_csv "*.json, *.cfg ,,keep_me.txt"))
    by (vm_compute; auto).
  split; [exact H|].
  exact (parse_csv_items "*.json, *.cfg ,,keep_me.txt" "*.cfg" H).
Defined.

Lemma split_join_csv x items :
  Forall csv_item (x :: items) ->
  split_on "," (chars (join_csv (x :: items))) = map chars (x :: items).
Proof.
  revert x. induction items as [|y items IH]; intros x H.
  - inversion H as [|? ? (_ & _ & Hx) _]; subst. simpl.
    now apply split_on_one.
  - inversion H as [|? ? (_ & _ & Hx) Hr]; subst.
    change (join_csv (x :: y :: items))
      with (x ++ "," ++ join_csv (y :: items))%string.
    rewrite !chars_append.
    change (chars ",") with [","%char]. simpl app.
    rewrite split_on_app by assumption. rewrite (IH y Hr). reflexivity.
Qed.

(** X4. The exclusion lists survive the editor: joining a list of items
    with commas, as selecting a job does, and parsing the text again, as
    saving it does, gives the list back, provided its items are such as
    [parse_csv] yields. *)
Theorem parse_csv_join items :
  Forall csv_item items -> parse_csv (join_csv items) = items.
Proof.
  intros H. destruct items as [|x items]; [reflexivity|].
  unfold parse_csv. rewrite split_join_csv by assumption.
  rewrite map_map. clear - H.
  induction H as [|y l (Hne & Hs & _) _ IH]; [reflexivity|].
  simpl. rewrite str_chars, Hs.
  apply String.eqb_neq in Hne. rewrite Hne. simpl. now rewrite IH.
Qed.

Lemma parse_csv_join_witness :
  Forall csv_item ["*.json"; "*.cfg"; "keep_me.txt"]
  /\ parse_csv (join_csv ["*.json"; "*.cfg"; "keep_me.txt"])
     = ["*.json"; "*.cfg"; "keep_me.txt"].
Proof.
  assert (H : Forall csv_item ["*.json"; "*.cfg"; "keep_me.txt"]).
  { repeat constructor; try discriminate;
      vm_compute; intuition discriminate. }
  split; [exact H|]. exact (parse_csv_join _ H).
Defined.

(* --------------------------------------------------------------------- *)
(** ** What the deletion of files spares                                   *)
(* --------------------------------------------------------------------- *)




Lemma remove_entry_keeps e f c (es : entries) :
  In e es -> find_entry f es = Some c -> e <> (f, c) ->
  In e (remove_entry f es).
Proof.
  induction es as [|[nm c0] rest IH]; simpl; intros Hin Hf Hne; [tauto|].
  destruct (String.eqb nm f) eqn:E.
  - apply String.eqb_eq in E. subst nm. injection Hf as ->.
    destruct Hin as [<-|Hin]; [congruence | assumption].
  - destruct Hin as [<-|Hin]; [now left|]. right. now apply IH.
Qed.

Lemma entry_at_occupied n rel fn c : entry_at n rel fn c -> occupied n.
Proof. destruct 1 as [r l [|e es]|r l [|e es]]; simpl in *; tauto. Qed.

Lemma occupied_is_dir n : occupied n -> is_dir n = true.
Proof. destruct n; simpl; tauto. Qed.

Lemma local_file_step_keeps os xf dry top (es : entries) st f e :
  In e es -> spared os xf e ->
  In e (fst (local_file_step os xf dry top (es, st) f)).
Proof.
  intros Hin Hs. unfold local_file_step, unlink.
  destruct (matches_any os f xf) eqn:Hx; [exact Hin|].
  destruct dry; [exact Hin|].
  destruct (find_entry f es) as [[[]|]|] eqn:Hf; simpl; try exact Hin.
  apply (remove_entry_keeps e f (File false)); auto.
  intros ->. destruct Hs as [H|[H|H]]; simpl in H; congruence.
Qed.

Lemma local_dir_step_keeps os xd dry top (es : entries) st dn e :
  In e es -> (forall r, snd e <> Dir r false []) ->
  In e (fst (local_dir_step os xd dry top (es, st) dn)).
Proof.
  intros Hin Hs. unfold local_dir_step, rmdir.
  destruct (matches_any os dn xd); [exact Hin|].
  destruct (find_entry dn es) as [[lk|[] l [|x cs]]|] eqn:Hf; simpl;
    try exact Hin.
  destruct dry; simpl; [exact Hin|].
  destruct l; simpl; [exact Hin|].
  apply (remove_entry_keeps e dn (Dir true false [])); auto.
  intros ->. now apply (Hs true).
Qed.

Lemma local_visit_keeps os xf xd dry top dirs files (es : entries) st e :
  In e es -> spared os xf e -> (forall r, snd e <> Dir r false []) ->
  In e (fst (local_visit os xf xd dry top dirs files (es, st))).
Proof.
  intros Hin Hs Hd. unfold local_visit.
  apply (fold_left_inv _ (fun s => In e (fst s))).
  - intros [es' st'] dn _ H. now apply local_dir_step_keeps.
  - apply (fold_left_inv _ (fun s => In e (fst s))); [|exact Hin].
    intros [es' st'] fn _ H. now apply local_file_step_keeps.
Qed.

Lemma walk_dirs_In_file body top fn c es : forall st,
  In (fn, c) es -> is_dir c = false ->
  In (fn, c) (fst (walk_dirs body top es st)).
Proof.
  induction es as [|[nm c0] rest IH]; intros st Hin Hc; [destruct Hin|].
  simpl. destruct Hin as [E|Hin].
  - injection E as -> ->. rewrite Hc.
    destruct (walk_dirs body top rest st) as [rest' st'']. now left.
  - destruct (if is_dir c0 then _ else _) as [c' st'].
    specialize (IH st' Hin Hc). revert IH.
    destruct (walk_dirs body top rest st') as [rest' st'']. simpl. auto.
Qed.

Lemma walk_dirs_In_dir body top nm d es : forall st,
  In (nm, d) es -> is_dir d = true ->
  exists st',
    In (nm, fst (os_walk body (top ++ [nm]) d st'))
       (fst (walk_dirs body top es st)).
Proof.
  induction es as [|[nm0 c0] rest IH]; intros st Hin Hd; [destruct Hin|].
  simpl. destruct Hin as [E|Hin].
  - injection E as -> ->. rewrite Hd. exists st.
    destruct (os_walk body (top ++ [nm]) d st) as [d' st'].
    destruct (walk_dirs body top rest st') as [rest' st'']. now left.
  - destruct (if is_dir c0 then _ else _) as [c' st'].
    destruct (IH st' Hin Hd) as [st1 H1]. exists st1. revert H1.
    destruct (walk_dirs body top rest st') as [rest' st'']. simpl. auto.
Qed.

Lemma os_walk_keeps_entry os xf xd dry n rel fn lk :
  entry_at n rel fn (File lk) ->
  matches_any os fn xf = true \/ lk = true ->
  forall top st,
    entry_at (fst (os_walk (local_visit os xf xd dry) top n st)) rel fn
      (File lk).
Proof.
  intros Hat Hp. remember (File lk) as c eqn:Ec.
  induction Hat as [r l es fn c Hin|r l es nm d rel fn c Hin Hat IH];
    intros top st; subst c.
  - destruct r; [|now constructor]. rewrite os_walk_dir.
    pose proof (walk_dirs_In_file (local_visit os xf xd dry) top fn (File lk)
                  es st Hin eq_refl) as H1.
    revert H1. destruct (walk_dirs _ top es st) as [es1 st1]. simpl.
    intros H1.
    pose proof (local_visit_keeps os xf xd dry top (dir_names es)
                  (file_names es) es1 st1 (fn, File lk) H1) as H2.
    revert H2. destruct (local_visit _ _ _ _ _ _ _ _) as [es2 st2]. simpl.
    intros H2. constructor. apply H2.
    + destruct Hp as [Hp| ->]; [right; left; exact Hp | right; right; reflexivity].
    + discriminate.
  - specialize (IH eq_refl Hp). destruct r; [|econstructor; eauto].
    rewrite os_walk_dir.
    destruct (walk_dirs_In_dir (local_visit os xf xd dry) top nm d es st Hin
                (occupied_is_dir d (entry_at_occupied _ _ _ _ Hat)))
      as [st' H1].
    specialize (IH (top ++ [nm]) st'). revert H1.
    destruct (walk_dirs _ top es st) as [es1 st1]. simpl. intros H1.
    pose proof (local_visit_keeps os xf xd dry top (dir_names es)
                  (file_names es) es1 st1 _ H1) as H2.
    revert H2. destruct (local_visit _ _ _ _ _ _ _ _) as [es2 st2]. simpl.
    intros H2. refine (ea_below true l es2 nm _ rel fn (File lk) _ IH).
    apply entry_at_occupied in IH. apply H2.
    + left. now apply occupied_is_dir.
    + intros r0 E. simpl in E. rewrite E in IH. exact IH.
Qed.

(** X6. A local run leaves where it is every file whose name matches an
    exclude-file pattern, and every locked file, together with the
    directories above it: none of them is removed. *)
Theorem local_run_keeps_spared_files os exclude_files exclude_folders dry_run
  folder n rel fn lk :
  entry_at n rel fn (File lk) ->
  matches_any os fn exclude_files = true \/ lk = true ->
  exists n',
    fst (local_cleanup_folder os exclude_files exclude_folders dry_run folder
           (Some n)) = Some n'
    /\ entry_at n' rel fn (File lk).
Proof.
  intros Hat Hp. pose proof (entry_at_occupied _ _ _ _ Hat) as Ho.
  destruct n as [l|r l es]; [destruct Ho|].
  rewrite local_cleanup_folder_dir. eexists. split; [reflexivity|].
  now apply os_walk_keeps_entry.
Qed.

Lemma local_run_keeps_spared_files_witness :
  entry_at config_tree ["config"] "k.json" (File false)
  /\ matches_any Posix "k.json" ["*.json"] = true
  /\ exists n',
       fst (local_cleanup_folder Posix ["*.json"] [] false ["srv"; "logs"]
              (Some config_tree)) = Some n'
       /\ entry_at n' ["config"] "k.json" (File false).
Proof.
  assert (H : entry_at config_tree ["config"] "k.json" (File false)).
  { apply (ea_below true false _ "config"
             (Dir true false [("x.log", File false); ("k.json", File false)])).
    - simpl. auto.
    - constructor. simpl. auto. }
  split; [exact H|]. split; [reflexivity|].
  apply (local_run_keeps_spared_files Posix ["*.json"] [] false
           ["srv"; "logs"] config_tree ["config"] "k.json" false H).
  left. reflexivity.
Defined.
Lemma ftp_file_step_keeps os xf dry rdir (es : entries) st item e :
  In e es -> spared os xf e ->
  In e (fst (ftp_file_step os xf dry rdir (es, st) item)).
Proof.
  intros Hin Hs. unfold ftp_file_step, delete_file.
  destruct item as [name isdir]. destruct isdir; [exact Hin|].
  destruct (matches_any os name xf) eqn:Hx; [exact Hin|].
  destruct dry; [exact Hin|].
  destruct (find_entry name es) as [[[]|]|] eqn:Hf; simpl; try exact Hin.
  apply (remove_entry_keeps e name (File false)); auto.
  intros ->. destruct Hs as [H|[H|H]]; simpl in H; congruence.
Qed.

Lemma ftp_file_steps_keep os xf dry rdir items (es : entries) st e :
  In e es -> spared os xf e ->
  In e (fst (fold_left (ftp_file_step os xf dry rdir) items (es, st))).
Proof.
  intros Hin Hs. apply (fold_left_inv _ (fun s => In e (fst s))); [|exact Hin].
  intros [es' st'] item _ H. now apply ftp_file_step_keeps.
Qed.

Lemma ftp_remove_if_empty_occupied dry rdir l (es : entries) st e :
  In e es ->
  fst (ftp_remove_if_empty dry rdir (Dir true l es) st) = Some (Dir true l es).
Proof.
  intros Hin. unfold ftp_remove_if_empty. simpl.
  destruct es as [|x rest]; [destruct Hin|reflexivity].
Qed.

Lemma walk_children_In_file os xf xd dry root rdir fn c es : forall st,
  In (fn, c) es -> is_dir c = false ->
  In (fn, c) (fst (walk_children os xf xd dry root rdir es st)).
Proof.
  induction es as [|[nm c0] rest IH]; intros st Hin Hc; [destruct Hin|].
  simpl. destruct Hin as [E|Hin].
  - injection E as -> ->. rewrite Hc.
    destruct (walk_children os xf xd dry root rdir rest st) as [rest' st''].
    now left.
  - destruct (if is_dir c0 then _ else _) as [c' st'].
    specialize (IH st' Hin Hc). revert IH.
    destruct (walk_children os xf xd dry root rdir rest st') as [rest' st''].
    simpl. destruct c'; simpl; auto.
Qed.

Lemma walk_children_In_dir os xf xd dry root rdir (Q : node -> Prop) nm d es :
  forall st,
  In (nm, d) es -> is_dir d = true -> Q d ->
  (forall rdir' st', exists d',
      fst (walk_dir os xf xd dry root rdir' d st') = Some d' /\ Q d') ->
  exists d',
    In (nm, d') (fst (walk_children os xf xd dry root rdir es st)) /\ Q d'.
Proof.
  induction es as [|[nm0 c0] rest IH]; intros st Hin Hd Hq Hw;
    [destruct Hin|].
  simpl. destruct Hin as [E|Hin].
  - injection E as -> ->. rewrite Hd.
    destruct (matches_any os nm xd).
    + exists d. split; [|exact Hq].
      destruct (walk_children os xf xd dry root rdir rest st) as [rest' st''].
      now left.
    + destruct (Hw (child_path rdir nm) st) as [d' [E Hq']]. exists d'.
      split; [|exact Hq']. revert E.
      destruct (walk_dir os xf xd dry root (child_path rdir nm) d st)
        as [c' st']. simpl. intros ->.
      destruct (walk_children os xf xd dry root rdir rest st') as [rest' st''].
      now left.
  - destruct (if is_dir c0 then _ else _) as [c' st'].
    destruct (IH st' Hin Hd Hq Hw) as [d' [H1 Hq']]. exists d'.
    split; [|exact Hq']. revert H1.
    destruct (walk_children os xf xd dry root rdir rest st') as [rest' st''].
    simpl. destruct c'; simpl; auto.
Qed.

Lemma walk_dir_keeps_entry os xf xd dry root n rel fn lk :
  entry_at n rel fn (File lk) ->
  matches_any os fn xf = true \/ lk = true ->
  forall rdir st, exists n',
    fst (walk_dir os xf xd dry root rdir n st) = Some n'
    /\ entry_at n' rel fn (File lk).
Proof.
  intros Hat Hp. remember (File lk) as c eqn:Ec.
  induction Hat as [r l es fn c Hin|r l es nm d rel fn c Hin Hat IH];
    intros rdir st; subst c.
  - destruct r; [|eexists; split; [reflexivity|now constructor]].
    rewrite walk_dir_dir. cbv zeta.
    pose proof (walk_children_In_file os xf xd dry root rdir fn (File lk) es
                  (emit (LIST rdir (inr (listing es))) st) Hin eq_refl) as H1.
    revert H1. destruct (walk_children _ _ _ _ _ _ _ _) as [es1 st1]. simpl.
    intros H1.
    pose proof (ftp_file_steps_keep os xf dry rdir (listing es) es1 st1
                  (fn, File lk) H1) as H2.
    revert H2. destruct (fold_left _ _ _) as [es2 st2]. simpl. intros H2.
    assert (H3 : In (fn, File lk) es2).
    { apply H2. destruct Hp as [Hp| ->];
        [right; left; exact Hp | right; right; reflexivity]. }
    exists (Dir true l es2). split; [|now constructor].
    destruct (String.eqb rdir root); [reflexivity|].
    now apply (ftp_remove_if_empty_occupied dry rdir l es2 st2 _ H3).
  - specialize (IH eq_refl Hp).
    destruct r; [|eexists; split; [reflexivity|econstructor; eauto]].
    rewrite walk_dir_dir. cbv zeta.
    destruct (walk_children_In_dir os xf xd dry root rdir
                (fun x => entry_at x rel fn (File lk)) nm d es
                (emit (LIST rdir (inr (listing es))) st) Hin
                (occupied_is_dir d (entry_at_occupied _ _ _ _ Hat)) Hat IH)
      as [d' [H1 Hd']].
    revert H1. destruct (walk_children _ _ _ _ _ _ _ _) as [es1 st1]. simpl.
    intros H1.
    pose proof (ftp_file_steps_keep os xf dry rdir (listing es) es1 st1
                  (nm, d') H1) as H2.
    revert H2. destruct (fold_left _ _ _) as [es2 st2]. simpl. intros H2.
    assert (H3 : In (nm, d') es2).
    { apply H2. left. simpl.
      apply occupied_is_dir. exact (entry_at_occupied _ _ _ _ Hd'). }
    exists (Dir true l es2). split; [|econstructor; eauto].
    destruct (String.eqb rdir root); [reflexivity|].
    now apply (ftp_remove_if_empty_occupied dry rdir l es2 st2 _ H3).
Qed.

(** X7. A remote run leaves where it is every file whose name matches an
    exclude-file pattern, and every file the server refuses to delete,
    together with the directories above it: none of them is removed. *)
Theorem remote_run_keeps_spared_files os exclude_files exclude_folders dry_run
  remote_folder n rel fn lk :
  entry_at n rel fn (File lk) ->
  matches_any os fn exclude_files = true \/ lk = true ->
  exists n',
    fst (ftp_cleanup_folder os exclude_files exclude_folders dry_run
           remote_folder (Some n)) = Some n'
    /\ entry_at n' rel fn (File lk).
Proof.
  intros Hat Hp. unfold ftp_cleanup_folder.
  now apply walk_dir_keeps_entry.
Qed.

Lemma remote_run_keeps_spared_files_witness :
  entry_at config_tree ["config"] "k.json" (File false)
  /\ matches_any Posix "k.json" ["*.json"] = true
  /\ exists n',
       fst (ftp_cleanup_folder Posix ["*.json"] [] false "/srv/logs"
              (Some config_tree)) = Some n'
       /\ entry_at n' ["config"] "k.json" (File false).
Proof.
  assert (H : entry_at config_tree ["config"] "k.json" (File false)).
  { apply (ea_below true false _ "config"
             (Dir true false [("x.log", File false); ("k.json", File false)])).
    - simpl. auto.
    - constructor. simpl. auto. }
  split; [exact H|]. split; [reflexivity|].
  apply (remote_run_keeps_spared_files Posix ["*.json"] [] false
           "/srv/logs" config_tree ["config"] "k.json" false H).
  left. reflexivity.
Defined.

(* --------------------------------------------------------------------- *)
(** ** The key of a minute                                                 *)
(* --------------------------------------------------------------------- *)

Lemma digit_inj a b :
  datetime.digit a = datetime.digit b -> (a mod 10 = b mod 10)%Z.
Proof.
  unfold datetime.digit. intros H.
  apply (f_equal nat_of_ascii) in H.
  pose proof (Z.mod_pos_bound a 10 eq_refl) as Ha.
  pose proof (Z.mod_pos_bound b 10 eq_refl) as Hb.
  rewrite !nat_ascii_embedding in H by lia. lia.
Qed.

Lemma pad2_inj a b :
  (0 <= a < 100)%Z -> (0 <= b < 100)%Z ->
  datetime.pad2 a = datetime.pad2 b -> a = b.
Proof.
  intros Ha Hb H. unfold datetime.pad2 in H.
  injection H as H1 H2. apply digit_inj in H1, H2.
  revert H1 H2. Z.to_euclidean_division_equations. lia.
Qed.

Lemma pad4_inj a b :
  (0 <= a < 10000)%Z -> (0 <= b < 10000)%Z ->
  datetime.pad4 a = datetime.pad4 b -> a = b.
Proof.
  intros Ha Hb H. unfold datetime.pad4, datetime.pad2 in H.
  injection H as H1 H2 H3 H4. apply digit_inj in H1, H2, H3, H4.
  revert H1 H2 H3 H4. Z.to_euclidean_division_equations. lia.
Qed.

Lemma minute_stamp_inj a b :
  in_range a -> in_range b ->
  datetime.minute_stamp a = datetime.minute_stamp b -> same_minute a b.
Proof.
  intros (Hy & Hm & Hd & Hh & Hmi) (Hy' & Hm' & Hd' & Hh' & Hmi') H.
  unfold datetime.minute_stamp in H.
  assert (E : forall y m d h mi,
             (datetime.pad4 y ++ datetime.pad2 m ++ datetime.pad2 d ++ "_"
              ++ datetime.pad2 h ++ datetime.pad2 mi)%string
             = String (datetime.digit (y / 1000))
                 (String (datetime.digit (y / 100))
                 (String (datetime.digit (y / 10))
                 (String (datetime.digit y)
                 (String (datetime.digit (m / 10))
                 (String (datetime.digit m)
                 (String (datetime.digit (d / 10))
                 (String (datetime.digit d)
                 (String "_"
                 (String (datetime.digit (h / 10))
                 (String (datetime.digit h)
                 (String (datetime.digit (mi / 10))
                 (String (datetime.digit mi) "")))))))))))))
    by reflexivity.
  rewrite !E in H. clear E.
  injection H as H1 H2 H3 H4 H5 H6 H7 H8 H9 H10 H11 H12.
  repeat split.
  - apply pad4_inj; [lia|lia|]. unfold datetime.pad4, datetime.pad2.
    congruence.
  - apply pad2_inj; [lia|lia|]. unfold datetime.pad2. congruence.
  - apply pad2_inj; [lia|lia|]. unfold datetime.pad2. congruence.
  - apply pad2_inj; [lia|lia|]. unfold datetime.pad2. congruence.
  - apply pad2_inj; [lia|lia|]. unfold datetime.pad2. congruence.
Qed.

(** X8. The key [_run_due_jobs] stores in [last_run_key] names the
    calendar minute: two clock readings get the same key exactly when
    they agree on year, month, day, hour and minute. *)
Theorem minute_stamp_names_the_minute a b :
  in_range a -> in_range b ->
  (datetime.minute_stamp a = datetime.minute_stamp b <-> same_minute a b).
Proof.
  intros Ha Hb. split.
  - now apply minute_stamp_inj.
  - apply same_minute_stamp.
Qed.

Lemma minute_stamp_names_the_minute_witness :
  in_range tuesday_3am /\ in_range tuesday_3am_later
  /\ (datetime.minute_stamp tuesday_3am
      = datetime.minute_stamp tuesday_3am_later
      <-> same_minute tuesday_3am tuesday_3am_later).
Proof.
  assert (H1 : in_range tuesday_3am) by (unfold in_range; simpl; lia).
  assert (H2 : in_range tuesday_3am_later) by (unfold in_range; simpl; lia).
  split; [exact H1|]. split; [exact H2|].
  exact (minute_stamp_names_the_minute tuesday_3am tuesday_3am_later H1 H2).
Defined.

(* --------------------------------------------------------------------- *)
(** ** What a tick changes                                                 *)
(* --------------------------------------------------------------------- *)

Lemma stamp_at_below key f : forall js i,
  (forall n, In n f -> n < i) -> stamp_at key f i js = js.
Proof.
  induction js as [|j rest IH]; intros i H; [reflexivity|]. simpl.
  replace (existsb (Nat.eqb i) f) with false.
  - rewrite IH; [reflexivity|]. intros n Hn. specialize (H n Hn). lia.
  - symmetry. apply not_true_is_false. intros E.
    apply existsb_exists in E. destruct E as [n [Hn E]].
    apply Nat.eqb_eq in E. specialize (H n Hn). lia.
Qed.

Lemma stamp_at_cons key n f : forall js i,
  n < i -> stamp_at key (n :: f) i js = stamp_at key f i js.
Proof.
  induction js as [|j rest IH]; intros i H; [reflexivity|]. simpl.
  replace (Nat.eqb i n) with false by (symmetry; apply Nat.eqb_neq; lia).
  simpl. rewrite IH by lia. reflexivity.
Qed.

Section TickFrame.
Variable World : Type.
Variable run_job : Job.t -> World -> World * option string.
Variable log : level -> string -> World -> World.
Variable save_state : list Job.t -> World -> World.

Lemma due_loop_not_fired now js i w chg :
  existsb (Nat.eqb i) (fired (due_loop run_job log now (S i) js w chg))
  = false.
Proof.
  apply not_true_is_false. intros E. apply existsb_exists in E.
  destruct E as [n [Hn E]]. apply Nat.eqb_eq in E. subst n.
  apply due_loop_fired_ge in Hn. lia.
Qed.

Lemma due_loop_stamps now js : forall i w chg,
  jobs_after (due_loop run_job log now i js w chg)
  = stamp_at (datetime.minute_stamp now)
      (fired (due_loop run_job log now i js w chg)) i js.
Proof.
  induction js as [|j rest IH]; intros i w chg; [reflexivity|].
  destruct (passes_tests now j) eqn:Hp.
  - rewrite (due_loop_fire World run_job log now i j rest w chg Hp).
    cbv zeta. destruct (snd (run_job j _)) as [e|]; simpl.
    + rewrite Nat.eqb_refl. simpl. f_equal. symmetry.
      apply stamp_at_below. intros n [<-|[]]. lia.
    + rewrite Nat.eqb_refl. simpl. f_equal.
      rewrite stamp_at_cons by lia. apply IH.
  - rewrite (due_loop_skip World run_job log now i j rest w chg Hp).
    simpl. rewrite due_loop_not_fired. f_equal. apply IH.
Qed.

Lemma due_loop_idle now js : forall i w chg,
  existsb (passes_tests now) js = false ->
  due_loop run_job log now i js w chg = mk_due js w [] chg None.
Proof.
  induction js as [|j rest IH]; intros i w chg H; [reflexivity|].
  simpl in H. apply orb_false_iff in H. destruct H as [Hj Hrest].
  rewrite (due_loop_skip World run_job log now i j rest w chg Hj).
  rewrite IH by exact Hrest. reflexivity.
Qed.

Lemma due_loop_raised now js : forall i w chg e,
  raised (due_loop run_job log now i js w chg) = Some e ->
  exists pre j post,
    js = pre ++ j :: post
    /\ passes_tests now j = true
    /\ raised (due_loop run_job log now i pre w chg) = None
    /\ let before := due_loop run_job log now i pre w chg in
       let key := datetime.minute_stamp now in
       let w1 := log INFO ("Due job: " ++ Job.name j ++ " at " ++ key)%string
                   (world_after before) in
       snd (run_job j w1) = Some e
       /\ due_loop run_job log now i js w chg
          = mk_due (jobs_after before ++ Job.set_last_run_key key j :: post)
              (fst (run_job j w1)) (fired before ++ [i + List.length pre]) true
              (Some e).
Proof.
  induction js as [|j0 rest IH]; intros i w chg e H; [discriminate H|].
  destruct (passes_tests now j0) eqn:Hp.
  - rewrite (due_loop_fire World run_job log now i j0 rest w chg Hp) in H |- *.
    cbv zeta in H |- *.
    destruct (snd (run_job j0 _)) as [e0|] eqn:Hr.
    + simpl in H. injection H as ->.
      exists [], j0, rest. simpl. rewrite Hr, Nat.add_0_r. auto.
    + simpl in H. destruct (IH (S i) _ true e H)
        as (pre & j & post & -> & Hj & Hn & Hrun & E).
      exists (j0 :: pre), j, post. cbv zeta in Hrun, E |- *.
      rewrite (due_loop_fire World run_job log now i j0 pre w chg Hp).
      cbv zeta. rewrite Hr. simpl.
      split; [reflexivity|]. split; [exact Hj|]. split; [exact Hn|].
      split; [exact Hrun|]. rewrite E. simpl.
      rewrite Nat.add_succ_r. reflexivity.
  - rewrite (due_loop_skip World run_job log now i j0 rest w chg Hp) in H |- *.
    simpl in H. destruct (IH (S i) w chg e H)
      as (pre & j & post & -> & Hj & Hn & Hrun & E).
    exists (j0 :: pre), j, post. cbv zeta in Hrun, E |- *.
    rewrite (due_loop_skip World run_job log now i j0 pre w chg Hp).
    simpl. split; [reflexivity|]. split; [exact Hj|]. split; [exact Hn|].
    split; [exact Hrun|]. rewrite E. simpl.
    rewrite Nat.add_succ_r. reflexivity.
Qed.
End TickFrame.

(** X9. A tick leaves the list of jobs as it was, but for the
    [last_run_key] of the jobs it handed to [run_job], which is the key
    of the minute: no job is added, dropped, moved or otherwise
    edited, and the scheduler stays switched on or off as it was. *)
Theorem tick_only_stamps_fired_jobs
  (World : Type) (run_job : Job.t -> World -> World * option string)
  (log : level -> string -> World -> World)
  (save_state : list Job.t -> World -> World)
  (now : datetime.t) (app : App World) :
  jobs (fst (tick run_job log save_state now app))
  = stamp_at (datetime.minute_stamp now)
      (snd (tick run_job log save_state now app)) 0 (jobs app)
  /\ running (fst (tick run_job log save_state now app)) = running app.
Proof.
  unfold tick. destruct (running app) eqn:Hr; simpl.
  - split; [|reflexivity].
    rewrite run_due_jobs_jobs, run_due_jobs_fired. apply due_loop_stamps.
  - split; [|exact Hr]. symmetry. apply stamp_at_below. intros n [].
Qed.

(** X10. A tick at which no job passes the tests of [_run_due_jobs]
    changes nothing: no job is run, nothing is logged and the state is
    not saved. *)
Theorem idle_tick_changes_nothing
  (World : Type) (run_job : Job.t -> World -> World * option string)
  (log : level -> string -> World -> World)
  (save_state : list Job.t -> World -> World)
  (now : datetime.t) (app : App World) :
  existsb (passes_tests now) (jobs app) = false ->
  tick run_job log save_state now app = (app, []).
Proof.
  intros H. unfold tick, run_due_jobs.
  rewrite (due_loop_idle World run_job log now (jobs app) 0 (world app) false H).
  simpl. destruct app as [js [] w]; reflexivity.
Qed.

Lemma idle_tick_changes_nothing_witness :
  existsb (passes_tests wednesday_3am) (jobs tuesday_app) = false
  /\ tick names_run_job names_log names_save_state wednesday_3am tuesday_app
     = (tuesday_app, []).
Proof.
  split; [reflexivity|].
  apply (idle_tick_changes_nothing (list string) names_run_job names_log
           names_save_state wednesday_3am tuesday_app).
  reflexivity.
Defined.

(** X11. When the run of a job raises, the tick ends there: the jobs
    listed before it were dealt with as usual, the job itself carries
    the key of the minute although its run failed, the jobs listed
    after it are neither run nor changed, the state is not saved, and
    the last thing done is the ERROR line of [_tick]. *)
Theorem raising_job_ends_the_tick
  (World : Type) (run_job : Job.t -> World -> World * option string)
  (log : level -> string -> World -> World)
  (save_state : list Job.t -> World -> World)
  (now : datetime.t) (app : App World) (e : string) :
  running app = true ->
  raised (run_due_jobs run_job log save_state now app) = Some e ->
  exists pre j post,
    jobs app = pre ++ j :: post
    /\ is_due now j
    /\ raised (due_loop run_job log now 0 pre (world app) false) = None
    /\ let before := due_loop run_job log now 0 pre (world app) false in
       let key := datetime.minute_stamp now in
       let w1 := log INFO ("Due job: " ++ Job.name j ++ " at " ++ key)%string
                   (world_after before) in
       snd (run_job j w1) = Some e
       /\ tick run_job log save_state now app
          = (mk_app (jobs_after before ++ Job.set_last_run_key key j :: post)
               true
               (log ERROR ("Scheduler tick error: " ++ e)%string
                  (fst (run_job j w1))),
             fired before ++ [List.length pre]).
Proof.
  intros Hrun H. rewrite run_due_jobs_raised in H.
  destruct (due_loop_raised World run_job log now (jobs app) 0 (world app)
              false e H) as (pre & j & post & Hjs & Hj & Hn & Hr & E).
  exists pre, j, post. cbv zeta in Hr, E |- *.
  split; [exact Hjs|]. split; [now apply passes_tests_is_due|].
  split; [exact Hn|]. split; [exact Hr|].
  unfold tick, run_due_jobs. rewrite Hrun, E. reflexivity.
Qed.

Lemma raising_job_ends_the_tick_witness :
  running dangling_app = true
  /\ raised (run_due_jobs raising_run_job names_log names_save_state
               tuesday_3am dangling_app)
     = Some "FTP target not found: gone"
  /\ exists pre j post,
       jobs dangling_app = pre ++ j :: post
       /\ is_due tuesday_3am j
       /\ raised (due_loop raising_run_job names_log tuesday_3am 0 pre
                    (world dangling_app) false) = None
       /\ let before := due_loop raising_run_job names_log tuesday_3am 0 pre
                          (world dangling_app) false in
          let key := datetime.minute_stamp tuesday_3am in
          let w1 := names_log INFO
                      ("Due job: " ++ Job.name j ++ " at " ++ key)%string
                      (world_after before) in
          snd (raising_run_job j w1) = Some "FTP target not found: gone"
          /\ tick raising_run_job names_log names_save_state tuesday_3am
               dangling_app
             = (mk_app
                  (jobs_after before ++ Job.set_last_run_key key j :: post)
                  true
                  (names_log ERROR
                     ("Scheduler tick error: " ++ "FTP target not found: gone")%string
                     (fst (raising_run_job j w1))),
                fired before ++ [List.length pre]).
Proof.
  split; [reflexivity|]. split; [reflexivity|].
  apply (raising_job_ends_the_tick (list string) raising_run_job names_log
           names_save_state tuesday_3am dangling_app
           "FTP target not found: gone"); reflexivity.
Defined.

(** X12. The key of one minute does not hold a job back in another: a
    job a tick has run is run again by a tick in any other minute
    whose weekday, hour and minute meet its schedule, provided no run
    of that tick raises. *)
Theorem fired_job_fires_again_in_another_minute
  (World : Type) (run_job : Job.t -> World -> World * option string)
  (log : level -> string -> World -> World)
  (save_state : list Job.t -> World -> World)
  (now later : datetime.t) (app : App World) (i : nat) (j : Job.t) :
  in_range now -> in_range later -> ~ same_minute now later ->
  nth_error (jobs app) i = Some j ->
  In i (snd (tick run_job log save_state now app)) ->
  In (datetime.weekday later) (Job.days j) ->
  datetime.hour later = Job.hour j ->
  datetime.minute later = Job.minute j ->
  raised (run_due_jobs run_job log save_state later
            (fst (tick run_job log save_state now app))) = None ->
  In i (snd (tick run_job log save_state later
               (fst (tick run_job log save_state now app)))).
Proof.
  intros Hn Hl Hdiff Hi Hf Hd Hh Hm Hr.
  destruct (tick_fired World run_job log save_state now app i Hf)
    as (j0 & Hi0 & Hp & Hafter).
  rewrite Hi in Hi0. injection Hi0 as <-.
  apply passes_tests_is_due in Hp. destruct Hp as (He & Hs & _).
  assert (Hrun : running (fst (tick run_job log save_state now app)) = true).
  { revert Hf. unfold tick. destruct (running app); simpl; [reflexivity|].
    intros []. }
  unfold tick at 1. rewrite Hrun. cbn [snd].
  rewrite run_due_jobs_fired. rewrite run_due_jobs_raised in Hr.
  apply (due_loop_due_fired World run_job log later _ 0 _ false i _ Hafter);
    [|exact Hr].
  apply passes_tests_is_due. unfold is_due. simpl.
  repeat split; try assumption.
  intros E. apply Hdiff. now apply minute_stamp_inj.
Qed.

Lemma fired_job_fires_again_in_another_minute_witness :
  in_range tuesday_3am /\ in_range next_tuesday_3am
  /\ ~ same_minute tuesday_3am next_tuesday_3am
  /\ In 0 (snd (tick names_run_job names_log names_save_state
                  next_tuesday_3am
                  (fst (tick names_run_job names_log names_save_state
                          tuesday_3am tuesday_app)))).
Proof.
  assert (H1 : in_range tuesday_3am) by (unfold in_range; simpl; lia).
  assert (H2 : in_range next_tuesday_3am) by (unfold in_range; simpl; lia).
  assert (H3 : ~ same_minute tuesday_3am next_tuesday_3am).
  { unfold same_minute. simpl. lia. }
  split; [exact H1|]. split; [exact H2|]. split; [exact H3|].
  apply (fired_job_fires_again_in_another_minute (list string) names_run_job
           names_log names_save_state tuesday_3am next_tuesday_3am
           tuesday_app 0 tuesday_job H1 H2 H3).
  - reflexivity.
  - simpl. auto.
  - simpl. auto.
  - reflexivity.
  - reflexivity.
  - reflexivity.
Defined.

(* --------------------------------------------------------------------- *)
(** ** The names [FTPClient.list_dir] keeps of an NLST answer              *)
(* --------------------------------------------------------------------- *)

Lemma last_In {A : Type} (l : list A) d : l <> [] -> In (last l d) l.
Proof.
  induction l as [|x [|y r] IH]; intros H; [congruence|now left|].
  right. apply IH. discriminate.
Qed.

Lemma split_on_cut sep b : forall a,
  exists pre, split_on sep (a ++ sep :: b) = pre ++ split_on sep b
              /\ pre <> [].
Proof.
  induction a as [|c a IH]; simpl.
  - rewrite Ascii.eqb_refl. exists [[]]. split; [reflexivity|discriminate].
  - destruct IH as [pre [E Hne]]. rewrite E.
    destruct (Ascii.eqb c sep).
    + exists ([] :: pre). split; [reflexivity|discriminate].
    + destruct pre as [|h t]; [congruence|]. simpl.
      exists ((c :: h) :: t). split; [reflexivity|discriminate].
Qed.

Lemma last_split_on sep a b :
  ~ In sep b -> last (split_on sep (a ++ sep :: b)) [] = b.
Proof.
  intros H. destruct (split_on_cut sep b a) as [pre [E _]].
  rewrite E, (split_on_one sep b H). apply last_last.
Qed.

Lemma slash_free_not_In l : slash_free l -> ~ In "/"%char l.
Proof.
  intros H Hin. unfold slash_free in H. rewrite Forall_forall in H.
  specialize (H _ Hin). discriminate H.
Qed.

Lemma not_In_slash_free l : ~ In "/"%char l -> slash_free l.
Proof.
  intros H. apply Forall_forall. intros c Hc.
  unfold is_slash. apply Ascii.eqb_neq. intros ->. now apply H.
Qed.

Lemma slash_free_clean_name l :
  l <> [] -> slash_free l -> clean_name (str l) = true.
Proof.
  intros Hne Hs. unfold clean_name. rewrite chars_str.
  apply andb_true_iff. split.
  - apply negb_true_iff, String.eqb_neq. intros E.
    apply (f_equal chars) in E. rewrite chars_str in E. now apply Hne.
  - apply forallb_forall. intros c Hc. unfold slash_free in Hs.
    rewrite Forall_forall in Hs. now rewrite (Hs c Hc).
Qed.

(** X13. Whatever lines the server answers NLST with, every name the
    fallback of [list_dir] keeps is a name of one path component: it is
    not empty, holds no slash, and is neither [.] nor [..]. *)
Theorem nlst_names_are_clean names bn :
  In bn (nlst_names names) ->
  clean_name bn = true /\ bn <> "." /\ bn <> "..".
Proof.
  unfold nlst_names. intros H. apply filter_In in H. destruct H as [Hin Hk].
  apply negb_true_iff in Hk. unfold nlst_skipped in Hk. simpl in Hk.
  apply orb_false_iff in Hk. destruct Hk as [H1 Hk].
  apply orb_false_iff in Hk. destruct Hk as [H2 Hk].
  apply orb_false_iff in Hk. destruct Hk as [H3 _].
  apply String.eqb_neq in H1, H2, H3.
  split; [|split; assumption].
  apply in_map_iff in Hin. destruct Hin as [n [<- _]]. unfold nlst_base in *.
  set (l := rstrip_by is_slash (chars n)) in *.
  apply slash_free_clean_name.
  - intros E. apply H3. now rewrite E.
  - apply not_In_slash_free.
    pose proof (split_on_free "/" l) as Hf. rewrite Forall_forall in Hf.
    apply Hf, last_In, split_on_not_nil.
Qed.

Lemma nlst_names_are_clean_witness :
  In "a.log" (nlst_names ["/logs/a.log"; "/logs/./"; ".."; "/"])
  /\ clean_name "a.log" = true /\ "a.log" <> "." /\ "a.log" <> "..".
Proof.
  assert (H : In "a.log" (nlst_names ["/logs/a.log"; "/logs/./"; ".."; "/"]))
    by (vm_compute; auto).
  split; [exact H|].
  exact (nlst_names_are_clean ["/logs/a.log"; "/logs/./"; ".."; "/"] "a.log" H).
Defined.

(** X14. The fallback of [list_dir] reads the same name off a line
    whether the server answers NLST with the bare name, with the name
    after a directory path, or with either followed by slashes. *)
Theorem nlst_base_of_path dir name slashes :
  clean_name name = true ->
  Forall (fun c => is_slash c = true) (chars slashes) ->
  nlst_base (name ++ slashes) = name
  /\ nlst_base (dir ++ "/" ++ name ++ slashes) = name.
Proof.
  intros Hc Hs. destruct (clean_name_chars name Hc) as [Hne Hfree].
  assert (Hlast : exists l c, chars name = l ++ [c] /\ is_slash c = false).
  { destruct (exists_last Hne) as [l [c E]]. exists l, c. split; [exact E|].
    unfold slash_free in Hfree. rewrite E in Hfree.
    apply Forall_app in Hfree. destruct Hfree as [_ Hc'].
    now inversion Hc'. }
  destruct Hlast as (l & c & El & Hcs).
  assert (Hstrip : forall pre,
             rstrip_by is_slash (pre ++ chars name ++ chars slashes)
             = pre ++ chars name).
  { intros pre. unfold rstrip_by. rewrite !rev_app_distr.
    assert (Hd : forall t rest,
               Forall (fun c => is_slash c = true) t ->
               dropwhile is_slash (rev t ++ rest) = dropwhile is_slash rest).
    { intros t rest Ht. apply Forall_rev in Ht.
      induction Ht as [|x r Hx _ IH]; [reflexivity|]. simpl. now rewrite Hx. }
    rewrite <- app_assoc, Hd by exact Hs.
    rewrite El, rev_app_distr. simpl. rewrite Hcs.
    change (c :: rev l ++ rev pre) with ([c] ++ rev l ++ rev pre).
    rewrite !rev_app_distr, !rev_involutive, <- app_assoc. reflexivity. }
  unfold nlst_base. split.
  - rewrite chars_append. pose proof (Hstrip []) as H0. simpl in H0.
    rewrite H0.
    rewrite (split_on_one "/" (chars name) (slash_free_not_In _ Hfree)).
    simpl. apply str_chars.
  - rewrite !chars_append. change (chars "/") with ["/"%char].
    rewrite (app_assoc (chars dir)), app_assoc, <- (app_assoc _ (chars name)).
    rewrite (Hstrip (chars dir ++ ["/"%char])). rewrite <- app_assoc. simpl.
    rewrite (last_split_on "/" (chars dir) (chars name)
               (slash_free_not_In _ Hfree)).
    apply str_chars.
Qed.

Lemma nlst_base_of_path_witness :
  clean_name "a.log" = true
  /\ Forall (fun c => is_slash c = true) (chars "/")
  /\ nlst_base ("a.log" ++ "/") = "a.log"
  /\ nlst_base ("/srv/logs" ++ "/" ++ "a.log" ++ "/") = "a.log".
Proof.
  assert (H : Forall (fun c => is_slash c = true) (chars "/"))
    by (repeat constructor).
  split; [reflexivity|]. split; [exact H|].
  exact (nlst_base_of_path "/srv/logs" "a.log" "/" eq_refl H).
Defined.

(* --------------------------------------------------------------------- *)
(** ** The folder [ftp_cleanup_folder] starts from                         *)
(* --------------------------------------------------------------------- *)

Lemma starts_with_slash_str l :
  starts_with_slash (str l)
  = match l with c :: _ => is_slash c | [] => false end.
Proof. destruct l; reflexivity. Qed.

Lemma chars_normal_folder s :
  chars (normal_folder s)
  = let x := rstrip_by is_slash (replace_char "\" "/" (chars s)) in
    match x with
    | c :: _ => if is_slash c then x else "/"%char :: x
    | [] => ["/"%char]
    end.
Proof.
  unfold normal_folder, rstrip_slash, norm_remote. rewrite chars_str.
  rewrite starts_with_slash_str. cbv zeta.
  destruct (rstrip_by is_slash _) as [|c t] eqn:E.
  - reflexivity.
  - destruct (is_slash c).
    + apply chars_str.
    + rewrite chars_append, chars_str. reflexivity.
Qed.

Lemma replace_char_free a b l : ~ In a l -> replace_char a b l = l.
Proof.
  induction l as [|c r IH]; intros H; [reflexivity|]. simpl.
  replace (Ascii.eqb c a) with false.
  - rewrite IH; [reflexivity|]. intros Hin. apply H. now right.
  - symmetry. apply Ascii.eqb_neq. intros ->. apply H. now left.
Qed.

Lemma replace_char_gone a b l : a <> b -> ~ In a (replace_char a b l).
Proof.
  intros Hab. induction l as [|c r IH]; simpl; [tauto|].
  intros [E|Hin]; [|tauto].
  destruct (Ascii.eqb c a) eqn:Ec; [now apply Hab|].
  apply Ascii.eqb_neq in Ec. now apply Ec.
Qed.

Lemma rstrip_by_cons f a l :
  rstrip_by f l <> [] -> rstrip_by f (a :: l) = a :: rstrip_by f l.
Proof.
  unfold rstrip_by. simpl. intros H.
  assert (Hd : forall u, dropwhile f u <> [] ->
             dropwhile f (u ++ [a]) = dropwhile f u ++ [a]).
  { induction u as [|x u IH]; simpl; [congruence|].
    destruct (f x); [exact IH | reflexivity]. }
  rewrite Hd.
  - rewrite rev_app_distr. reflexivity.
  - intros E. apply H. now rewrite E.
Qed.

(** X15. The folder [ftp_cleanup_folder] works from begins with a slash
    and holds no backslash, and cleaning it once more changes nothing:
    it is the form against which [walk_dir] compares the directory it
    is about to remove. *)
Theorem normal_folder_is_normal remote_folder :
  starts_with_slash (normal_folder remote_folder) = true
  /\ ~ In "\"%char (chars (normal_folder remote_folder))
  /\ normal_folder (normal_folder remote_folder)
     = normal_folder remote_folder.
Proof.
  set (x := rstrip_by is_slash (replace_char "\" "/" (chars remote_folder))).
  assert (Hx : ~ In "\"%char x).
  { intros H. apply rstrip_by_In in H. revert H.
    apply replace_char_gone. discriminate. }
  assert (Hxx : rstrip_by is_slash x = x) by apply rstrip_by_idem.
  pose proof (chars_normal_folder remote_folder) as E. cbv zeta in E.
  fold x in E.
  assert (H2 : ~ In "\"%char (chars (normal_folder remote_folder))).
  { rewrite E. destruct x as [|c t]; [intros [H|[]]; discriminate H|].
    destruct (is_slash c); [exact Hx|].
    intros [H|H]; [discriminate H | now apply Hx]. }
  split; [|split; [exact H2|]].
  - rewrite <- (str_chars (normal_folder remote_folder)), E.
    rewrite starts_with_slash_str.
    destruct x as [|c t]; [reflexivity|].
    destruct (is_slash c) eqn:Hc; [exact Hc | reflexivity].
  - apply chars_inj. rewrite (chars_normal_folder (normal_folder remote_folder)).
    cbv zeta. rewrite (replace_char_free _ _ _ H2). rewrite E.
    destruct x as [|c t] eqn:Ex; [reflexivity|].
    destruct (is_slash c) eqn:Hc.
    + rewrite Hxx, Hc. reflexivity.
    + rewrite rstrip_by_cons by (rewrite Hxx; discriminate).
      rewrite Hxx. reflexivity.
Qed.

(* --------------------------------------------------------------------- *)
(** ** The weekdays of a job in the editor                                 *)
(* --------------------------------------------------------------------- *)

Lemma weekday_in_week now : In (datetime.weekday now) all_days.
Proof.
  unfold datetime.weekday.
  pose proof (Z.mod_pos_bound (datetime.toordinal now + 6) 7 eq_refl) as H.
  set (d := ((datetime.toordinal now + 6) mod 7)%Z) in *.
  assert (E : (d = 0 \/ d = 1 \/ d = 2 \/ d = 3 \/ d = 4 \/ d = 5 \/ d = 6)%Z)
    by lia.
  unfold all_days. simpl. intuition.
Qed.

Lemma mem_day_filter f d l :
  mem_day d (filter f l) = mem_day d l && f d.
Proof.
  apply eq_true_iff_eq. rewrite andb_true_iff, !mem_day_In, filter_In.
  tauto.
Qed.

(** X16. Opening a job in the editor and saving it keeps the weekdays on
    which the job passes the day test of [_run_due_jobs]; only a job
    that lists no day of the week, which never passes it, comes out
    passing it every day. *)
Theorem editor_keeps_the_weekdays now days :
  mem_day (datetime.weekday now) (days_from_boxes (day_boxes days))
  = if existsb (day_boxes days) all_days
    then mem_day (datetime.weekday now) days
    else true.
Proof.
  pose proof (weekday_in_week now) as Hw. apply mem_day_In in Hw.
  unfold days_from_boxes.
  destruct (filter (day_boxes days) all_days) as [|p ps] eqn:E.
  - replace (existsb (day_boxes days) all_days) with false; [exact Hw|].
    symmetry. apply not_true_is_false. intros H.
    apply existsb_exists in H. destruct H as [d [Hd Hb]].
    assert (Hin : In d (filter (day_boxes days) all_days))
      by (apply filter_In; auto).
    rewrite E in Hin. destruct Hin.
  - replace (existsb (day_boxes days) all_days) with true.
    + rewrite <- E, mem_day_filter, Hw. reflexivity.
    + symmetry. apply existsb_exists. exists p.
      assert (Hin : In p (filter (day_boxes days) all_days))
        by (rewrite E; now left).
      apply filter_In in Hin. exact Hin.
Qed.

(* --------------------------------------------------------------------- *)
(** ** The count of files of a dry run bounds that of a run                *)
(* --------------------------------------------------------------------- *)

Lemma local_files_le os xf top files : forall esd sd esr sr,
  deleted_files sr <= deleted_files sd ->
  deleted_files
    (snd (fold_left (local_file_step os xf false top) files (esr, sr)))
  <= deleted_files
       (snd (fold_left (local_file_step os xf true top) files (esd, sd))).
Proof.
  induction files as [|f rest IH]; intros esd sd esr sr H; [exact H|].
  cbn [fold_left].
  destruct (local_file_step os xf false top (esr, sr) f) as [esr1 sr1] eqn:Er.
  destruct (local_file_step os xf true top (esd, sd) f) as [esd1 sd1] eqn:Ed.
  apply IH. unfold local_file_step in Er, Ed.
  destruct (matches_any os f xf).
  - injection Er as <- <-. injection Ed as <- <-. exact H.
  - injection Ed as <- <-.
    destruct (unlink f esr) as [e|esr']; injection Er as <- <-; simpl; lia.
Qed.

Lemma os_walk_files_le os xf xd n : forall top sd sr,
  deleted_files sr <= deleted_files sd ->
  deleted_files (snd (os_walk (local_visit os xf xd false) top n sr))
  <= deleted_files (snd (os_walk (local_visit os xf xd true) top n sd)).
Proof.
  induction n as [l|r l es IH] using node_induction; intros top sd sr H;
    [exact H|].
  destruct r; [|exact H]. rewrite !os_walk_visit, !local_dirs_keep_files.
  assert (Hw : forall sd sr,
             deleted_files sr <= deleted_files sd ->
             deleted_files
               (snd (walk_dirs (local_visit os xf xd false) top es sr))
             <= deleted_files
                  (snd (walk_dirs (local_visit os xf xd true) top es sd))).
  { clear H sd sr. induction IH as [|[nm c] rest Hc _ IHrest];
      intros sd sr H; [exact H|].
    simpl. destruct (is_dir c).
    - specialize (Hc (top ++ [nm]) sd sr H). simpl in Hc. revert Hc.
      destruct (os_walk _ (top ++ [nm]) c sr) as [cr sr'].
      destruct (os_walk _ (top ++ [nm]) c sd) as [cd sd']. simpl.
      intros Hc. specialize (IHrest sd' sr' Hc). revert IHrest.
      destruct (walk_dirs _ top rest sr') as [rr sr''].
      destruct (walk_dirs _ top rest sd') as [rd sd'']. trivial.
    - specialize (IHrest sd sr H). revert IHrest.
      destruct (walk_dirs _ top rest sr) as [rr sr''].
      destruct (walk_dirs _ top rest sd) as [rd sd'']. trivial. }
  specialize (Hw sd sr H). revert Hw.
  destruct (walk_dirs _ top es sr) as [esr sr1].
  destruct (walk_dirs _ top es sd) as [esd sd1]. simpl.
  apply local_files_le.
Qed.

Lemma ftp_files_le os xf rdir items : forall esd sd esr sr,
  deleted_files sr <= deleted_files sd ->
  deleted_files
    (snd (fold_left (ftp_file_step os xf false rdir) items (esr, sr)))
  <= deleted_files
       (snd (fold_left (ftp_file_step os xf true rdir) items (esd, sd))).
Proof.
  induction items as [|[name isdir] rest IH]; intros esd sd esr sr H;
    [exact H|].
  cbn [fold_left].
  destruct (ftp_file_step os xf false rdir (esr, sr) (name, isdir))
    as [esr1 sr1] eqn:Er.
  destruct (ftp_file_step os xf true rdir (esd, sd) (name, isdir))
    as [esd1 sd1] eqn:Ed.
  apply IH. unfold ftp_file_step in Er, Ed.
  destruct isdir; [injection Er as <- <-; injection Ed as <- <-; exact H|].
  destruct (matches_any os name xf).
  - injection Er as <- <-. injection Ed as <- <-. exact H.
  - injection Ed as <- <-.
    destruct (delete_file name esr) as [e|esr']; injection Er as <- <-;
      simpl; lia.
Qed.

Lemma ftp_remove_keeps_files dry rdir n st :
  deleted_files (snd (ftp_remove_if_empty dry rdir n st)) = deleted_files st.
Proof.
  unfold ftp_remove_if_empty. repeat break_match; reflexivity.
Qed.

Lemma walk_dir_files_le os xf xd root n : forall rdir sd sr,
  deleted_files sr <= deleted_files sd ->
  deleted_files (snd (walk_dir os xf xd false root rdir n sr))
  <= deleted_files (snd (walk_dir os xf xd true root rdir n sd)).
Proof.
  induction n as [l|r l es IH] using node_induction; intros rdir sd sr H;
    [exact H|].
  destruct r; [|exact H]. rewrite !walk_dir_dir. cbv zeta.
  assert (Hw : forall sd sr,
             deleted_files sr <= deleted_files sd ->
             deleted_files
               (snd (walk_children os xf xd false root rdir es sr))
             <= deleted_files
                  (snd (walk_children os xf xd true root rdir es sd))).
  { clear H sd sr. induction IH as [|[nm c] rest Hc _ IHrest];
      intros sd sr H; [exact H|].
    simpl. destruct (is_dir c); [destruct (matches_any os nm xd)|].
    - specialize (IHrest sd sr H). revert IHrest.
      destruct (walk_children _ _ _ false _ _ rest sr) as [rr sr''].
      destruct (walk_children _ _ _ true _ _ rest sd) as [rd sd'']. trivial.
    - specialize (Hc (child_path rdir nm) sd sr H). simpl in Hc. revert Hc.
      destruct (walk_dir _ _ _ false _ (child_path rdir nm) c sr) as [cr sr'].
      destruct (walk_dir _ _ _ true _ (child_path rdir nm) c sd) as [cd sd'].
      simpl. intros Hc. specialize (IHrest sd' sr' Hc). revert IHrest.
      destruct (walk_children _ _ _ false _ _ rest sr') as [rr sr''].
      destruct (walk_children _ _ _ true _ _ rest sd') as [rd sd''].
      destruct cr, cd; trivial.
    - specialize (IHrest sd sr H). revert IHrest.
      destruct (walk_children _ _ _ false _ _ rest sr) as [rr sr''].
      destruct (walk_children _ _ _ true _ _ rest sd) as [rd sd'']. trivial. }
  specialize (Hw (emit (LIST rdir (inr (listing es))) sd)
                (emit (LIST rdir (inr (listing es))) sr) H).
  revert Hw.
  destruct (walk_children _ _ _ false _ _ es _) as [esr sr1].
  destruct (walk_children _ _ _ true _ _ es _) as [esd sd1]. simpl.
  intros Hw.
  pose proof (ftp_files_le os xf rdir (listing es) esd sd1 esr sr1 Hw) as Hf.
  revert Hf.
  destruct (fold_left (ftp_file_step os xf false rdir) _ _) as [esr2 sr2].
  destruct (fold_left (ftp_file_step os xf true rdir) _ _) as [esd2 sd2].
  simpl. intros Hf.
  destruct (String.eqb rdir root); [exact Hf|].
  now rewrite !ftp_remove_keeps_files.
Qed.

(** X17. On any folder, locked or unreadable entries and repeated names
    included, a run deletes at most as many files as the dry run of the
    same job counts: the count of files of a dry run is an upper
    bound. *)
Theorem dry_run_bounds_deleted_files os exclude_files exclude_folders
  folder remote_folder target :
  deleted_files (snd (local_cleanup_folder os exclude_files exclude_folders
                        false folder target))
  <= deleted_files (snd (local_cleanup_folder os exclude_files
                           exclude_folders true folder target))
  /\ deleted_files (snd (ftp_cleanup_folder os exclude_files exclude_folders
                           false remote_folder target))
     <= deleted_files (snd (ftp_cleanup_folder os exclude_files
                              exclude_folders true remote_folder target)).
Proof.
  split.
  - destruct target as [[l|r l es]|]; [simpl; lia| |simpl; lia].
    rewrite !local_cleanup_folder_dir. cbn [snd].
    apply os_walk_files_le. simpl. lia.
  - unfold ftp_cleanup_folder. destruct target as [n|]; [|simpl; lia].
    apply walk_dir_files_le. simpl. lia.
Qed.

(* --------------------------------------------------------------------- *)
(** ** A second local run                                                  *)
(* --------------------------------------------------------------------- *)

Lemma settled_dir os xf xd l es :
  settled os xf xd (Dir true l es) = forallb (settled_entry os xf xd) es.
Proof.
  simpl. induction es as [|[nm c] rest IH]; [reflexivity|].
  simpl. rewrite <- IH. reflexivity.
Qed.

Lemma remove_entry_gone f (es : entries) :
  NoDup (map fst es) -> ~ In f (map fst (remove_entry f es)).
Proof.
  induction es as [|[nm c] rest IH]; simpl; intros H; [tauto|].
  inversion H as [|? ? Hn Hr]; subst.
  destruct (String.eqb nm f) eqn:E.
  - apply String.eqb_eq in E. now subst.
  - apply String.eqb_neq in E. simpl. intros [H1|H1]; [now apply E|].
    now apply IH.
Qed.

Lemma NoDup_remove_entry f (es : entries) :
  NoDup (map fst es) -> NoDup (map fst (remove_entry f es)).
Proof.
  induction es as [|[nm c] rest IH]; simpl; intros H; [constructor|].
  inversion H as [|? ? Hn Hr]; subst.
  destruct (String.eqb nm f); [exact Hr|]. simpl. constructor; auto.
  intros Hin. apply Hn. now apply (remove_entry_incl f rest).
Qed.

Lemma In_names (es : entries) n c : In (n, c) es -> In n (map fst es).
Proof. intros H. apply in_map_iff. exists (n, c). auto. Qed.

(** *** The files a run leaves *)

Lemma local_file_step_clear os xf top (es : entries) st f :
  NoDup (map fst es) ->
  (forall n c, In (n, c) es -> is_dir c = false -> c = File false) ->
  incl (fst (local_file_step os xf false top (es, st) f)) es
  /\ NoDup (map fst (fst (local_file_step os xf false top (es, st) f)))
  /\ (forall c, In (f, c) (fst (local_file_step os xf false top (es, st) f)) ->
                is_dir c = false -> matches_any os f xf = true).
Proof.
  intros Hnd Hun. unfold local_file_step, unlink.
  destruct (matches_any os f xf) eqn:Hx; [simpl; auto using incl_refl|].
  destruct (find_entry f es) as [[[]|r l cs]|] eqn:Hf; simpl.
  - apply find_entry_In in Hf. specialize (Hun f _ Hf eq_refl). discriminate.
  - split; [intros e; apply remove_entry_In|].
    split; [now apply NoDup_remove_entry|].
    intros c Hin _. apply In_names in Hin.
    now apply remove_entry_gone in Hin.
  - split; [apply incl_refl|]. split; [exact Hnd|]. intros c Hin Hc.
    apply find_entry_In in Hf.
    rewrite (NoDup_names_unique es f _ _ Hnd Hin Hf) in Hc. discriminate.
  - split; [apply incl_refl|]. split; [exact Hnd|]. intros c Hin _.
    destruct (In_find_entry f c es Hin) as [c' Hc']. congruence.
Qed.

Lemma local_files_clear os xf top files : forall (es : entries) st,
  NoDup (map fst es) ->
  (forall n c, In (n, c) es -> is_dir c = false -> c = File false) ->
  incl (fst (fold_left (local_file_step os xf false top) files (es, st))) es
  /\ NoDup (map fst
              (fst (fold_left (local_file_step os xf false top) files
                      (es, st))))
  /\ (forall f c,
        In f files ->
        In (f, c)
           (fst (fold_left (local_file_step os xf false top) files (es, st))) ->
        is_dir c = false -> matches_any os f xf = true).
Proof.
  induction files as [|f rest IH]; intros es st Hnd Hun.
  - simpl. split; [apply incl_refl|]. split; [exact Hnd|]. intros f c [].
  - cbn [fold_left].
    destruct (local_file_step_clear os xf top es st f Hnd Hun)
      as (Hi & Hn & Hc).
    revert Hi Hn Hc.
    destruct (local_file_step os xf false top (es, st) f) as [es1 st1].
    cbn [fst]. intros Hi Hn Hc.
    destruct (IH es1 st1 Hn) as (Hi' & Hn' & Hc').
    { intros n c Hin. apply (Hun n c). now apply Hi. }
    split; [eapply incl_tran; eauto|]. split; [exact Hn'|].
    intros f' c [<-|Hin] Hin' Hd.
    + apply (Hc c); [now apply Hi' | exact Hd].
    + now apply (Hc' f' c).
Qed.

(** *** The directories a run leaves *)

Lemma local_dir_step_clear os xd top (es : entries) st dn :
  NoDup (map fst es) ->
  (forall n r l cs, In (n, Dir r l cs) es -> l = false) ->
  incl (fst (local_dir_step os xd false top (es, st) dn)) es
  /\ NoDup (map fst (fst (local_dir_step os xd false top (es, st) dn)))
  /\ (forall c, In (dn, c) (fst (local_dir_step os xd false top (es, st) dn)) ->
                empty_dir c = true -> matches_any os dn xd = true).
Proof.
  intros Hnd Hun. unfold local_dir_step, rmdir.
  destruct (matches_any os dn xd) eqn:Hx; [simpl; auto using incl_refl|].
  destruct (find_entry dn es) as [c0|] eqn:Hf.
  - pose proof (find_entry_In _ _ _ Hf) as Hin0.
    assert (Hsame : forall c, In (dn, c) es -> c = c0).
    { intros c Hin. exact (NoDup_names_unique es dn _ _ Hnd Hin Hin0). }
    destruct c0 as [lk|[] l [|x cs]]; simpl.
    + split; [apply incl_refl|]. split; [exact Hnd|]. intros c Hin He.
      rewrite (Hsame c Hin) in He. discriminate.
    + rewrite (Hun _ _ _ _ Hin0). simpl.
      split; [intros e; apply remove_entry_In|].
      split; [now apply NoDup_remove_entry|].
      intros c Hin _. apply In_names in Hin.
      now apply remove_entry_gone in Hin.
    + split; [apply incl_refl|]. split; [exact Hnd|]. intros c Hin He.
      rewrite (Hsame c Hin) in He. discriminate.
    + split; [apply incl_refl|]. split; [exact Hnd|]. intros c Hin He.
      rewrite (Hsame c Hin) in He. discriminate.
    + split; [apply incl_refl|]. split; [exact Hnd|]. intros c Hin He.
      rewrite (Hsame c Hin) in He. discriminate.
  - simpl. split; [apply incl_refl|]. split; [exact Hnd|]. intros c Hin _.
    destruct (In_find_entry dn c es Hin) as [c' Hc']. congruence.
Qed.

Lemma local_dirs_clear os xd top dirs : forall (es : entries) st,
  NoDup (map fst es) ->
  (forall n r l cs, In (n, Dir r l cs) es -> l = false) ->
  incl (fst (fold_left (local_dir_step os xd false top) dirs (es, st))) es
  /\ (forall dn c,
        In dn dirs ->
        In (dn, c)
           (fst (fold_left (local_dir_step os xd false top) dirs (es, st))) ->
        empty_dir c = true -> matches_any os dn xd = true).
Proof.
  induction dirs as [|d rest IH]; intros es st Hnd Hun.
  - simpl. split; [apply incl_refl|]. intros dn c [].
  - cbn [fold_left].
    destruct (local_dir_step_clear os xd top es st d Hnd Hun)
      as (Hi & Hn & Hc).
    revert Hi Hn Hc.
    destruct (local_dir_step os xd false top (es, st) d) as [es1 st1].
    cbn [fst]. intros Hi Hn Hc.
    destruct (IH es1 st1 Hn) as (Hi' & Hc').
    { intros n r l cs Hin. apply (Hun n r l cs). now apply Hi. }
    split; [eapply incl_tran; eauto|].
    intros dn c [<-|Hin] Hin' He.
    + apply (Hc c); [now apply Hi' | exact He].
    + now apply (Hc' dn c).
Qed.

(** *** A run on a tidy tree leaves a settled one *)

Lemma Forall2_kept_names es es1 :
  Forall2 (fun e e1 : string * node =>
             fst e1 = fst e /\ kept (snd e) (snd e1)) es es1 ->
  map fst es1 = map fst es.
Proof.
  induction 1 as [|e e1 es es1 [En _] _ IH]; [reflexivity|].
  simpl. now rewrite En, IH.
Qed.

Lemma tidy_kept_unlocked c c1 :
  tidy c = true -> kept c c1 ->
  match c1 with
  | File lk => lk = false
  | Dir _ l _ => l = false
  end.
Proof.
  destruct c as [lk|r l es]; simpl.
  - intros H ->. now apply negb_true_iff in H.
  - intros H (es' & -> & _). apply andb_true_iff in H. destruct H as [H _].
    apply andb_true_iff in H. destruct H as [H _].
    now apply negb_true_iff in H.
Qed.

Lemma walk_dirs_settled os xf xd top es :
  Forall (fun e => tidy (snd e) = true ->
                   forall top st,
                     settled os xf xd
                       (fst (os_walk (local_visit os xf xd false) top
                               (snd e) st)) = true) es ->
  Forall (fun e => tidy (snd e) = true) es ->
  forall st,
    Forall (fun e1 => is_dir (snd e1) = true ->
                      settled os xf xd (snd e1) = true)
      (fst (walk_dirs (local_visit os xf xd false) top es st)).
Proof.
  induction 1 as [|[nm c] rest Hc _ IH]; intros Ht st; [constructor|].
  inversion Ht as [|? ? Htc Htr]; subst. simpl in Hc, Htc. simpl.
  destruct (is_dir c) eqn:Hd.
  - specialize (Hc Htc (top ++ [nm]) st). revert Hc.
    destruct (os_walk _ (top ++ [nm]) c st) as [c' st']. simpl. intros Hc.
    specialize (IH Htr st'). revert IH.
    destruct (walk_dirs _ top rest st') as [rest' st'']. simpl.
    intros IH. constructor; auto.
  - specialize (IH Htr st). revert IH.
    destruct (walk_dirs _ top rest st) as [rest' st'']. simpl.
    intros IH. constructor; [|exact IH]. simpl. congruence.
Qed.

Lemma os_walk_settles os xf xd n :
  tidy n = true ->
  forall top st,
    settled os xf xd (fst (os_walk (local_visit os xf xd false) top n st))
    = true.
Proof.
  induction n as [l|r l es IH] using node_induction; intros Ht top st;
    [reflexivity|].
  destruct r; [|reflexivity].
  destruct (tidy_dir _ _ _ Ht) as (_ & Hnd & Htc).
  rewrite os_walk_dir.
  pose proof (walk_dirs_kept os xf xd false top es st) as Hk.
  pose proof (walk_dirs_settled os xf xd top es IH Htc st) as Hs.
  revert Hk Hs.
  destruct (walk_dirs _ top es st) as [es1 st1]. cbn [fst]. intros Hk Hs.
  assert (Hnd1 : NoDup (map fst es1))
    by (rewrite (Forall2_kept_names _ _ Hk); exact Hnd).
  assert (Horig : forall n c1, In (n, c1) es1 ->
            exists c, In (n, c) es /\ kept c c1 /\ tidy c = true).
  { intros n c1 Hin. destruct (Forall2_kept_In es es1 n c1 Hk Hin)
      as (c & Hc & Hkc).
    exists c. repeat split; auto. rewrite Forall_forall in Htc.
    exact (Htc _ Hc). }
  assert (Hfiles : forall n c, In (n, c) es1 -> is_dir c = false ->
                               c = File false).
  { intros n c Hin Hd. destruct (Horig n c Hin) as (c0 & _ & Hk0 & Ht0).
    pose proof (tidy_kept_unlocked c0 c Ht0 Hk0) as Hu.
    destruct c; [now subst | discriminate]. }
  assert (Hdirs : forall n r l cs, In (n, Dir r l cs) es1 -> l = false).
  { intros n r l0 cs Hin. destruct (Horig n _ Hin) as (c0 & _ & Hk0 & Ht0).
    exact (tidy_kept_unlocked c0 _ Ht0 Hk0). }
  unfold local_visit.
  destruct (local_files_clear os xf top (file_names es) es1 st1 Hnd1 Hfiles)
    as (Hi2 & Hnd2 & Hc2).
  revert Hi2 Hnd2 Hc2.
  destruct (fold_left (local_file_step os xf false top) (file_names es)
              (es1, st1)) as [es2 st2].
  cbn [fst]. intros Hi2 Hnd2 Hc2.
  destruct (local_dirs_clear os xd top (dir_names es) es2 st2 Hnd2)
    as (Hi3 & Hc3).
  { intros n r l0 cs Hin. apply (Hdirs n r l0 cs). now apply Hi2. }
  revert Hi3 Hc3.
  destruct (fold_left (local_dir_step os xd false top) (dir_names es)
              (es2, st2)) as [es3 st3].
  cbn [fst]. intros Hi3 Hc3.
  rewrite settled_dir. apply forallb_forall. intros [nm c] Hin.
  pose proof (Hi2 _ (Hi3 _ Hin)) as Hin1.
  destruct (Horig nm c Hin1) as (c0 & Hin0 & Hk0 & _).
  pose proof (kept_is_dir _ _ Hk0) as Hd.
  unfold settled_entry. simpl. destruct (is_dir c) eqn:Hdc.
  - apply andb_true_iff. split.
    + rewrite Forall_forall in Hs. exact (Hs _ Hin1 Hdc).
    + destruct (empty_dir c) eqn:He; [|reflexivity]. simpl.
      apply (Hc3 nm c); [|exact Hin|exact He]. apply dir_names_In.
      exists c0. split; [exact Hin0 | congruence].
  - apply (Hc2 nm c); [|now apply Hi3|exact Hdc].
    apply file_names_In_iff. exists c0. split; [exact Hin0 | congruence].
Qed.

(** *** A run on a settled tree does nothing *)

Lemma local_files_idle os xf dry top files : forall s,
  (forall f, In f files -> matches_any os f xf = true) ->
  fold_left (local_file_step os xf dry top) files s = s.
Proof.
  induction files as [|f rest IH]; intros [es st] H; [reflexivity|].
  cbn [fold_left]. unfold local_file_step at 2.
  rewrite (H f (or_introl eq_refl)). apply IH. intros f' Hf'. apply H.
  now right.
Qed.

Lemma local_dirs_idle os xd dry top (es : entries) dirs : forall st,
  (forall dn c, In dn dirs -> matches_any os dn xd = false ->
                find_entry dn es = Some c -> empty_dir c = false) ->
  fst (fold_left (local_dir_step os xd dry top) dirs (es, st)) = es
  /\ deleted_files
       (snd (fold_left (local_dir_step os xd dry top) dirs (es, st)))
     = deleted_files st
  /\ deleted_dirs
       (snd (fold_left (local_dir_step os xd dry top) dirs (es, st)))
     = deleted_dirs st.
Proof.
  induction dirs as [|d rest IH]; intros st H; [simpl; auto|].
  cbn [fold_left].
  assert (E : exists st',
             local_dir_step os xd dry top (es, st) d = (es, st')
             /\ deleted_files st' = deleted_files st
             /\ deleted_dirs st' = deleted_dirs st).
  { unfold local_dir_step.
    destruct (matches_any os d xd) eqn:Hx; [eauto|].
    pose proof (fun c => H d c (or_introl eq_refl) Hx) as Hd.
    destruct (find_entry d es) as [[lk|[] l [|x cs]]|]; eauto.
    specialize (Hd _ eq_refl). discriminate. }
  destruct E as (st' & -> & Ef & Ed).
  destruct (IH st') as (H1 & H2 & H3).
  { intros dn c Hin. apply H. now right. }
  rewrite H1, H2, H3. auto.
Qed.

Lemma os_walk_settled_idle os xf xd dry n :
  settled os xf xd n = true ->
  forall top st,
    fst (os_walk (local_visit os xf xd dry) top n st) = n
    /\ deleted_files (snd (os_walk (local_visit os xf xd dry) top n st))
       = deleted_files st
    /\ deleted_dirs (snd (os_walk (local_visit os xf xd dry) top n st))
       = deleted_dirs st.
Proof.
  induction n as [l|r l es IH] using node_induction; intros Hs top st;
    [simpl; auto|].
  destruct r; [|simpl; auto].
  rewrite settled_dir in Hs. rewrite forallb_forall in Hs.
  rewrite os_walk_dir.
  assert (Hw : forall st,
             fst (walk_dirs (local_visit os xf xd dry) top es st) = es
             /\ deleted_files
                  (snd (walk_dirs (local_visit os xf xd dry) top es st))
                = deleted_files st
             /\ deleted_dirs
                  (snd (walk_dirs (local_visit os xf xd dry) top es st))
                = deleted_dirs st).
  { clear st. revert Hs. induction IH as [|[nm c] rest Hc _ IHrest];
      intros Hs st; [simpl; auto|].
    assert (Hs' : forall x, In x rest -> settled_entry os xf xd x = true)
      by (intros x Hx; apply Hs; now right).
    pose proof (Hs (nm, c) (or_introl eq_refl)) as Hse.
    unfold settled_entry in Hse. simpl in Hse, Hc. simpl.
    destruct (is_dir c) eqn:Hd.
    - apply andb_true_iff in Hse. destruct Hse as [Hse _].
      destruct (Hc Hse (top ++ [nm]) st) as (H1 & H2 & H3). revert H1 H2 H3.
      destruct (os_walk _ (top ++ [nm]) c st) as [c' st']. simpl.
      intros -> H2 H3.
      destruct (IHrest Hs' st') as (H4 & H5 & H6). revert H4 H5 H6.
      destruct (walk_dirs _ top rest st') as [rest' st'']. simpl.
      intros -> H5 H6. repeat split; congruence.
    - destruct (IHrest Hs' st) as (H4 & H5 & H6). revert H4 H5 H6.
      destruct (walk_dirs _ top rest st) as [rest' st'']. simpl.
      intros -> H5 H6. repeat split; congruence. }
  destruct (Hw st) as (H1 & H2 & H3). revert H1 H2 H3.
  destruct (walk_dirs _ top es st) as [es1 st1]. simpl. intros -> H2 H3.
  unfold local_visit. rewrite local_files_idle.
  - destruct (local_dirs_idle os xd dry top es (dir_names es) st1)
      as (H4 & H5 & H6).
    + intros dn c _ Hx Hf. apply find_entry_In in Hf.
      specialize (Hs _ Hf). unfold settled_entry in Hs. simpl in Hs.
      destruct (is_dir c) eqn:Hd.
      * apply andb_true_iff in Hs. destruct Hs as [_ Hs]. rewrite Hx in Hs.
        rewrite orb_false_r in Hs. now apply negb_true_iff in Hs.
      * destruct c; [reflexivity | discriminate].
    + revert H4 H5 H6.
      destruct (fold_left (local_dir_step os xd dry top) _ _) as [es3 st3].
      simpl. intros -> H5 H6. repeat split; congruence.
  - intros f Hf. apply file_names_In_iff in Hf. destruct Hf as (c & Hin & Hd).
    specialize (Hs _ Hin). unfold settled_entry in Hs. simpl in Hs.
    now rewrite Hd in Hs.
Qed.

(** X18. Once a local run has gone through a folder in which nothing is
    locked and no directory holds two entries of one name, nothing is
    left to do: a second run of the same job, dry or not, leaves the
    folder as it finds it and returns the counters 0 and 0. *)
Theorem second_local_run_finds_nothing os exclude_files exclude_folders
  dry_run folder n :
  tidy n = true ->
  exists n',
    fst (local_cleanup_folder os exclude_files exclude_folders false folder
           (Some n)) = Some n'
    /\ fst (local_cleanup_folder os exclude_files exclude_folders dry_run
              folder (Some n')) = Some n'
    /\ counters (local_cleanup_folder os exclude_files exclude_folders dry_run
                   folder (Some n')) = (0, 0).
Proof.
  intros Ht. destruct n as [lk|r l es].
  - exists (File lk). repeat split.
  - rewrite local_cleanup_folder_dir.
    pose proof (os_walk_settles os exclude_files exclude_folders
                  (Dir r l es) Ht folder start) as Hs.
    pose proof (os_walk_kept os exclude_files exclude_folders false
                  (Dir r l es) folder start) as Hk.
    revert Hs Hk.
    destruct (os_walk _ folder (Dir r l es) start) as [n' st']. cbn [fst].
    intros Hs (es' & -> & _). exists (Dir r l es').
    split; [reflexivity|]. rewrite local_cleanup_folder_dir.
    destruct (os_walk_settled_idle os exclude_files exclude_folders dry_run
                (Dir r l es') Hs folder start) as (H1 & H2 & H3).
    unfold counters. cbn [fst snd]. rewrite H1, H2, H3. auto.
Qed.

Lemma second_local_run_finds_nothing_witness :
  tidy config_tree = true
  /\ exists n',
       fst (local_cleanup_folder Posix ["*.json"] ["config"] false
              ["srv"; "logs"] (Some config_tree)) = Some n'
       /\ fst (local_cleanup_folder Posix ["*.json"] ["config"] false
                 ["srv"; "logs"] (Some n')) = Some n'
       /\ counters (local_cleanup_folder Posix ["*.json"] ["config"] false
                      ["srv"; "logs"] (Some n')) = (0, 0).
Proof.
  split; [reflexivity|].
  apply (second_local_run_finds_nothing Posix ["*.json"] ["config"] false
           ["srv"; "logs"] config_tree).
  reflexivity.
Defined.
(* --------------------------------------------------------------------- *)
(** ** A second remote run                                                 *)
(* --------------------------------------------------------------------- *)


(** *** The files a run leaves *)



(** *** What the first loop of [walk_dir] leaves *)




(** *** A run on a tidy tree leaves a settled one *)



(** *** A run on a settled tree does nothing *)




